(** * Verification of [fix_expression_references.py]

    The script renames the type identifier [Expression] to [Expr] in a
    fixed list of Rust source files.  It consists of

    - [fix_expression_references], a chain of 24 calls to [re.sub], each with
      a constant pattern and a constant replacement;
    - [process_file], which reads one file, transforms it and writes it back
      when the text changed;
    - [main], the loop over [FILES_TO_FIX] that counts the files changed.

    The development embeds the three functions together with the part of
    Python's [re] module that the patterns use, and then proves the properties
    of the transform and of the file walker. *)

From Stdlib Require Import NArith List Ascii String Lia Bool.
From stdpp Require Import base option list strings gmap.

Local Open Scope N_scope.
Local Open Scope list_scope.

(** ** Python text

    A Python [str] is a sequence of Unicode code points. *)

Abbreviation pystr := (list N).

(** [py] reads an ASCII literal of this file as Python text. *)
Definition py (s : string) : pystr :=
  map N_of_ascii (list_ascii_of_string s).

(** ** Character classes of [re] on [str] patterns

    [\w] is [str.isalnum] or the underscore, [\s] is [str.isspace]; both are
    Unicode aware.  The ranges are those of the Unicode character database
    14.0 (CPython 3.11) above the ASCII block. *)

Definition ascii_alnum (c : N) : bool :=
  ((48 <=? c) && (c <=? 57)) || ((65 <=? c) && (c <=? 90))
  || ((97 <=? c) && (c <=? 122)).

Definition in_ranges (c : N) (rs : list (N * N)) : bool :=
  existsb (fun r => (fst r <=? c) && (c <=? snd r)) rs.

Definition unicode_alnum_ranges : list (N * N) :=
  [
    (170, 170); (178, 179); (181, 181); (185, 186); (188, 190); (192, 214);
    (216, 246); (248, 705); (710, 721); (736, 740); (748, 748); (750, 750);
    (880, 884); (886, 887); (890, 893); (895, 895); (902, 902); (904, 906);
    (908, 908); (910, 929); (931, 1013); (1015, 1153); (1162, 1327);
    (1329, 1366); (1369, 1369); (1376, 1416); (1488, 1514); (1519, 1522);
    (1568, 1610); (1632, 1641); (1646, 1647); (1649, 1747); (1749, 1749);
    (1765, 1766); (1774, 1788); (1791, 1791); (1808, 1808); (1810, 1839);
    (1869, 1957); (1969, 1969); (1984, 2026); (2036, 2037); (2042, 2042);
    (2048, 2069); (2074, 2074); (2084, 2084); (2088, 2088); (2112, 2136);
    (2144, 2154); (2160, 2183); (2185, 2190); (2208, 2249); (2308, 2361);
    (2365, 2365); (2384, 2384); (2392, 2401); (2406, 2415); (2417, 2432);
    (2437, 2444); (2447, 2448); (2451, 2472); (2474, 2480); (2482, 2482);
    (2486, 2489); (2493, 2493); (2510, 2510); (2524, 2525); (2527, 2529);
    (2534, 2545); (2548, 2553); (2556, 2556); (2565, 2570); (2575, 2576);
    (2579, 2600); (2602, 2608); (2610, 2611); (2613, 2614); (2616, 2617);
    (2649, 2652); (2654, 2654); (2662, 2671); (2674, 2676); (2693, 2701);
    (2703, 2705); (2707, 2728); (2730, 2736); (2738, 2739); (2741, 2745);
    (2749, 2749); (2768, 2768); (2784, 2785); (2790, 2799); (2809, 2809);
    (2821, 2828); (2831, 2832); (2835, 2856); (2858, 2864); (2866, 2867);
    (2869, 2873); (2877, 2877); (2908, 2909); (2911, 2913); (2918, 2927);
    (2929, 2935); (2947, 2947); (2949, 2954); (2958, 2960); (2962, 2965);
    (2969, 2970); (2972, 2972); (2974, 2975); (2979, 2980); (2984, 2986);
    (2990, 3001); (3024, 3024); (3046, 3058); (3077, 3084); (3086, 3088);
    (3090, 3112); (3114, 3129); (3133, 3133); (3160, 3162); (3165, 3165);
    (3168, 3169); (3174, 3183); (3192, 3198); (3200, 3200); (3205, 3212);
    (3214, 3216); (3218, 3240); (3242, 3251); (3253, 3257); (3261, 3261);
    (3293, 3294); (3296, 3297); (3302, 3311); (3313, 3314); (3332, 3340);
    (3342, 3344); (3346, 3386); (3389, 3389); (3406, 3406); (3412, 3414);
    (3416, 3425); (3430, 3448); (3450, 3455); (3461, 3478); (3482, 3505);
    (3507, 3515); (3517, 3517); (3520, 3526); (3558, 3567); (3585, 3632);
    (3634, 3635); (3648, 3654); (3664, 3673); (3713, 3714); (3716, 3716);
    (3718, 3722); (3724, 3747); (3749, 3749); (3751, 3760); (3762, 3763);
    (3773, 3773); (3776, 3780); (3782, 3782); (3792, 3801); (3804, 3807);
    (3840, 3840); (3872, 3891); (3904, 3911); (3913, 3948); (3976, 3980);
    (4096, 4138); (4159, 4169); (4176, 4181); (4186, 4189); (4193, 4193);
    (4197, 4198); (4206, 4208); (4213, 4225); (4238, 4238); (4240, 4249);
    (4256, 4293); (4295, 4295); (4301, 4301); (4304, 4346); (4348, 4680);
    (4682, 4685); (4688, 4694); (4696, 4696); (4698, 4701); (4704, 4744);
    (4746, 4749); (4752, 4784); (4786, 4789); (4792, 4798); (4800, 4800);
    (4802, 4805); (4808, 4822); (4824, 4880); (4882, 4885); (4888, 4954);
    (4969, 4988); (4992, 5007); (5024, 5109); (5112, 5117); (5121, 5740);
    (5743, 5759); (5761, 5786); (5792, 5866); (5870, 5880); (5888, 5905);
    (5919, 5937); (5952, 5969); (5984, 5996); (5998, 6000); (6016, 6067);
    (6103, 6103); (6108, 6108); (6112, 6121); (6128, 6137); (6160, 6169);
    (6176, 6264); (6272, 6276); (6279, 6312); (6314, 6314); (6320, 6389);
    (6400, 6430); (6470, 6509); (6512, 6516); (6528, 6571); (6576, 6601);
    (6608, 6618); (6656, 6678); (6688, 6740); (6784, 6793); (6800, 6809);
    (6823, 6823); (6917, 6963); (6981, 6988); (6992, 7001); (7043, 7072);
    (7086, 7141); (7168, 7203); (7232, 7241); (7245, 7293); (7296, 7304);
    (7312, 7354); (7357, 7359); (7401, 7404); (7406, 7411); (7413, 7414);
    (7418, 7418); (7424, 7615); (7680, 7957); (7960, 7965); (7968, 8005);
    (8008, 8013); (8016, 8023); (8025, 8025); (8027, 8027); (8029, 8029);
    (8031, 8061); (8064, 8116); (8118, 8124); (8126, 8126); (8130, 8132);
    (8134, 8140); (8144, 8147); (8150, 8155); (8160, 8172); (8178, 8180);
    (8182, 8188); (8304, 8305); (8308, 8313); (8319, 8329); (8336, 8348);
    (8450, 8450); (8455, 8455); (8458, 8467); (8469, 8469); (8473, 8477);
    (8484, 8484); (8486, 8486); (8488, 8488); (8490, 8493); (8495, 8505);
    (8508, 8511); (8517, 8521); (8526, 8526); (8528, 8585); (9312, 9371);
    (9450, 9471); (10102, 10131); (11264, 11492); (11499, 11502);
    (11506, 11507); (11517, 11517); (11520, 11557); (11559, 11559);
    (11565, 11565); (11568, 11623); (11631, 11631); (11648, 11670);
    (11680, 11686); (11688, 11694); (11696, 11702); (11704, 11710);
    (11712, 11718); (11720, 11726); (11728, 11734); (11736, 11742);
    (11823, 11823); (12293, 12295); (12321, 12329); (12337, 12341);
    (12344, 12348); (12353, 12438); (12445, 12447); (12449, 12538);
    (12540, 12543); (12549, 12591); (12593, 12686); (12690, 12693);
    (12704, 12735); (12784, 12799); (12832, 12841); (12872, 12879);
    (12881, 12895); (12928, 12937); (12977, 12991); (13312, 19903);
    (19968, 42124); (42192, 42237); (42240, 42508); (42512, 42539);
    (42560, 42606); (42623, 42653); (42656, 42735); (42775, 42783);
    (42786, 42888); (42891, 42954); (42960, 42961); (42963, 42963);
    (42965, 42969); (42994, 43009); (43011, 43013); (43015, 43018);
    (43020, 43042); (43056, 43061); (43072, 43123); (43138, 43187);
    (43216, 43225); (43250, 43255); (43259, 43259); (43261, 43262);
    (43264, 43301); (43312, 43334); (43360, 43388); (43396, 43442);
    (43471, 43481); (43488, 43492); (43494, 43518); (43520, 43560);
    (43584, 43586); (43588, 43595); (43600, 43609); (43616, 43638);
    (43642, 43642); (43646, 43695); (43697, 43697); (43701, 43702);
    (43705, 43709); (43712, 43712); (43714, 43714); (43739, 43741);
    (43744, 43754); (43762, 43764); (43777, 43782); (43785, 43790);
    (43793, 43798); (43808, 43814); (43816, 43822); (43824, 43866);
    (43868, 43881); (43888, 44002); (44016, 44025); (44032, 55203);
    (55216, 55238); (55243, 55291); (63744, 64109); (64112, 64217);
    (64256, 64262); (64275, 64279); (64285, 64285); (64287, 64296);
    (64298, 64310); (64312, 64316); (64318, 64318); (64320, 64321);
    (64323, 64324); (64326, 64433); (64467, 64829); (64848, 64911);
    (64914, 64967); (65008, 65019); (65136, 65140); (65142, 65276);
    (65296, 65305); (65313, 65338); (65345, 65370); (65382, 65470);
    (65474, 65479); (65482, 65487); (65490, 65495); (65498, 65500);
    (65536, 65547); (65549, 65574); (65576, 65594); (65596, 65597);
    (65599, 65613); (65616, 65629); (65664, 65786); (65799, 65843);
    (65856, 65912); (65930, 65931); (66176, 66204); (66208, 66256);
    (66273, 66299); (66304, 66339); (66349, 66378); (66384, 66421);
    (66432, 66461); (66464, 66499); (66504, 66511); (66513, 66517);
    (66560, 66717); (66720, 66729); (66736, 66771); (66776, 66811);
    (66816, 66855); (66864, 66915); (66928, 66938); (66940, 66954);
    (66956, 66962); (66964, 66965); (66967, 66977); (66979, 66993);
    (66995, 67001); (67003, 67004); (67072, 67382); (67392, 67413);
    (67424, 67431); (67456, 67461); (67463, 67504); (67506, 67514);
    (67584, 67589); (67592, 67592); (67594, 67637); (67639, 67640);
    (67644, 67644); (67647, 67669); (67672, 67702); (67705, 67742);
    (67751, 67759); (67808, 67826); (67828, 67829); (67835, 67867);
    (67872, 67897); (67968, 68023); (68028, 68047); (68050, 68096);
    (68112, 68115); (68117, 68119); (68121, 68149); (68160, 68168);
    (68192, 68222); (68224, 68255); (68288, 68295); (68297, 68324);
    (68331, 68335); (68352, 68405); (68416, 68437); (68440, 68466);
    (68472, 68497); (68521, 68527); (68608, 68680); (68736, 68786);
    (68800, 68850); (68858, 68899); (68912, 68921); (69216, 69246);
    (69248, 69289); (69296, 69297); (69376, 69415); (69424, 69445);
    (69457, 69460); (69488, 69505); (69552, 69579); (69600, 69622);
    (69635, 69687); (69714, 69743); (69745, 69746); (69749, 69749);
    (69763, 69807); (69840, 69864); (69872, 69881); (69891, 69926);
    (69942, 69951); (69956, 69956); (69959, 69959); (69968, 70002);
    (70006, 70006); (70019, 70066); (70081, 70084); (70096, 70106);
    (70108, 70108); (70113, 70132); (70144, 70161); (70163, 70187);
    (70272, 70278); (70280, 70280); (70282, 70285); (70287, 70301);
    (70303, 70312); (70320, 70366); (70384, 70393); (70405, 70412);
    (70415, 70416); (70419, 70440); (70442, 70448); (70450, 70451);
    (70453, 70457); (70461, 70461); (70480, 70480); (70493, 70497);
    (70656, 70708); (70727, 70730); (70736, 70745); (70751, 70753);
    (70784, 70831); (70852, 70853); (70855, 70855); (70864, 70873);
    (71040, 71086); (71128, 71131); (71168, 71215); (71236, 71236);
    (71248, 71257); (71296, 71338); (71352, 71352); (71360, 71369);
    (71424, 71450); (71472, 71483); (71488, 71494); (71680, 71723);
    (71840, 71922); (71935, 71942); (71945, 71945); (71948, 71955);
    (71957, 71958); (71960, 71983); (71999, 71999); (72001, 72001);
    (72016, 72025); (72096, 72103); (72106, 72144); (72161, 72161);
    (72163, 72163); (72192, 72192); (72203, 72242); (72250, 72250);
    (72272, 72272); (72284, 72329); (72349, 72349); (72368, 72440);
    (72704, 72712); (72714, 72750); (72768, 72768); (72784, 72812);
    (72818, 72847); (72960, 72966); (72968, 72969); (72971, 73008);
    (73030, 73030); (73040, 73049); (73056, 73061); (73063, 73064);
    (73066, 73097); (73112, 73112); (73120, 73129); (73440, 73458);
    (73648, 73648); (73664, 73684); (73728, 74649); (74752, 74862);
    (74880, 75075); (77712, 77808); (77824, 78894); (82944, 83526);
    (92160, 92728); (92736, 92766); (92768, 92777); (92784, 92862);
    (92864, 92873); (92880, 92909); (92928, 92975); (92992, 92995);
    (93008, 93017); (93019, 93025); (93027, 93047); (93053, 93071);
    (93760, 93846); (93952, 94026); (94032, 94032); (94099, 94111);
    (94176, 94177); (94179, 94179); (94208, 100343); (100352, 101589);
    (101632, 101640); (110576, 110579); (110581, 110587); (110589, 110590);
    (110592, 110882); (110928, 110930); (110948, 110951); (110960, 111355);
    (113664, 113770); (113776, 113788); (113792, 113800); (113808, 113817);
    (119520, 119539); (119648, 119672); (119808, 119892); (119894, 119964);
    (119966, 119967); (119970, 119970); (119973, 119974); (119977, 119980);
    (119982, 119993); (119995, 119995); (119997, 120003); (120005, 120069);
    (120071, 120074); (120077, 120084); (120086, 120092); (120094, 120121);
    (120123, 120126); (120128, 120132); (120134, 120134); (120138, 120144);
    (120146, 120485); (120488, 120512); (120514, 120538); (120540, 120570);
    (120572, 120596); (120598, 120628); (120630, 120654); (120656, 120686);
    (120688, 120712); (120714, 120744); (120746, 120770); (120772, 120779);
    (120782, 120831); (122624, 122654); (123136, 123180); (123191, 123197);
    (123200, 123209); (123214, 123214); (123536, 123565); (123584, 123627);
    (123632, 123641); (124896, 124902); (124904, 124907); (124909, 124910);
    (124912, 124926); (124928, 125124); (125127, 125135); (125184, 125251);
    (125259, 125259); (125264, 125273); (126065, 126123); (126125, 126127);
    (126129, 126132); (126209, 126253); (126255, 126269); (126464, 126467);
    (126469, 126495); (126497, 126498); (126500, 126500); (126503, 126503);
    (126505, 126514); (126516, 126519); (126521, 126521); (126523, 126523);
    (126530, 126530); (126535, 126535); (126537, 126537); (126539, 126539);
    (126541, 126543); (126545, 126546); (126548, 126548); (126551, 126551);
    (126553, 126553); (126555, 126555); (126557, 126557); (126559, 126559);
    (126561, 126562); (126564, 126564); (126567, 126570); (126572, 126578);
    (126580, 126583); (126585, 126588); (126590, 126590); (126592, 126601);
    (126603, 126619); (126625, 126627); (126629, 126633); (126635, 126651);
    (127232, 127244); (130032, 130041); (131072, 173791); (173824, 177976);
    (177984, 178205); (178208, 183969); (183984, 191456); (194560, 195101);
    (196608, 201546)
  ].

(** White space: tab, newline, vertical tab, form feed, carriage return, the
    four separators 28..31, space, and the Unicode white space above ASCII. *)
Definition space_ranges : list (N * N) :=
  [ (9, 13); (28, 32); (133, 133); (160, 160); (5760, 5760); (8192, 8202);
    (8232, 8233); (8239, 8239); (8287, 8287); (12288, 12288) ].

Definition is_alnum (c : N) : bool :=
  if c <? 128 then ascii_alnum c else in_ranges c unicode_alnum_ranges.

(** [\w] *)
Definition is_word (c : N) : bool := is_alnum c || (c =? 95).

(** [\s] *)
Definition is_space (c : N) : bool := in_ranges c space_ranges.

(** ** The fragment of regular expressions the script uses

    Every pattern of the script is a sequence of literal characters (some of
    them escaped), the class [\s] under a star, and the assertion [\b]. *)

Inductive atom :=
  | Chr (c : N)     (* a literal character *)
  | Space.          (* \s *)

Inductive item :=
  | One (a : atom)
  | Star (a : atom) (* greedy a* *)
  | WordB.          (* \b *)

Abbreviation regex := (list item).

(** *** Reading a pattern *)

Inductive token :=
  | TAtom (a : atom)
  | TWordB
  | TStar.

Definition is_meta (c : ascii) : bool :=
  existsb (Ascii.eqb c)
    [ "."; "^"; "$"; "*"; "+"; "?"; "{"; "}"; "["; "]"; "\"; "|"; "("; ")" ]%char.

Fixpoint lex (cs : list ascii) : option (list token) :=
  match cs with
  | [] => Some []
  | "\"%char :: "b"%char :: r => cons TWordB <$> lex r
  | "\"%char :: "s"%char :: r => cons (TAtom Space) <$> lex r
  | "\"%char :: c :: r =>
      if is_meta c then cons (TAtom (Chr (N_of_ascii c))) <$> lex r else None
  | "*"%char :: r => cons TStar <$> lex r
  | c :: r =>
      if is_meta c then None else cons (TAtom (Chr (N_of_ascii c))) <$> lex r
  end.

Fixpoint parse (ts : list token) : option regex :=
  match ts with
  | [] => Some []
  | TAtom a :: TStar :: r => cons (Star a) <$> parse r
  | TAtom a :: r => cons (One a) <$> parse r
  | TWordB :: r => cons WordB <$> parse r
  | TStar :: _ => None
  end.

Definition is_one (i : item) : bool :=
  match i with One _ => true | _ => false end.

(** [re.compile], for patterns of the fragment that cannot match the empty
    string (they hold an atom outside a star). *)
Definition re_compile (pattern : string) : option regex :=
  ts ← lex (list_ascii_of_string pattern);
  p ← parse ts;
  if existsb is_one p then Some p else None.

(** *** Matching at a position

    [match_here p prev s] is the length of the match of [p] at the start of
    [s], where [prev] is the character before [s] in the whole text, as the
    backtracking matcher finds it: a star first takes the longest run and
    gives characters back one at a time. *)

Definition atom_ok (a : atom) (c : N) : bool :=
  match a with
  | Chr x => c =? x
  | Space => is_space c
  end.

Definition word_before (prev : option N) : bool :=
  match prev with Some c => is_word c | None => false end.

Definition word_here (s : pystr) : bool :=
  match s with c :: _ => is_word c | [] => false end.

Definition at_boundary (prev : option N) (s : pystr) : bool :=
  xorb (word_before prev) (word_here s).

Fixpoint match_here (p : regex) (prev : option N) (s : pystr) : option nat :=
  match p with
  | [] => Some 0%nat
  | One a :: p' =>
      match s with
      | c :: t => if atom_ok a c then S <$> match_here p' (Some c) t else None
      | [] => None
      end
  | WordB :: p' => if at_boundary prev s then match_here p' prev s else None
  | Star a :: p' =>
      (fix star (prev : option N) (s : pystr) {struct s} : option nat :=
         match s with
         | c :: t =>
             if atom_ok a c then
               match star (Some c) t with
               | Some n => Some (S n)
               | None => match_here p' prev s
               end
             else match_here p' prev s
         | [] => match_here p' prev s
         end) prev s
  end.

(** *** [re.sub] with a literal replacement

    The text is scanned from the left.  Where the pattern matches, the
    replacement is emitted and the scan resumes after the match ([skip]
    counts the characters of the match still to pass over); elsewhere the
    character is copied.  A pattern of [re_compile] never matches the empty
    text ([match_here_nonempty] below), so the rules of [re.sub] for empty
    matches play no part. *)

Fixpoint sub_scan (p : regex) (repl : pystr) (prev : option N) (skip : nat)
    (s : pystr) : pystr :=
  match s with
  | [] => []
  | c :: t =>
      match skip with
      | S k => sub_scan p repl (Some c) k t
      | O =>
          match match_here p prev s with
          | Some (S k) => repl ++ sub_scan p repl (Some c) k t
          | _ => c :: sub_scan p repl (Some c) 0 t
          end
      end
  end.

(** [re.sub(pattern, repl, content)].  Every pattern of the script is in
    the fragment ([fix_run] below), so the second case does not arise on
    them. *)
Definition re_sub (pattern repl : string) (content : pystr) : pystr :=
  match re_compile pattern with
  | Some p => sub_scan p (py repl) None 0 content
  | None => content
  end.

(** ** The transform

    The calls are those of the script, in its order. *)

Definition fix_expression_references (content : pystr) : pystr :=
  (* 1. import statements *)
  let content :=
    re_sub "use crate::expression::Expression\b"
           "use crate::expression::Expr" content in
  let content :=
    re_sub "use crate::core::types::expression::Expression\b"
           "use crate::core::types::expression::Expr" content in
  (* 2. borrowed parameter types *)
  let content := re_sub "&Expression\b" "&Expr" content in
  (* 3. match arms and constructor expressions *)
  let content := re_sub "Expression::Literal\b" "Expr::Literal" content in
  let content := re_sub "Expression::Variable\b" "Expr::Variable" content in
  let content := re_sub "Expression::Property\b" "Expr::Property" content in
  let content := re_sub "Expression::Binary\b" "Expr::Binary" content in
  let content := re_sub "Expression::Unary\b" "Expr::Unary" content in
  let content := re_sub "Expression::Function\b" "Expr::Function" content in
  let content := re_sub "Expression::Aggregate\b" "Expr::Aggregate" content in
  let content := re_sub "Expression::List\b" "Expr::List" content in
  let content := re_sub "Expression::Map\b" "Expr::Map" content in
  let content := re_sub "Expression::Case\b" "Expr::Case" content in
  let content := re_sub "Expression::TypeCast\b" "Expr::TypeCast" content in
  let content := re_sub "Expression::Subscript\b" "Expr::Subscript" content in
  let content := re_sub "Expression::Range\b" "Expr::Range" content in
  let content := re_sub "Expression::Path\b" "Expr::Path" content in
  let content := re_sub "Expression::Label\b" "Expr::Label" content in
  (* 4. Vec<Expression> *)
  let content := re_sub "Vec<Expression>" "Vec<Expr>" content in
  (* 5. Box<Expression> *)
  let content := re_sub "Box<Expression>" "Box<Expr>" content in
  (* 6. Option<Box<Expression>> *)
  let content := re_sub "Option<Box<Expression>>" "Option<Box<Expr>>" content in
  (* 7. (Expression, Expression) *)
  let content := re_sub "\(Expression,\s*Expression\)" "(Expr, Expr)" content in
  (* 8. &[(Expression, Expression)] *)
  let content :=
    re_sub "&\[\(Expression,\s*Expression\)\]" "&[(Expr, Expr)]" content in
  (* 9. &[(String, Expression)] *)
  let content := re_sub "&\[String,\s*Expression\]" "&[(String, Expr)]" content in
  content.

Arguments fix_expression_references content : simpl never.

(** The patterns and replacements of the script, as a table. *)
Definition rules : list (string * string) :=
  [ ("use crate::expression::Expression\b", "use crate::expression::Expr");
    ("use crate::core::types::expression::Expression\b",
     "use crate::core::types::expression::Expr");
    ("&Expression\b", "&Expr");
    ("Expression::Literal\b", "Expr::Literal");
    ("Expression::Variable\b", "Expr::Variable");
    ("Expression::Property\b", "Expr::Property");
    ("Expression::Binary\b", "Expr::Binary");
    ("Expression::Unary\b", "Expr::Unary");
    ("Expression::Function\b", "Expr::Function");
    ("Expression::Aggregate\b", "Expr::Aggregate");
    ("Expression::List\b", "Expr::List");
    ("Expression::Map\b", "Expr::Map");
    ("Expression::Case\b", "Expr::Case");
    ("Expression::TypeCast\b", "Expr::TypeCast");
    ("Expression::Subscript\b", "Expr::Subscript");
    ("Expression::Range\b", "Expr::Range");
    ("Expression::Path\b", "Expr::Path");
    ("Expression::Label\b", "Expr::Label");
    ("Vec<Expression>", "Vec<Expr>");
    ("Box<Expression>", "Box<Expr>");
    ("Option<Box<Expression>>", "Option<Box<Expr>>");
    ("\(Expression,\s*Expression\)", "(Expr, Expr)");
    ("&\[\(Expression,\s*Expression\)\]", "&[(Expr, Expr)]");
    ("&\[String,\s*Expression\]", "&[(String, Expr)]") ]%string.

Definition apply_rule (content : pystr) (r : string * string) : pystr :=
  re_sub r.1 r.2 content.

(** ** Patterns by shape

    Each pattern of the script is a literal text, a literal text followed by
    [\b], or two literal texts around [\s*].  On these shapes the backtracking
    matcher has a closed form, [smatch], which returns the text left after
    the match. *)

Inductive shape :=
  | Plain (w : pystr)
  | Bounded (w : pystr)
  | Spaced (w1 w2 : pystr).

Definition lits (w : pystr) : regex := map (fun c => One (Chr c)) w.

Definition shape_regex (sh : shape) : regex :=
  match sh with
  | Plain w => lits w
  | Bounded w => lits w ++ [WordB]
  | Spaced w1 w2 => lits w1 ++ Star Space :: lits w2
  end.

Fixpoint take_lits (p : regex) : pystr * regex :=
  match p with
  | One (Chr c) :: p' => let '(w, r) := take_lits p' in (c :: w, r)
  | _ => ([], p)
  end.

Definition classify (p : regex) : option shape :=
  match take_lits p with
  | (w, []) => Some (Plain w)
  | (w, [WordB]) => Some (Bounded w)
  | (w1, Star Space :: r) =>
      match take_lits r with
      | (w2, []) => Some (Spaced w1 w2)
      | _ => None
      end
  | _ => None
  end.

Definition head_not_space (w : pystr) : bool :=
  match w with c :: _ => negb (is_space c) | [] => false end.

Definition nonempty (w : pystr) : bool :=
  match w with [] => false | _ => true end.

(** The side conditions under which the closed form holds. *)
Definition shape_wf (sh : shape) : bool :=
  match sh with
  | Plain w => nonempty w
  | Bounded w => nonempty w
  | Spaced w1 w2 => nonempty w1 && head_not_space w2
  end.

Fixpoint strip_prefix (w s : pystr) : option pystr :=
  match w, s with
  | [], _ => Some s
  | x :: w', c :: t => if c =? x then strip_prefix w' t else None
  | _ :: _, [] => None
  end.

Fixpoint skip_spaces (s : pystr) : pystr :=
  match s with
  | c :: t => if is_space c then skip_spaces t else s
  | [] => []
  end.

(** The character before the text that follows [w]. *)
Definition last_or (prev : option N) (w : pystr) : option N :=
  match last w with Some c => Some c | None => prev end.

Definition smatch (sh : shape) (s : pystr) : option pystr :=
  match sh with
  | Plain w => strip_prefix w s
  | Bounded w =>
      r ← strip_prefix w s;
      if at_boundary (last w) r then Some r else None
  | Spaced w1 w2 => r ← strip_prefix w1 s; strip_prefix w2 (skip_spaces r)
  end.

(** [re.sub] on a shape: the scan of [sub_scan], by its equations
    ([ssub_nil], [ssub_fire], [ssub_copy] below). *)
Definition ssub (sh : shape) (repl : pystr) (s : pystr) : pystr :=
  sub_scan (shape_regex sh) repl None 0 s.

(** A rule of the script, compiled: its shape and its replacement. *)
Definition compile_rule (r : string * string) : option (shape * pystr) :=
  p ← re_compile r.1; sh ← classify p; Some (sh, py r.2).

Definition crules : list (shape * pystr) :=
  Eval vm_compute in omap compile_rule rules.

(** The transform as a run of the compiled rules ([fix_run] below). *)
Definition run (rs : list (shape * pystr)) (content : pystr) : pystr :=
  fold_left (fun c r => ssub r.1 r.2 c) rs content.

(** ** Where a pattern matches *)

Definition fires (sh : shape) (s : pystr) : bool :=
  match smatch sh s with Some _ => true | None => false end.

(** [quiet sh s]: the pattern matches at no position of [s]. *)
Fixpoint quiet (sh : shape) (s : pystr) : bool :=
  match s with
  | [] => true
  | _ :: t => negb (fires sh s) && quiet sh t
  end.

(** ** Overlaps of a pattern with a replacement

    These checks are evaluated on the rules of the script.  They say that a
    replacement, once written, cannot become part of a later match. *)

Fixpoint prefix_b (a b : pystr) : bool :=
  match a, b with
  | [], _ => true
  | x :: a', y :: b' => (x =? y) && prefix_b a' b'
  | _ :: _, [] => false
  end.

Definition comparable (a b : pystr) : bool := prefix_b a b || prefix_b b a.

(** The non-empty suffixes of [w] that start at offset [i] or later. *)
Definition tails_from (i : nat) (w : pystr) : list pystr :=
  map (fun k => drop k w) (seq i (length w - i)).

Definition clash_free (w : pystr) (i : nat) (repl : pystr) : bool :=
  forallb (fun a => negb (comparable a repl)) (tails_from i w).

Definition first_lit (sh : shape) : pystr :=
  match sh with
  | Plain w | Bounded w => w
  | Spaced w1 _ => w1
  end.

Definition is_bounded (sh : shape) : bool :=
  match sh with Bounded _ => true | _ => false end.

(** No match of [sh] starts before a copy of [repl] and runs into it. *)
Definition run_in_ok (sh : shape) (repl : pystr) : bool :=
  match sh with
  | Plain w | Bounded w => clash_free w 1 repl
  | Spaced w1 w2 =>
      clash_free w1 1 repl && head_not_space repl && clash_free w2 0 repl
  end.

(** No match of [shj] starts inside a copy of [repl] written by the rule of
    shape [shk]: the literal of [shj] does not fit in what is left of [repl],
    and where it could run past its end, the character it needs there is a
    word character while the rule [shk] ended at a word boundary. *)
Definition start_in_ok (shj shk : shape) (repl : pystr) : bool :=
  forallb
    (fun b =>
       negb (prefix_b (first_lit shj) b)
       && (if prefix_b b (first_lit shj)
           then is_bounded shk && word_here (drop (length b) (first_lit shj))
           else true))
    (tails_from 0 repl).

Definition head_eq (a b : pystr) : bool :=
  match a, b with
  | x :: _, y :: _ => x =? y
  | _, _ => false
  end.

(** A rule is in order when the closed form applies, the replacement starts
    with the character every match starts with, and a [\b] stands after a
    word character. *)
Definition rule_ok (r : shape * pystr) : bool :=
  shape_wf r.1 && head_eq r.2 (first_lit r.1)
  && match r.1 with Bounded w => word_before (last w) | _ => true end.

Definition pair_ok (shj : shape) (rk : shape * pystr) : bool :=
  run_in_ok shj rk.2 && start_in_ok shj rk.1 rk.2.

(** Each rule is in order, and its replacement cannot complete a match of
    its own pattern or of a pattern applied before it. *)
Fixpoint sequence_ok (done : list shape) (todo : list (shape * pystr)) : bool :=
  match todo with
  | [] => true
  | rk :: todo' =>
      rule_ok rk && forallb (fun shj => pair_ok shj rk) (rk.1 :: done)
      && sequence_ok (rk.1 :: done) todo'
  end.

(** ** Occurrences of the old identifier and their context *)

Definition Expression : pystr := py "Expression".
Definition Expr : pystr := py "Expr".

(** [occurs w s]: the text [w] is a substring of [s]. *)
Fixpoint occurs (w s : pystr) : bool :=
  match s with
  | [] => prefix_b w []
  | _ :: t => prefix_b w s || occurs w t
  end.

(** The text before and after the first occurrence of [w] in [s]. *)
Fixpoint split_at (w s : pystr) : option (pystr * pystr) :=
  match s with
  | [] => None
  | c :: t =>
      match strip_prefix w s with
      | Some r => Some ([], r)
      | None => (fun xy => (c :: xy.1, xy.2)) <$> split_at w t
      end
  end.

Definition suffix_b (x s : pystr) : bool := prefix_b (rev x) (rev s).

(** What a pattern asks around the occurrence of [Expression] it renames:
    the text [before] it (followed by a run of white space when [gap] is
    set), the text [after] it, and a word boundary after that text when
    [at_end] is set. *)
Record context := Context {
  before : pystr;
  gap : bool;
  after : pystr;
  at_end : bool
}.

Definition context_of (sh : shape) : option context :=
  match sh with
  | Plain w => xy ← split_at Expression w; Some (Context xy.1 false xy.2 false)
  | Bounded w => xy ← split_at Expression w; Some (Context xy.1 false xy.2 true)
  | Spaced w1 w2 =>
      match split_at Expression w1 with
      | Some xy => Some (Context xy.1 false xy.2 false)
      | None => y ← strip_prefix Expression w2; Some (Context w1 true y false)
      end
  end.

(** The context holds at the occurrence between [pre] and [post]. *)
Definition ctx_holds (c : context) (pre post : pystr) : bool :=
  (if gap c then prefix_b (rev (before c)) (skip_spaces (rev pre))
   else suffix_b (before c) pre)
  && prefix_b (after c) post
  && (if at_end c then negb (word_here (drop (length (after c)) post)) else true).

Definition rule_holds (r : shape * pystr) (pre post : pystr) : bool :=
  match context_of r.1 with
  | Some c => ctx_holds c pre post
  | None => false
  end.

(** Some rule of the script asks for a context that holds between [pre] and
    [post]. *)
Definition triggers (pre post : pystr) : bool :=
  existsb (fun r => rule_holds r pre post) crules.

(** The context of a rule is read off its pattern. *)
Definition rule_ctx_ok (r : shape * pystr) : bool :=
  rule_ok r
  && match context_of r.1 with
     | Some c => if gap c then head_not_space (rev (before c)) else true
     | None => false
     end.

(** *** Kinds of context *)

(** The fifteen variant names of the third group of rules. *)
Definition variants : list pystr :=
  map py [ "Literal"; "Variable"; "Property"; "Binary"; "Unary"; "Function";
           "Aggregate"; "List"; "Map"; "Case"; "TypeCast"; "Subscript";
           "Range"; "Path"; "Label" ]%string.

Definition qualified (v : pystr) : pystr := py "::" ++ v.

(** The text [post] after an occurrence starts with [::V] for one of the
    fifteen names [V], and the name ends there. *)
Definition variant_follows (post : pystr) : bool :=
  existsb (fun v => prefix_b (qualified v) post
                    && negb (word_here (drop (length (qualified v)) post)))
          variants.

Definition import_paths : list pystr :=
  map py [ "use crate::expression::"; "use crate::core::types::expression::" ]%string.

(** The text [pre] before an occurrence ends with [&] or with one of the two
    import paths. *)
Definition borrow_or_import (pre : pystr) : bool :=
  existsb (fun x => suffix_b x pre) (py "&" :: import_paths).

Fixpoint list_eqb (a b : pystr) : bool :=
  match a, b with
  | [], [] => true
  | x :: a', y :: b' => (x =? y) && list_eqb a' b'
  | _, _ => false
  end.

(** After the occurrence the context asks for a character that is not a
    word character, or for a word boundary. *)
Definition after_nonword (c : context) : bool :=
  match after c with
  | x :: _ => negb (is_word x)
  | [] => at_end c
  end.

(** Before the occurrence the context asks for a character that is not a
    word character. *)
Definition left_guard (c : context) : bool :=
  match last (before c) with
  | Some x => negb (is_word x)
  | None => false
  end.

(** The context of a variant rule: nothing before, [::V] and a boundary
    after. *)
Definition variant_ctx (c : context) : bool :=
  negb (nonempty (before c)) && negb (gap c) && at_end c
  && existsb (fun v => list_eqb (after c) (qualified v)) variants.

Definition borrow_or_import_ctx (c : context) : bool :=
  negb (gap c) && existsb (list_eqb (before c)) (py "&" :: import_paths).

Definition unqualified_ctx (c : context) : bool :=
  match after c with
  | x :: _ => negb (x =? 58)
  | [] => false
  end.

Definition on_context (f : context → bool) (r : shape * pystr) : bool :=
  match context_of r.1 with Some c => f c | None => false end.

(** *** Checks at every occurrence *)

Fixpoint every_occ_from (P : pystr → pystr → bool) (rpre s : pystr) : bool :=
  match s with
  | [] => true
  | c :: t =>
      match strip_prefix Expression s with
      | Some post => P (rev rpre) post
      | None => true
      end
      && every_occ_from P (c :: rpre) t
  end.

(** [every_occurrence P s]: [P pre post] holds wherever
    [s = pre ++ Expression ++ post]. *)
Definition every_occurrence (P : pystr → pystr → bool) (s : pystr) : bool :=
  every_occ_from P [] s.

(** The occurrence is the start of a longer identifier, or the end of one
    that is not followed by [::] and one of the fifteen variant names. *)
Definition longer_identifier (pre post : pystr) : bool :=
  word_here post || (word_before (last pre) && negb (variant_follows post)).

(** The occurrence is qualified, [Expression::X], the name [X] is not one of
    the fifteen, and neither [&] nor an import path stands before it. *)
Definition other_qualified (pre post : pystr) : bool :=
  prefix_b (py "::") post && negb (variant_follows post)
  && negb (borrow_or_import pre).

(** The code points from [r.1] to [r.2]. *)
Definition N_range (r : N * N) : list N :=
  map (fun k => r.1 + N.of_nat k) (seq 0 (N.to_nat (r.2 + 1 - r.1))).

(** The occurrence is part of a longer identifier: a word character stands
    right after it or right before it. *)
Definition part_of_identifier (pre post : pystr) : bool :=
  word_here post || word_before (last pre).

(** The occurrence is qualified with a name outside the fifteen. *)
Definition other_name (pre post : pystr) : bool :=
  prefix_b (py "::") post && negb (variant_follows post).

(** The fifteen variant rules: the fourth to the eighteenth rule of the
    script. *)
Definition variant_rules : list (shape * pystr) := take 15 (drop 3 crules).

(** * The file walker *)

(** ** Files, console and exceptions *)

(** The classes of the exceptions that opening, reading and writing a file
    raise, the one that [print] raises when standard output cannot encode
    its text, and [KeyboardInterrupt], which is not an [Exception]. *)
Inductive exn :=
  | FileNotFoundError
  | IsADirectoryError
  | PermissionError
  | UnicodeDecodeError
  | UnicodeEncodeError
  | KeyboardInterrupt.

(** [isinstance(e, Exception)] *)
Definition is_Exception (e : exn) : bool :=
  match e with KeyboardInterrupt => false | _ => true end.

(** A regular file: the text that [read()] returns in text mode with the
    encoding utf-8 ([None] when its bytes do not decode), and whether it may
    be opened for reading and for writing. *)
Record file := File {
  text : option pystr;
  readable : bool;
  writable : bool
}.

Inductive node :=
  | Dir
  | Reg (f : file).

(** The lines the script prints. *)
Inductive status :=
  | Skipped                 (* the file does not exist *)
  | Fixed                   (* the file was rewritten *)
  | NoChange                (* nothing to change *)
  | Failed (e : exn).       (* an exception was caught *)

Inductive line :=
  | Rule                    (* sixty equals signs *)
  | Title
  | Status (st : status) (path : string)
  | Summary (fixed_count : nat).

(** The state of the run: the file system, the lines on the console, the
    paths opened for writing so far, and the lines that standard output can
    encode ([sys.stdout] with its encoding). *)
Record world := World {
  fs : gmap string node;
  console : list line;
  written : list string;
  stdout : line → bool
}.

(** ** Computations that change the world and may raise *)

Inductive result (A : Type) :=
  | Ok (a : A)
  | Raised (e : exn).
Arguments Ok {A} a.
Arguments Raised {A} e.

Definition M (A : Type) : Type := world → result A * world.

Definition ret {A} (a : A) : M A := fun w => (Ok a, w).

Definition raise {A} (e : exn) : M A := fun w => (Raised e, w).

Definition bind {A B} (m : M A) (k : A → M B) : M B :=
  fun w =>
    match m w with
    | (Ok a, w') => k a w'
    | (Raised e, w') => (Raised e, w')
    end.

#[global] Instance M_ret : MRet M := @ret.
#[global] Instance M_bind : MBind M := fun A B k m => bind m k.

(** [try: body except Exception as e: handler e] *)
Definition try_except {A} (body : M A) (handler : exn → M A) : M A :=
  fun w =>
    match body w with
    | (Raised e, w') => if is_Exception e then handler e w' else (Raised e, w')
    | r => r
    end.

(** The world after a line is printed. *)
Definition logged (w : world) (l : line) : world :=
  World (fs w) (console w ++ [l]) (written w) (stdout w).

(** [print(...)]: the line goes to the console when standard output can
    encode it; otherwise [print] raises and nothing is printed. *)
Definition print (l : line) : M unit :=
  fun w => if stdout w l then (Ok tt, logged w l)
           else (Raised UnicodeEncodeError, w).

(** Standard output takes every line of the script. *)
Definition accepts_all (w : world) : Prop := ∀ l, stdout w l = true.

(** [os.path.exists] *)
Definition os_path_exists (path : string) : M bool :=
  fun w => (Ok (bool_decide (is_Some (fs w !! path))), w).

(** [with open(path, 'r', encoding='utf-8') as f: f.read()] *)
Definition read_text (path : string) : M pystr :=
  fun w =>
    match fs w !! path with
    | None => (Raised FileNotFoundError, w)
    | Some Dir => (Raised IsADirectoryError, w)
    | Some (Reg f) =>
        if readable f then
          match text f with
          | Some t => (Ok t, w)
          | None => (Raised UnicodeDecodeError, w)
          end
        else (Raised PermissionError, w)
    end.

(** [with open(path, 'w', encoding='utf-8') as f: f.write(content)] *)
Definition write_text (path : string) (content : pystr) : M unit :=
  fun w =>
    match fs w !! path with
    | Some Dir => (Raised IsADirectoryError, w)
    | Some (Reg f) =>
        if writable f then
          (Ok tt,
           World (<[path := Reg (File (Some content) (readable f) true)]> (fs w))
                 (console w) (written w ++ [path]) (stdout w))
        else (Raised PermissionError, w)
    | None =>
        (Ok tt,
         World (<[path := Reg (File (Some content) true true)]> (fs w))
               (console w) (written w ++ [path]) (stdout w))
    end.

(** ** [process_file] *)

Definition process_file (file_path : string) : M bool :=
  found ← os_path_exists file_path;
  if negb found then
    print (Status Skipped file_path);; ret false
  else
    try_except
      (original_content ← read_text file_path;
       let new_content := fix_expression_references original_content in
       if bool_decide (original_content ≠ new_content) then
         write_text file_path new_content;;
         print (Status Fixed file_path);;
         ret true
       else
         print (Status NoChange file_path);; ret false)
      (fun e => print (Status (Failed e) file_path);; ret false).

(** ** [main] *)

Definition FILES_TO_FIX : list string :=
  [ "src/query/visitor/variable_visitor.rs";
    "src/query/visitor/find_visitor.rs";
    "src/query/visitor/extract_filter_expr_visitor.rs";
    "src/query/visitor/evaluable_expr_visitor.rs";
    "src/query/visitor/deduce_props_visitor.rs";
    "src/query/visitor/deduce_type_visitor.rs";
    "src/query/visitor/extract_prop_expr_visitor.rs";
    "src/query/visitor/extract_group_suite_visitor.rs";
    "src/query/visitor/rewrite_visitor.rs";
    "src/query/visitor/fold_constant_expr_visitor.rs";
    "src/query/visitor/deduce_alias_type_visitor.rs";
    "src/query/visitor/validate_pattern_expression_visitor.rs";
    "src/query/visitor/vid_extract_visitor.rs";
    "src/query/visitor/property_tracker_visitor.rs";
    "src/query/optimizer/prune_properties_visitor.rs";
    "src/expression/visitor.rs";
    "src/expression/evaluator/expression_evaluator.rs" ]%string.

(** Where the script runs: the directory of the script and the separator of
    the platform ([os.sep]). *)
Record env := Env {
  base_path : string;
  sep : ascii
}.

Definition ends_with (c : ascii) (s : string) : bool :=
  match last (list_ascii_of_string s) with
  | Some x => Ascii.eqb x c
  | None => false
  end.

(** [os.path.join base_path relative_path], for a relative path. *)
Definition os_path_join (e : env) (relative_path : string) : string :=
  if ends_with (sep e) (base_path e) then (base_path e ++ relative_path)%string
  else (base_path e ++ String (sep e) relative_path)%string.

(** [path.replace('/', os.sep).replace('\\', os.sep)] *)
Definition use_separator (e : env) (path : string) : string :=
  string_of_list_ascii
    (map (fun c => if Ascii.eqb c "/" || Ascii.eqb c "\" then sep e else c)
         (list_ascii_of_string path)).

Definition resolve (e : env) (relative_path : string) : string :=
  use_separator e (os_path_join e relative_path).

(** The loop of [main] over the files, with the count of files fixed so far. *)
Fixpoint for_files (e : env) (files : list string) (fixed_count : nat) : M nat :=
  match files with
  | [] => ret fixed_count
  | relative_path :: rest =>
      let file_path := resolve e relative_path in
      changed ← process_file file_path;
      for_files e rest (if (changed : bool) then fixed_count + 1 else fixed_count)%nat
  end.

Definition main (e : env) : M unit :=
  print Rule;; print Title;; print Rule;;
  fixed_count ← for_files e FILES_TO_FIX 0%nat;
  print Rule;; print (Summary fixed_count);; print Rule.

(** The exit code of the interpreter: 0 when [main] returns, 1 when an
    exception escapes. *)
Definition exit_code {A} (r : result A * world) : nat :=
  match r with
  | (Ok _, _) => 0%nat
  | (Raised _, _) => 1%nat
  end.

(** The status lines among the lines printed. *)
Definition statuses (ls : list line) : list (status * string) :=
  omap (fun l => match l with Status st p => Some (st, p) | _ => None end) ls.

Definition is_Fixed (sp : status * string) : bool :=
  match sp.1 with Fixed => true | _ => false end.

(** The values that [process_file] returns on the files in turn, and the
    world after the last of them. *)
Fixpoint walk (e : env) (files : list string) (w : world) : list bool * world :=
  match files with
  | [] => ([], w)
  | relative_path :: rest =>
      match process_file (resolve e relative_path) w with
      | (Ok b, w') => let '(bs, w'') := walk e rest w' in (b :: bs, w'')
      | (Raised _, w') => ([], w')
      end
  end.

Definition count_true (bs : list bool) : nat :=
  length (filter (fun b => b = true) bs).

Definition status_line (sp : status * string) : line := Status sp.1 sp.2.

(** The world after the three lines of the banner. *)
Definition after_banner (w : world) : world :=
  logged (logged (logged w Rule) Title) Rule.

(** ** The scenarios of the specification *)

Definition newline : pystr := [10].

(** The file of the first end-to-end scenario. *)
Definition scenario_input : pystr :=
  py "use pkg::expression::Expression;" ++ newline
  ++ py "fn f(x: &Expression) -> Expression { Expression::Literal(x) }".

(** What the specification expects of it. *)
Definition scenario_expected : pystr :=
  py "use pkg::expression::Expr;" ++ newline
  ++ py "fn f(x: &Expr) -> Expr { Expr::Literal(x) }".

(** What the transform makes of it. *)
Definition scenario_output : pystr :=
  py "use pkg::expression::Expression;" ++ newline
  ++ py "fn f(x: &Expr) -> Expression { Expr::Literal(x) }".

(** The same file with the import path that the first rule names. *)
Definition scenario_input_crate : pystr :=
  py "use crate::expression::Expression;" ++ newline
  ++ py "fn f(x: &Expression) -> Expression { Expression::Literal(x) }".

Definition scenario_expected_crate : pystr :=
  py "use crate::expression::Expr;" ++ newline
  ++ py "fn f(x: &Expr) -> Expr { Expr::Literal(x) }".

Definition scenario_output_crate : pystr :=
  py "use crate::expression::Expr;" ++ newline
  ++ py "fn f(x: &Expr) -> Expression { Expr::Literal(x) }".

(** The text of the second end-to-end scenario. *)
Definition containers_input : pystr :=
  py "fn g(a: Vec<Expression>, b: Box<Expression>, c: Option<Box<Expression>>, d: (Expression, Expression)) {}".

Definition containers_output : pystr :=
  py "fn g(a: Vec<Expr>, b: Box<Expr>, c: Option<Box<Expr>>, d: (Expr, Expr)) {}".

(** A small project directory used to run the walker on concrete files: a
    file that needs the rename, one that has had it, a read-only file, a
    file whose bytes are not valid UTF-8, and a directory in the place of a
    file. *)
Definition demo_env : env := Env "/repo" "/".

Definition demo_fs : gmap string node :=
  {[ "/repo/src/expression/visitor.rs" :=
       Reg (File (Some scenario_input) true true);
     "/repo/src/query/visitor/find_visitor.rs" :=
       Reg (File (Some scenario_output) true true);
     "/repo/src/query/visitor/rewrite_visitor.rs" :=
       Reg (File (Some containers_input) true false);
     "/repo/src/query/visitor/variable_visitor.rs" :=
       Reg (File None true true);
     "/repo/src/query/visitor/vid_extract_visitor.rs" := Dir ]}%string.

(** A standard output that encodes every line (UTF-8). *)
Definition utf8_stdout : line → bool := fun _ => true.

(** A standard output with the encoding ASCII: it takes the rule of equals
    signs and none of the other lines, which all hold Chinese text. *)
Definition ascii_stdout : line → bool :=
  fun l => match l with Rule => true | _ => false end.

Definition demo_world : world := World demo_fs [] [] utf8_stdout.

(** The same directory, seen from a terminal with the encoding ASCII. *)
Definition ascii_world : world := World demo_fs [] [] ascii_stdout.

(** ** A single instance *)

(** The rules before the tuple rules: the two import rules, the borrow rule,
    the fifteen variant rules and the three container rules. *)
Definition first_rules : list (shape * pystr) := take 21 crules.
Definition last_rules : list (shape * pystr) := drop 21 crules.

(** The replacement of the rule is the text of its pattern with [Expr] in
    the place of [Expression]. *)
Definition simple_rule (r : shape * pystr) : bool :=
  match r.1 with
  | Plain w | Bounded w =>
      match split_at Expression w with
      | Some xy => list_eqb r.2 (xy.1 ++ Expr ++ xy.2)
      | None => false
      end
  | Spaced _ _ => false
  end.

(** The occurrence at hand is the one after [P]. *)
Definition only_at (P : pystr) (pre post : pystr) : bool := list_eqb pre P.

(** The pair pattern with a run of white space [sp] after the comma. *)
Definition pair_of (sp : pystr) : pystr :=
  py "(Expression," ++ sp ++ py "Expression)".

(** No suffix of [a] is the start of a match of a pattern with the literal
    [w], whatever follows [a]. *)
Definition no_start_in (w a : pystr) : bool :=
  forallb (fun b => negb (comparable w b)) (tails_from 0 a).

Definition lit_of (sh : shape) : option pystr :=
  match sh with
  | Plain w | Bounded w => Some w
  | Spaced _ _ => None
  end.

(** The pattern [sh] matches nowhere in [a ++ sp ++ b], for any run of white
    space [sp]. *)
Definition gap_quiet (a b : pystr) (sh : shape) : bool :=
  match lit_of sh with
  | Some w => head_not_space w && no_start_in w a && quiet sh b
  | None => false
  end.

(** The slice-of-pairs pattern with a run of white space [sp] after the
    comma. *)
Definition slice_of (sp : pystr) : pystr :=
  py "&[(Expression," ++ sp ++ py "Expression)]".

(** The text with every [Expression] replaced by [Expr] and nothing else
    changed. *)
Definition rename_only (s : pystr) : pystr := ssub (Plain Expression) Expr s.

(** ** A block of text in its place *)

(** The pattern [sh] cannot reach into the block [b]: no match starts before
    the block and runs into it, and none starts inside it. *)
Definition inert (b : pystr) (sh : shape) : bool :=
  run_in_ok sh b && no_start_in (first_lit sh) b.

(** No match of a pattern with the literal [w] starts at one of the first
    [n] positions of [b]. *)
Definition no_start_at_first (n : nat) (w b : pystr) : bool :=
  forallb (fun d => negb (comparable w (drop d b))) (seq 0 n).

(** The rule [sh] rewrites the part [m] of the block [x ++ m ++ y] and
    nothing else of it. *)
Definition rewrites_in (sh : shape) (x m y : pystr) : bool :=
  run_in_ok sh (x ++ m ++ y)
  && no_start_at_first (length x) (first_lit sh) (x ++ m ++ y)
  && no_start_in (first_lit sh) y.

(** ** An occurrence in its place

    The checks below are about a block that a rule can reach only from
    certain texts before it (the guards): for the block [Expression::] the
    guards are [&] and the two import paths. *)

Definition guards : list pystr := py "&" :: import_paths.

(** [Expression::] *)
Definition qualifier : pystr := Expression ++ py "::".

(** A match of [sh] that starts before the block [b] and runs into it starts
    with a text that ends with a guard. *)
Definition reach_guarded (gs : list pystr) (b : pystr) (sh : shape) : bool :=
  match sh with
  | Plain w | Bounded w =>
      forallb
        (fun i => negb (comparable (drop i w) b)
                  || existsb (fun g => suffix_b g (take i w)) gs)
        (seq 1 (length w - 1))
  | Spaced _ _ => run_in_ok sh b
  end.

(** No match of [sh] starts inside the block [b], after its first
    character. *)
Definition block_closed (b : pystr) (sh : shape) : bool :=
  forallb (fun d => negb (comparable (first_lit sh) (drop d b)))
          (seq 1 (length b - 1)).

(** The replacement [repl] does not stand inside the guard [g], and [g]
    does not start inside [repl]. *)
Definition guard_safe (repl g : pystr) : bool :=
  forallb (fun s => negb (prefix_b repl s)) (tails_from 0 g)
  && forallb (fun r2 => negb (prefix_b r2 g)) (tails_from 0 repl).

Definition is_variant_shape (sh : shape) : bool :=
  match sh with
  | Bounded w => existsb (fun v => list_eqb w (Expression ++ qualified v)) variants
  | _ => false
  end.

(** What the rule [r] needs for an occurrence [Expression::] to stay in its
    place. *)
Definition qualifier_ok (r : shape * pystr) : bool :=
  rule_ok r
  && reach_guarded guards qualifier r.1
  && block_closed qualifier r.1
  && forallb (guard_safe r.2) guards
  && (negb (comparable (first_lit r.1) qualifier) || is_variant_shape r.1)
  && forallb (fun v => pair_ok (Bounded (Expression ++ qualified v)) r) variants.

(** No guard of [gs] stands at the end of [u]. *)
Definition unguarded (gs : list pystr) (u : pystr) : Prop :=
  existsb (fun g => suffix_b g u) gs = false.

(** What a scan makes of the text before a block: a guard [g] at the end of
    the output [u'] was at the end of the input [u]. *)
Definition kept (g u u' : pystr) : Prop :=
  (forall s k, g = k ++ s -> u' = s -> u = s)
  /\ (suffix_b g u' = true -> suffix_b g u = true).

(** * Sizes, separators and outcomes *)

(** ** Sizes *)

(** The least number of characters that a match of [sh] consumes. *)
Definition min_length (sh : shape) : nat :=
  match sh with
  | Plain w | Bounded w => length w
  | Spaced w1 w2 => length w1 + length w2
  end.

(** The replacement of the rule is shorter than any match of its pattern. *)
Definition shrinks (r : shape * pystr) : bool :=
  shape_wf r.1 && (length r.2 <? min_length r.1)%nat.

(** The number of times the character [c] occurs in [s]. *)
Definition count (c : N) (s : pystr) : nat :=
  length (filter (fun x => x = c) s).

(** The character [c] occurs in the text [s]. *)
Definition has_char (c : N) (s : pystr) : bool := existsb (N.eqb c) s.

(** The character [c] occurs in none of the replacement texts of the
    script. *)
Definition in_no_replacement (c : N) : bool :=
  forallb (fun r : string * string => negb (has_char c (py r.2))) rules.

(** ** References at a word boundary *)

(** The texts that the first eighteen rules rename when a word boundary
    follows: the two imports, the borrow, and the fifteen qualified
    variants. *)
Definition renamed_references : list pystr :=
  map (fun p => p ++ Expression) import_paths
  ++ [py "&" ++ Expression]
  ++ map (fun v => Expression ++ qualified v) variants.

(** ** Separators *)

(** The literal text of a pattern. *)
Definition shape_text (sh : shape) : pystr :=
  match sh with
  | Plain w | Bounded w => w
  | Spaced w1 w2 => w1 ++ w2
  end.

(** The character [c] is neither a word character nor white space, and it
    occurs in none of the patterns of the script. *)
Definition separator (c : N) : bool :=
  negb (is_word c) && negb (is_space c)
  && forallb (fun r : string * string => negb (has_char c (py r.1))) rules.

(** The literal text of a compiled pattern is made of characters of the
    pattern. *)
Definition text_of_pattern (r : string * string) : bool :=
  match compile_rule r with
  | Some (sh, _) => forallb (fun x => has_char x (py r.1)) (shape_text sh)
  | None => true
  end.

(** ** The walker, case by case *)

(** The status line of [process_file], read off what is at the path. *)
Definition outcome (n : option node) : status :=
  match n with
  | None => Skipped
  | Some Dir => Failed IsADirectoryError
  | Some (Reg f) =>
      if readable f then
        match text f with
        | Some t =>
            if bool_decide (t ≠ fix_expression_references t) then
              if writable f then Fixed else Failed PermissionError
            else NoChange
        | None => Failed UnicodeDecodeError
        end
      else Failed PermissionError
  end.

(** A world in which none of the files of the list is there. *)
Definition none_present (e : env) (w : world) : bool :=
  forallb (fun p => negb (bool_decide (is_Some (fs w !! resolve e p)))) FILES_TO_FIX.

(** ** Replacing a character *)

(** [s.replace(old, new)] for one-character [old] and [new]. *)
Definition str_replace (old new : ascii) (s : string) : string :=
  string_of_list_ascii
    (map (fun c => if Ascii.eqb c old then new else c) (list_ascii_of_string s)).

(** The character is [/] or [\]. *)
Definition is_slash (c : ascii) : bool := Ascii.eqb c "/" || Ascii.eqb c "\".

(** ** Renaming only *)

(** A rule that does nothing but put [Expr] for an [Expression]: its
    replacement is its literal text with [Expr] for [Expression]; the texts
    around [Expression] in the literal hold no [E]; the text after it does
    not start with [e], or is empty before a word boundary; and no match
    starts with a character of [xpression]. *)
Definition renames_only (r : shape * pystr) : bool :=
  rule_ok r && simple_rule r
  && match lit_of r.1 with
     | Some w =>
         match split_at Expression w with
         | Some xy =>
             negb (has_char 69 xy.1) && negb (has_char 69 xy.2)
             && match xy.2 with
                | c :: _ => negb (c =? 101)
                | [] => is_bounded r.1
                end
         | None => false
         end
         && no_start_in w (py "xpression")
         && match head r.2 with
            | Some h => negb (has_char h (py "xpression"))
            | None => false
            end
     | None => false
     end.

(** The rule keeps quiet the patterns of the three rules for pairs and
    slices. *)
Definition keeps_last_quiet (r : shape * pystr) : bool :=
  rule_ok r && forallb (fun shj => pair_ok shj r) (map fst last_rules).

(** ** A reference renamed where it stands *)

(** The rule [r] leaves the block [b] alone when a word boundary follows the
    block: a match that starts before [b] and runs into it starts with a
    text that ends with a guard of [gs], no match starts inside [b], and the
    replacement of [r] makes no guard. *)
Definition idle_ok (gs : list pystr) (b : pystr) (r : shape * pystr) : bool :=
  rule_ok r && reach_guarded gs b r.1 && start_in_ok r.1 (Bounded b) b
  && forallb (guard_safe r.2) gs && nonempty b.

(** The texts before a reference [w] that bring it in reach of an earlier
    rule: [&] and the import paths, when [w] starts with [Expression]. *)
Definition guards_of (w : pystr) : list pystr :=
  if prefix_b Expression w then guards else [].

(** What the rule at index [k] needs to rename its reference where it
    stands: the rules before it leave the reference alone, the rules after
    it leave the renamed reference alone. *)
Definition renamed_ok (k : nat) : bool :=
  match crules !! k with
  | Some (Bounded b, repl) =>
      forallb (idle_ok (guards_of b) b) (take k crules)
      && reach_guarded (guards_of b) b (Bounded b)
      && forallb (guard_safe repl) (guards_of b)
      && forallb (idle_ok [] repl) (drop (S k) crules)
      && list_eqb repl (rename_only b)
  | _ => false
  end.

(** No rule starts a match in [::V] before a word boundary. *)
Definition qualified_idle (v : pystr) : bool :=
  forallb (fun r : shape * pystr =>
             rule_ok r && start_in_ok r.1 (Bounded (qualified v)) (qualified v))
          crules.


(** * Properties of the matcher *)

Section Matcher.

Implicit Types (w s t r : pystr) (p : regex) (prev : option N).

Lemma strip_prefix_Some w s r : strip_prefix w s = Some r ↔ s = w ++ r.
Proof.
  revert s; induction w as [|x w IH]; intros s; simpl.
  - split; [intros [= ->]; reflexivity | intros ->; reflexivity].
  - destruct s as [|c t]; [split; discriminate|].
    destruct (N.eqb_spec c x) as [->|Hne].
    + rewrite IH. split; [intros ->; reflexivity | intros [= ->]; reflexivity].
    + split; [discriminate | intros [= ? ?]; contradiction].
Qed.

Lemma strip_prefix_app w r : strip_prefix w (w ++ r) = Some r.
Proof. apply strip_prefix_Some; reflexivity. Qed.

Lemma strip_prefix_None w s : strip_prefix w s = None ↔ ∀ r, s ≠ w ++ r.
Proof.
  split.
  - intros H r Hs. apply strip_prefix_Some in Hs. congruence.
  - intros H. destruct (strip_prefix w s) as [r|] eqn:E; [|reflexivity].
    apply strip_prefix_Some in E. destruct (H r E).
Qed.

Lemma last_or_cons prev c w : last_or (Some c) w = last_or prev (c :: w).
Proof.
  unfold last_or. rewrite last_cons. destruct (last w); reflexivity.
Qed.

(** A run of literals matches exactly its own text. *)
Lemma match_here_lits w p prev s :
  match_here (lits w ++ p) prev s =
  r ← strip_prefix w s; (Nat.add (length w)) <$> match_here p (last_or prev w) r.
Proof.
  revert prev s; induction w as [|x w IH]; intros prev s.
  - unfold last_or. simpl. destruct (match_here p prev s); reflexivity.
  - cbn [lits map app match_here strip_prefix atom_ok].
    destruct s as [|c t]; [reflexivity|].
    destruct (N.eqb_spec c x) as [->|]; [|reflexivity].
    fold (lits w). rewrite IH, (last_or_cons prev).
    destruct (strip_prefix w t) as [r|]; [|reflexivity]. simpl.
    destruct (match_here p _ r); reflexivity.
Qed.

Lemma match_here_star a p prev s :
  match_here (Star a :: p) prev s =
  match s with
  | c :: t =>
      if atom_ok a c then
        match match_here (Star a :: p) (Some c) t with
        | Some n => Some (S n)
        | None => match_here p prev s
        end
      else match_here p prev s
  | [] => match_here p prev s
  end.
Proof. destruct s; reflexivity. Qed.

(** A pattern with an atom outside a star does not match the empty text. *)
Lemma match_here_nonempty p : ∀ prev s,
  existsb is_one p = true → match_here p prev s ≠ Some 0%nat.
Proof.
  induction p as [|i p IH]; intros prev s Hp; [discriminate|].
  destruct i as [a|a|].
  - simpl. destruct s as [|c t]; [discriminate|].
    destruct (atom_ok a c); [|discriminate].
    destruct (match_here p (Some c) t); discriminate.
  - simpl in Hp. revert prev. induction s as [|c t IHs]; intros prev.
    + rewrite match_here_star. auto.
    + rewrite match_here_star. destruct (atom_ok a c); [|auto].
      destruct (match_here (Star a :: p) (Some c) t); [discriminate | auto].
  - simpl in Hp |- *. destruct (at_boundary prev s); [auto | discriminate].
Qed.

Lemma skip_spaces_length s : (length (skip_spaces s) ≤ length s)%nat.
Proof.
  induction s as [|c t IH]; simpl; [lia|].
  destruct (is_space c); simpl; lia.
Qed.

Lemma strip_prefix_length w s r :
  strip_prefix w s = Some r → length s = (length w + length r)%nat.
Proof. intros ->%strip_prefix_Some. apply length_app. Qed.

(** [\s*] before a literal that does not start with white space takes the
    whole run of white space: giving characters back cannot help. *)
Lemma match_here_spaces w prev s :
  head_not_space w = true →
  match_here (Star Space :: lits w) prev s =
  (λ r, length s - length r)%nat <$> strip_prefix w (skip_spaces s).
Proof.
  intros Hw. revert prev; induction s as [|c t IH]; intros prev.
  - rewrite match_here_star. simpl skip_spaces.
    rewrite <- (app_nil_r (lits w)), match_here_lits.
    destruct (strip_prefix w []) as [r|] eqn:E; [|reflexivity]. simpl.
    apply strip_prefix_length in E. simpl in E. f_equal. lia.
  - rewrite match_here_star. cbn [atom_ok skip_spaces].
    destruct (is_space c) eqn:Hc.
    + rewrite IH. destruct (strip_prefix w (skip_spaces t)) as [r|] eqn:E; simpl.
      * f_equal. apply strip_prefix_length in E.
        pose proof (skip_spaces_length t). lia.
      * destruct w as [|x w]; [discriminate|].
        cbn [lits map match_here atom_ok].
        destruct (N.eqb_spec c x) as [->|]; [|reflexivity].
        simpl in Hw. rewrite Hc in Hw. discriminate.
    + rewrite <- (app_nil_r (lits w)), match_here_lits.
      destruct (strip_prefix w (c :: t)) as [r|] eqn:E; [|reflexivity]. simpl.
      apply strip_prefix_length in E. simpl in E. f_equal. lia.
Qed.

Lemma last_or_nonempty prev w : nonempty w = true → last_or prev w = last w.
Proof.
  unfold last_or. destruct w as [|x w]; [discriminate|]. intros _.
  rewrite last_cons. destruct (last w); reflexivity.
Qed.

(** The backtracking matcher agrees with the closed form. *)
Lemma match_here_shape sh prev s :
  shape_wf sh = true →
  match_here (shape_regex sh) prev s =
  (λ r, length s - length r)%nat <$> smatch sh s.
Proof.
  destruct sh as [w|w|w1 w2]; simpl; intros Hwf.
  - rewrite <- (app_nil_r (lits w)), match_here_lits.
    destruct (strip_prefix w s) as [r|] eqn:E; [|reflexivity]. simpl.
    apply strip_prefix_length in E. f_equal. lia.
  - rewrite match_here_lits, last_or_nonempty by assumption.
    destruct (strip_prefix w s) as [r|] eqn:E; [|reflexivity]. simpl.
    destruct (at_boundary (last w) r); [|reflexivity]. simpl.
    apply strip_prefix_length in E. f_equal. lia.
  - apply andb_true_iff in Hwf as [_ Hw2].
    rewrite match_here_lits.
    destruct (strip_prefix w1 s) as [r|] eqn:E; [|reflexivity].
    cbn [mbind option_bind]. rewrite match_here_spaces by assumption.
    destruct (strip_prefix w2 (skip_spaces r)) as [r2|] eqn:E2; [|reflexivity].
    simpl. apply strip_prefix_length in E, E2.
    pose proof (skip_spaces_length r). f_equal. lia.
Qed.

Lemma skip_spaces_suffix s : ∃ sp, s = sp ++ skip_spaces s ∧ forallb is_space sp = true.
Proof.
  induction s as [|c t (sp & Hs & Hsp)]; [exists []; split; reflexivity|].
  simpl. destruct (is_space c) eqn:Hc.
  - exists (c :: sp). simpl. rewrite Hc, Hsp. split; [congruence | reflexivity].
  - exists []. split; reflexivity.
Qed.

(** What a match consumes, for each shape. *)
Lemma smatch_Plain w s r : smatch (Plain w) s = Some r ↔ s = w ++ r.
Proof. apply strip_prefix_Some. Qed.

Lemma smatch_Bounded w s r :
  smatch (Bounded w) s = Some r ↔ s = w ++ r ∧ at_boundary (last w) r = true.
Proof.
  simpl. destruct (strip_prefix w s) as [r'|] eqn:E; simpl.
  - apply strip_prefix_Some in E. subst s.
    destruct (at_boundary (last w) r') eqn:B.
    + split; [intros [= ->]; split; [reflexivity | assumption] |].
      intros [->%app_inv_head _]; reflexivity.
    + split; [discriminate|]. intros [->%app_inv_head B']. congruence.
  - split; [discriminate|]. intros [Hs _].
    apply strip_prefix_Some in Hs. congruence.
Qed.

Lemma smatch_Spaced_inv w1 w2 s r :
  smatch (Spaced w1 w2) s = Some r →
  ∃ sp, s = w1 ++ sp ++ w2 ++ r ∧ forallb is_space sp = true.
Proof.
  simpl. destruct (strip_prefix w1 s) as [r1|] eqn:E; [|discriminate]. simpl.
  intros E2. apply strip_prefix_Some in E, E2.
  destruct (skip_spaces_suffix r1) as (sp & Hr1 & Hsp).
  exists sp. split; [|assumption]. rewrite E, Hr1, E2. reflexivity.
Qed.

Lemma skip_spaces_app sp s :
  forallb is_space sp = true → skip_spaces (sp ++ s) = skip_spaces s.
Proof.
  induction sp as [|c sp IH]; [reflexivity|]. simpl.
  intros [Hc Hsp]%andb_true_iff. rewrite Hc. auto.
Qed.

Lemma skip_spaces_head w r :
  head_not_space w = true → skip_spaces (w ++ r) = w ++ r.
Proof.
  destruct w as [|c w]; [discriminate|]. simpl.
  intros Hc%negb_true_iff. rewrite Hc. reflexivity.
Qed.

Lemma smatch_Spaced_intro w1 w2 sp r :
  head_not_space w2 = true → forallb is_space sp = true →
  smatch (Spaced w1 w2) (w1 ++ sp ++ w2 ++ r) = Some r.
Proof.
  intros Hw Hsp. simpl. rewrite strip_prefix_app. simpl.
  rewrite skip_spaces_app, skip_spaces_head by assumption.
  apply strip_prefix_app.
Qed.

(** A match consumes a non-empty prefix. *)
Lemma smatch_consumes sh s r :
  shape_wf sh = true → smatch sh s = Some r → ∃ m, s = m ++ r ∧ m ≠ [].
Proof.
  destruct sh as [w|w|w1 w2]; intros Hwf H.
  - apply smatch_Plain in H. exists w. split; [assumption|].
    destruct w; [discriminate | congruence].
  - apply smatch_Bounded in H as [H _]. exists w. split; [assumption|].
    destruct w; [discriminate | congruence].
  - apply smatch_Spaced_inv in H as (sp & H & _).
    exists (w1 ++ sp ++ w2). split; [rewrite H, <- !app_assoc; reflexivity|].
    destruct w1; [discriminate | simpl; congruence].
Qed.

End Matcher.

(** * Properties of the scan *)

Section Scan.

Variable sh : shape.
Variable repl : pystr.
Hypothesis sh_wf : shape_wf sh = true.

Lemma sub_scan_prev prev prev' k s :
  sub_scan (shape_regex sh) repl prev k s =
  sub_scan (shape_regex sh) repl prev' k s.
Proof.
  destruct s as [|c t]; [reflexivity|]. simpl.
  rewrite !match_here_shape by assumption. reflexivity.
Qed.

Lemma sub_scan_skip prev k s :
  sub_scan (shape_regex sh) repl prev k s = ssub sh repl (drop k s).
Proof.
  revert prev k; induction s as [|c t IH]; intros prev k.
  - rewrite drop_nil. reflexivity.
  - destruct k as [|k]; [apply sub_scan_prev|]. simpl. apply IH.
Qed.

Lemma ssub_nil : ssub sh repl [] = [].
Proof. reflexivity. Qed.

(** Where the pattern matches, the replacement is emitted and the scan goes
    on after the match. *)
Lemma ssub_fire s r :
  smatch sh s = Some r → ssub sh repl s = repl ++ ssub sh repl r.
Proof.
  intros H. destruct (smatch_consumes _ _ _ sh_wf H) as (m & -> & Hm).
  destruct m as [|c m]; [congruence|].
  change ((c :: m) ++ r) with (c :: (m ++ r)) in *.
  unfold ssub at 1. cbn [sub_scan].
  rewrite match_here_shape, H by assumption. cbn [fmap option_fmap option_map length].
  rewrite length_app.
  replace (S (length m + length r) - length r)%nat with (S (length m)) by lia.
  rewrite sub_scan_skip, drop_app_length. reflexivity.
Qed.

(** Elsewhere the character is copied. *)
Lemma ssub_copy c t :
  smatch sh (c :: t) = None → ssub sh repl (c :: t) = c :: ssub sh repl t.
Proof.
  intros H. unfold ssub at 1. simpl.
  rewrite match_here_shape, H by assumption. simpl.
  rewrite sub_scan_skip. reflexivity.
Qed.

End Scan.

(** * The script's rules, compiled *)

Lemma take_lits_app p w r : take_lits p = (w, r) → p = lits w ++ r.
Proof.
  revert w r; induction p as [|i p IH]; intros w r; simpl.
  - intros [= <- <-]; reflexivity.
  - destruct i as [[c|]| |]; try (intros [= <- <-]; reflexivity).
    destruct (take_lits p) as [w' r'] eqn:E. intros [= <- <-].
    simpl. f_equal. apply IH. reflexivity.
Qed.

Lemma classify_regex p sh : classify p = Some sh → shape_regex sh = p.
Proof.
  unfold classify. destruct (take_lits p) as [w r] eqn:E.
  apply take_lits_app in E. subst p.
  destruct r as [|[a|a|] r].
  - intros [= <-]. simpl. rewrite app_nil_r. reflexivity.
  - discriminate.
  - destruct a; [discriminate|].
    destruct (take_lits r) as [w2 r2] eqn:E2. apply take_lits_app in E2.
    destruct r2; [|discriminate]. intros [= <-]. subst r.
    simpl. rewrite app_nil_r. reflexivity.
  - destruct r; [|discriminate]. intros [= <-]. reflexivity.
Qed.

Lemma re_sub_compiled r sh repl s :
  compile_rule r = Some (sh, repl) → apply_rule s r = ssub sh repl s.
Proof.
  unfold compile_rule, apply_rule, re_sub, ssub.
  destruct (re_compile r.1) as [p|]; [|discriminate]. simpl.
  destruct (classify p) as [sh'|] eqn:E; [|discriminate]. simpl.
  intros [= <- <-]. apply classify_regex in E. rewrite E. reflexivity.
Qed.

Lemma fold_compiled rs s :
  Forall (λ r, is_Some (compile_rule r)) rs →
  fold_left apply_rule rs s = run (omap compile_rule rs) s.
Proof.
  intros H; revert s; induction H as [|r rs [[sh repl] Hr] _ IH]; intros s.
  - reflexivity.
  - simpl. rewrite Hr. simpl. rewrite <- IH.
    rewrite (re_sub_compiled _ _ _ _ Hr). reflexivity.
Qed.

Lemma fix_fold s : fix_expression_references s = fold_left apply_rule rules s.
Proof. reflexivity. Qed.

Lemma crules_eq : crules = omap compile_rule rules.
Proof. vm_compute. reflexivity. Qed.

(** The transform is the run of the compiled rules. *)
Lemma fix_run s : fix_expression_references s = run crules s.
Proof.
  rewrite fix_fold, crules_eq. apply fold_compiled.
  unfold rules.
  repeat (constructor; [vm_compute; eexists; reflexivity|]). constructor.
Qed.

(** * Lists: prefixes and overlaps *)

Section Overlap.

Implicit Types (a b k w s r : pystr).

Lemma prefix_b_spec a b : prefix_b a b = true ↔ ∃ k, b = a ++ k.
Proof.
  revert b; induction a as [|x a IH]; intros b; simpl.
  - split; [intros _; exists b; reflexivity | reflexivity].
  - destruct b as [|y b].
    + split; [discriminate | intros [k [=]]].
    + rewrite andb_true_iff, IH, N.eqb_eq. split.
      * intros [-> [k ->]]. exists k; reflexivity.
      * intros [k [= -> ->]]. split; [reflexivity | exists k; reflexivity].
Qed.

(** Two ways to cut one text: one cut is at or after the other. *)
Lemma app_cut a b c d :
  a ++ b = c ++ d →
  (∃ l, a = c ++ l ∧ d = l ++ b) ∨ (∃ l, l ≠ [] ∧ c = a ++ l ∧ b = l ++ d).
Proof.
  intros H. apply app_eq_app in H as [l [[-> ->]|[-> ->]]].
  - left. exists l. split; reflexivity.
  - destruct l as [|x l].
    + left. exists []. rewrite !app_nil_r. split; reflexivity.
    + right. exists (x :: l). repeat split; congruence.
Qed.

Lemma comparable_app k r repl out :
  k ++ r = repl ++ out → comparable k repl = true.
Proof.
  intros H. unfold comparable. apply orb_true_iff.
  apply app_cut in H as [(l & -> & _)|(l & _ & -> & _)].
  - right. apply prefix_b_spec. exists l; reflexivity.
  - left. apply prefix_b_spec. exists l; reflexivity.
Qed.

Lemma tails_from_In i a k :
  (i ≤ length a)%nat → k ≠ [] → In k (tails_from i (a ++ k)).
Proof.
  intros Hi Hk. unfold tails_from. apply in_map_iff.
  exists (length a). split; [apply drop_app_length|].
  apply in_seq. rewrite length_app.
  destruct k; [congruence|]. simpl. lia.
Qed.

(** The meaning of [clash_free]: no suffix of [w] from offset [i] on starts
    where a copy of the replacement starts. *)
Lemma clash_free_spec w i repl a k r out :
  clash_free w i repl = true → w = a ++ k → (i ≤ length a)%nat → k ≠ [] →
  k ++ r = repl ++ out → False.
Proof.
  intros Hc -> Hi Hk Heq. unfold clash_free in Hc.
  rewrite forallb_forall in Hc.
  specialize (Hc k (tails_from_In i a k Hi Hk)).
  rewrite (comparable_app _ _ _ _ Heq) in Hc. discriminate.
Qed.

Lemma word_here_head s t : head s = head t → word_here s = word_here t.
Proof. destruct s, t; simpl; congruence. Qed.

Lemma head_eq_spec a b : head_eq a b = true → a ≠ [] ∧ b ≠ [] ∧ head a = head b.
Proof.
  destruct a as [|x a], b as [|y b]; simpl; try discriminate.
  intros ->%N.eqb_eq. repeat split; congruence.
Qed.

Lemma head_app_nonempty a b : a ≠ [] → head (a ++ b) = head a.
Proof. destruct a; [congruence | reflexivity]. Qed.

Lemma head_not_space_nonempty w : head_not_space w = true → w ≠ [].
Proof. destruct w; [discriminate | congruence]. Qed.

Lemma forallb_space_head sp s repl :
  sp ≠ [] → forallb is_space sp = true → head (sp ++ s) = head repl →
  head_not_space repl = true → False.
Proof.
  destruct sp as [|c sp]; [congruence|]. intros _. simpl.
  intros [Hc _]%andb_true_iff. destruct repl as [|x repl]; [discriminate|].
  simpl. intros [= ->] Hx. rewrite Hc in Hx. discriminate.
Qed.

End Overlap.

(** * A match that survives a replacement was there before *)

Section Transfer.

Implicit Types (a b k w s r out : pystr) (sh : shape).

Lemma fires_Plain w r : fires (Plain w) (w ++ r) = true.
Proof. unfold fires. simpl. rewrite strip_prefix_app. reflexivity. Qed.

Lemma fires_Bounded w r :
  at_boundary (last w) r = true → fires (Bounded w) (w ++ r) = true.
Proof. intros H. unfold fires. simpl. rewrite strip_prefix_app. simpl. rewrite H. reflexivity. Qed.

Lemma fires_Spaced w1 w2 sp r :
  head_not_space w2 = true → forallb is_space sp = true →
  fires (Spaced w1 w2) (w1 ++ sp ++ w2 ++ r) = true.
Proof. intros H1 H2. unfold fires. rewrite smatch_Spaced_intro by assumption. reflexivity. Qed.

Lemma fires_Some sh s : fires sh s = true ↔ ∃ r, smatch sh s = Some r.
Proof.
  unfold fires. destruct (smatch sh s) as [r|].
  - split; [intros _; exists r; reflexivity | reflexivity].
  - split; [discriminate | intros [r [=]]].
Qed.

Lemma at_boundary_head prev s t :
  head s = head t → at_boundary prev s = at_boundary prev t.
Proof. intros H. unfold at_boundary. rewrite (word_here_head s t H). reflexivity. Qed.

(** A match of [sh] that starts in the text [b] copied before a replacement
    lies within [b]: it is also a match when other text [y] with the same
    first character follows [b]. *)
Lemma run_in sh repl b out y r :
  shape_wf sh = true → run_in_ok sh repl = true → repl ≠ [] → b ≠ [] →
  head y = head repl →
  smatch sh (b ++ repl ++ out) = Some r → fires sh (b ++ y) = true.
Proof.
  intros Hwf Hok Hrepl Hb Hy H.
  assert (Hhead : ∀ l, head (l ++ repl ++ out) = head (l ++ y)).
  { intros [|x l]; [|reflexivity]. simpl.
    rewrite head_app_nonempty by assumption. congruence. }
  destruct sh as [w|w|w1 w2]; simpl in Hok.
  - apply smatch_Plain in H.
    apply app_cut in H as [(l & -> & _)|(l & Hl & -> & Heq)].
    + rewrite <- app_assoc. apply fires_Plain.
    + exfalso. eapply (clash_free_spec _ 1 repl b l); eauto.
      destruct b; [congruence | simpl; lia].
  - apply smatch_Bounded in H as [H Hbd].
    apply app_cut in H as [(l & -> & ->)|(l & Hl & -> & Heq)].
    + rewrite <- app_assoc. apply fires_Bounded.
      rewrite <- Hbd. apply at_boundary_head. symmetry. apply Hhead.
    + exfalso. eapply (clash_free_spec _ 1 repl b l); eauto.
      destruct b; [congruence | simpl; lia].
  - apply andb_true_iff in Hok as [[Hc1 Hsp]%andb_true_iff Hc2].
    apply andb_true_iff in Hwf as [_ Hw2].
    apply smatch_Spaced_inv in H as (sp & H & Hspaces).
    apply app_cut in H as [(l & -> & H)|(l & Hl & -> & Heq)].
    + symmetry in H. apply app_cut in H as [(l2 & -> & H)|(l2 & Hl2 & -> & Heq)].
      * symmetry in H. apply app_cut in H as [(l3 & -> & _)|(l3 & Hl3 & -> & Heq)].
        -- rewrite <- !app_assoc. apply fires_Spaced; assumption.
        -- exfalso. eapply (clash_free_spec _ 0 repl l2 l3); eauto. lia.
      * exfalso. rewrite forallb_app in Hspaces.
        apply andb_true_iff in Hspaces as [_ Hs2].
        apply (forallb_space_head l2 (w2 ++ r) repl); try assumption.
        rewrite <- Heq. apply head_app_nonempty. assumption.
    + exfalso. eapply (clash_free_spec _ 1 repl b l); eauto.
      destruct b; [congruence | simpl; lia].
Qed.

End Transfer.

(** * One rule after another *)

Section Preservation.

Implicit Types (a b k w s t r out : pystr).

Lemma smatch_first_lit sh s r :
  smatch sh s = Some r → ∃ k, s = first_lit sh ++ k.
Proof.
  destruct sh as [w|w|w1 w2]; intros H.
  - apply smatch_Plain in H. eauto.
  - apply smatch_Bounded in H as [H _]. eauto.
  - apply smatch_Spaced_inv in H as (sp & H & _). eauto.
Qed.

Lemma smatch_nil sh : shape_wf sh = true → smatch sh [] = None.
Proof.
  intros Hwf. destruct (smatch sh []) as [r|] eqn:E; [|reflexivity].
  apply smatch_consumes in E as (m & Hm & Hne); [|assumption].
  destruct m; [congruence | discriminate].
Qed.

Lemma smatch_shorter sh s r :
  shape_wf sh = true → smatch sh s = Some r → (length r < length s)%nat.
Proof.
  intros Hwf H. apply smatch_consumes in H as (m & -> & Hm); [|assumption].
  rewrite length_app. destruct m; [congruence | simpl; lia].
Qed.

Lemma smatch_is_suffix sh s r :
  shape_wf sh = true → smatch sh s = Some r → ∃ m, s = m ++ r.
Proof. intros Hwf H. apply smatch_consumes in H as (m & -> & _); eauto. Qed.

Section OneRule.

Variable shk : shape.
Variable repl : pystr.
Hypothesis rule_in_order : rule_ok (shk, repl) = true.

Lemma shk_wf : shape_wf shk = true.
Proof.
  unfold rule_ok in rule_in_order. simpl in rule_in_order.
  apply andb_true_iff in rule_in_order as [[H _]%andb_true_iff _]. exact H.
Qed.

Lemma repl_head : repl ≠ [] ∧ head repl = head (first_lit shk).
Proof.
  unfold rule_ok in rule_in_order. simpl in rule_in_order.
  apply andb_true_iff in rule_in_order as [[_ H]%andb_true_iff _].
  apply head_eq_spec in H as (H1 & H2 & H3). split; assumption.
Qed.

Lemma first_lit_nonempty : first_lit shk ≠ [].
Proof.
  pose proof shk_wf as H. destruct shk as [w|w|w1 w2]; simpl in *.
  - destruct w; [discriminate | congruence].
  - destruct w; [discriminate | congruence].
  - apply andb_true_iff in H as [H _]. destruct w1; [discriminate | congruence].
Qed.

Lemma fired_head s r : smatch shk s = Some r → head s = head repl.
Proof.
  intros [k ->]%smatch_first_lit. destruct repl_head as [_ ->].
  apply head_app_nonempty, first_lit_nonempty.
Qed.

(** The scan keeps the first character of its text. *)
Lemma ssub_head s : head (ssub shk repl s) = head s.
Proof.
  destruct s as [|c t]; [reflexivity|].
  destruct (smatch shk (c :: t)) as [r|] eqn:E.
  - rewrite (ssub_fire _ _ shk_wf _ _ E).
    rewrite head_app_nonempty by apply repl_head.
    symmetry. eapply fired_head; eassumption.
  - rewrite (ssub_copy _ _ shk_wf _ _ E). reflexivity.
Qed.

(** After a match of a [\b] pattern the text does not go on with a word
    character. *)
Lemma bounded_rest s r :
  is_bounded shk = true → smatch shk s = Some r → word_here r = false.
Proof.
  unfold rule_ok in rule_in_order. simpl in rule_in_order.
  apply andb_true_iff in rule_in_order as [_ Hlast].
  destruct shk as [w|w|w1 w2]; try discriminate. intros _.
  intros [_ Hb]%smatch_Bounded. unfold at_boundary in Hb.
  rewrite Hlast in Hb. destruct (word_here r); [discriminate | reflexivity].
Qed.

Variable shj : shape.
Hypothesis shj_wf : shape_wf shj = true.
Hypothesis pair_in_order : pair_ok shj (shk, repl) = true.

(** A match of [shj] in the output that starts in copied text was a match in
    the input. *)
Lemma transfer n : ∀ t b r,
  (length t ≤ n)%nat → b ≠ [] →
  smatch shj (b ++ ssub shk repl t) = Some r → fires shj (b ++ t) = true.
Proof.
  apply andb_true_iff in pair_in_order as [Hrun _]. simpl in Hrun.
  induction n as [|n IH]; intros t b r Hlen Hb H.
  - destruct t; [|simpl in Hlen; lia]. apply fires_Some. eauto.
  - destruct t as [|c t]; [apply fires_Some; eauto|].
    destruct (smatch shk (c :: t)) as [rest|] eqn:E.
    + rewrite (ssub_fire _ _ shk_wf _ _ E) in H.
      eapply run_in; try eassumption; [apply repl_head|].
      eapply fired_head; eassumption.
    + rewrite (ssub_copy _ _ shk_wf _ _ E) in H.
      rewrite (cons_middle c b), app_assoc in H |- *.
      eapply IH; [simpl in Hlen; lia | | exact H].
      destruct b; discriminate.
Qed.

(** No match of [shj] starts inside a replacement. *)
Lemma inside s rest d b r :
  smatch shk s = Some rest → drop d repl = b → b ≠ [] →
  smatch shj (b ++ ssub shk repl rest) = Some r → False.
Proof.
  intros Hk Hd Hb H.
  apply andb_true_iff in pair_in_order as [_ Hin]. simpl in Hin.
  unfold start_in_ok in Hin. rewrite forallb_forall in Hin.
  assert (Hmem : In b (tails_from 0 repl)).
  { rewrite <- (take_drop d repl), Hd.
    apply tails_from_In; [lia | assumption]. }
  specialize (Hin b Hmem). apply andb_true_iff in Hin as [Hfit Hpast].
  apply negb_true_iff in Hfit.
  apply smatch_first_lit in H as [k H].
  apply app_cut in H as [(l & Hbl & _)|(l & Hl & Hw & Hout)].
  - assert (prefix_b (first_lit shj) b = true)
      by (apply prefix_b_spec; eauto). congruence.
  - assert (Hpre : prefix_b b (first_lit shj) = true)
      by (apply prefix_b_spec; eauto).
    rewrite Hpre in Hpast. apply andb_true_iff in Hpast as [Hbd Hword].
    rewrite Hw, drop_app_length in Hword.
    pose proof (bounded_rest _ _ Hbd Hk) as Hrest.
    assert (Hh : head l = head rest).
    { rewrite <- (ssub_head rest), Hout.
      symmetry. apply head_app_nonempty. assumption. }
    rewrite (word_here_head _ _ Hh) in Hword. congruence.
Qed.

Lemma quiet_app a b :
  (∀ d k, drop d a = k → k ≠ [] → fires shj (k ++ b) = false) →
  quiet shj b = true → quiet shj (a ++ b) = true.
Proof.
  intros Ha Hb. induction a as [|x a IH]; [assumption|].
  simpl. apply andb_true_iff. split.
  - apply negb_true_iff. apply (Ha 0%nat (x :: a)); [reflexivity | discriminate].
  - apply IH. intros d k Hd Hk. apply (Ha (S d) k); assumption.
Qed.

(** The rule [shk] leaves no match of [shj], provided every match of [shj]
    in the input is at a position where [shk] matches as well. *)
Lemma quiet_after n : ∀ s,
  (length s ≤ n)%nat →
  (∀ a b, s = a ++ b → fires shj b = true → fires shk b = true) →
  quiet shj (ssub shk repl s) = true.
Proof.
  induction n as [|n IH]; intros s Hlen Hcov.
  - destruct s; [reflexivity | simpl in Hlen; lia].
  - destruct s as [|c t]; [reflexivity|].
    destruct (smatch shk (c :: t)) as [rest|] eqn:E.
    + rewrite (ssub_fire _ _ shk_wf _ _ E).
      destruct (smatch_consumes _ _ _ shk_wf E) as (m & Hm & Hne).
      assert (Hrest : (length rest ≤ n)%nat).
      { apply (f_equal length) in Hm. rewrite length_app in Hm.
        destruct m; [congruence|]. simpl in Hm, Hlen. lia. }
      apply quiet_app.
      * intros d k Hd Hk.
        destruct (fires shj (k ++ ssub shk repl rest)) eqn:F; [|reflexivity].
        apply fires_Some in F as [r F]. exfalso.
        eapply inside; eassumption.
      * apply IH; [assumption|]. intros a b Hab.
        apply (Hcov (m ++ a)). rewrite Hm, Hab, app_assoc. reflexivity.
    + rewrite (ssub_copy _ _ shk_wf _ _ E). simpl. apply andb_true_iff. split.
      * apply negb_true_iff.
        destruct (fires shj (c :: ssub shk repl t)) eqn:F; [|reflexivity].
        apply fires_Some in F as [r F].
        apply (transfer (length t) t [c] r) in F; [|lia|discriminate].
        apply (Hcov [] (c :: t) eq_refl) in F.
        unfold fires in F. rewrite E in F. discriminate.
      * apply IH; [simpl in Hlen; lia|]. intros a b Hab.
        apply (Hcov (c :: a)). rewrite Hab. reflexivity.
Qed.

End OneRule.

End Preservation.

(** * The whole run *)

Section Run.

Implicit Types (s : pystr) (sh : shape) (rs : list (shape * pystr)).

Lemma quiet_fires sh s a b :
  quiet sh s = true → s = a ++ b → b ≠ [] → fires sh b = false.
Proof.
  intros H ->. revert H. induction a as [|x a IH]; intros H Hb.
  - destruct b; [congruence|]. simpl in H.
    apply andb_true_iff in H as [H _]. apply negb_true_iff in H. exact H.
  - simpl in H. apply andb_true_iff in H as [_ H]. auto.
Qed.

Lemma fires_nil sh : shape_wf sh = true → fires sh [] = false.
Proof. intros H. unfold fires. rewrite smatch_nil by assumption. reflexivity. Qed.

(** A rule whose pattern matches nowhere leaves the text as it is. *)
Lemma ssub_quiet sh repl s :
  shape_wf sh = true → quiet sh s = true → ssub sh repl s = s.
Proof.
  intros Hwf. induction s as [|c t IH]; [reflexivity|]. simpl.
  intros [Hf Hq]%andb_true_iff. apply negb_true_iff in Hf.
  unfold fires in Hf. destruct (smatch sh (c :: t)) eqn:E; [discriminate|].
  rewrite ssub_copy by assumption. rewrite IH by assumption. reflexivity.
Qed.

Lemma run_quiet rs s :
  Forall (λ r, shape_wf r.1 = true ∧ quiet r.1 s = true) rs → run rs s = s.
Proof.
  induction 1 as [|r rs [Hwf Hq] _ IH]; [reflexivity|].
  unfold run in *. simpl. rewrite ssub_quiet by assumption. exact IH.
Qed.

(** A rule keeps quiet the patterns that matched nowhere before it. *)
Lemma step_keeps_quiet shk repl done s :
  rule_ok (shk, repl) = true →
  forallb (λ shj, pair_ok shj (shk, repl)) done = true →
  Forall (λ sh, shape_wf sh = true ∧ quiet sh s = true) done →
  Forall (λ sh, shape_wf sh = true ∧ quiet sh (ssub shk repl s) = true) done.
Proof.
  intros Hrule Hprev Hdone. revert Hprev.
  induction Hdone as [|shj done [Hj Hq] Hdone IHd]; [constructor|].
  simpl. intros [Hp Hprev]%andb_true_iff. constructor; [|auto].
  split; [assumption|].
  apply (quiet_after shk repl Hrule shj Hj Hp (length s)); [lia|].
  intros a b Hab Hf.
  destruct b as [|x b]; [rewrite fires_nil in Hf by assumption; discriminate|].
  rewrite (quiet_fires shj s a (x :: b) Hq Hab) in Hf by discriminate.
  discriminate.
Qed.

(** After the rules [todo] have run, none of their patterns matches, and
    neither do the patterns [done] that matched nowhere before. *)
Lemma run_leaves_quiet todo : ∀ done s,
  sequence_ok done todo = true →
  Forall (λ sh, shape_wf sh = true ∧ quiet sh s = true) done →
  Forall (λ sh, shape_wf sh = true ∧ quiet sh (run todo s) = true)
         (rev (map fst todo) ++ done).
Proof.
  induction todo as [|[shk repl] todo IH]; intros done s Hok Hdone.
  - exact Hdone.
  - simpl in Hok.
    apply andb_true_iff in Hok as [[Hrule [Hself Hprev]%andb_true_iff]%andb_true_iff Hrest].
    simpl in Hself.
    change (run ((shk, repl) :: todo) s) with (run todo (ssub shk repl s)).
    simpl. rewrite <- app_assoc. simpl. apply IH; [exact Hrest|].
    pose proof (shk_wf _ _ Hrule) as Hwf.
    constructor.
    + split; [assumption|].
      apply (quiet_after shk repl Hrule shk Hwf Hself (length s)); [lia|].
      intros a b _ H. exact H.
    + apply step_keeps_quiet; assumption.
Qed.

Lemma sequence_ok_crules : sequence_ok [] crules = true.
Proof. vm_compute. reflexivity. Qed.

Lemma Forall_rev_map_fst (P : shape → Prop) rs :
  Forall P (rev (map fst rs) ++ []) → Forall (λ r, P r.1) rs.
Proof.
  rewrite app_nil_r. intros H. apply Forall_rev in H. rewrite rev_involutive in H.
  induction rs as [|r rs IH]; [constructor|].
  simpl in H. apply Forall_cons_1 in H as [H1 H2]. constructor; auto.
Qed.

(** No pattern of the script matches in the output of the transform. *)
Lemma fix_quiet s :
  Forall (λ r, shape_wf r.1 = true ∧ quiet r.1 (fix_expression_references s) = true)
         crules.
Proof.
  rewrite fix_run.
  apply (Forall_rev_map_fst
           (λ sh, shape_wf sh = true ∧ quiet sh (run crules s) = true)).
  apply run_leaves_quiet; [apply sequence_ok_crules | constructor].
Qed.

End Run.

(** C2: for every text, applying the transform twice gives the same result
    as applying it once. *)
Theorem fix_expression_references_idempotent (s : pystr) :
  fix_expression_references (fix_expression_references s)
  = fix_expression_references s.
Proof.
  rewrite (fix_run (fix_expression_references s)).
  apply run_quiet, fix_quiet.
Qed.

(** * Rules fire only in their context *)

Section Contexts.

Implicit Types (a b p q w s r pre post : pystr) (c : context).

Lemma split_at_Some w s x y : split_at w s = Some (x, y) → s = x ++ w ++ y.
Proof.
  revert x y; induction s as [|ch t IH]; intros x y; simpl; [discriminate|].
  destruct (strip_prefix w (ch :: t)) as [r|] eqn:E.
  - intros [= <- <-]. apply strip_prefix_Some in E. exact E.
  - destruct (split_at w t) as [[x' y']|]; [|discriminate].
    simpl. intros [= <- <-]. rewrite (IH x' y' eq_refl). reflexivity.
Qed.

Lemma prefix_b_app a k : prefix_b a (a ++ k) = true.
Proof. apply prefix_b_spec. eauto. Qed.

Lemma occurs_spec w s : occurs w s = true ↔ ∃ p q, s = p ++ w ++ q.
Proof.
  induction s as [|ch t IH]; simpl.
  - rewrite prefix_b_spec. split.
    + intros [k Hk]. exists [], k. exact Hk.
    + intros (p & q & H). destruct p; [|discriminate]. eauto.
  - rewrite orb_true_iff, IH, prefix_b_spec. split.
    + intros [[k Hk]|(p & q & ->)]; [exists [], k; exact Hk|].
      exists (ch :: p), q. reflexivity.
    + intros (p & q & H). destruct p as [|x p].
      * left. exists q. exact H.
      * right. injection H as _ ->. eauto.
Qed.

Lemma suffix_b_app a x : suffix_b x (a ++ x) = true.
Proof. unfold suffix_b. rewrite rev_app_distr. apply prefix_b_app. Qed.

Lemma suffix_b_spec x s : suffix_b x s = true ↔ ∃ k, s = k ++ x.
Proof.
  unfold suffix_b. rewrite prefix_b_spec. split.
  - intros [k Hk]. exists (rev k).
    rewrite <- (rev_involutive s), Hk, rev_app_distr, rev_involutive. reflexivity.
  - intros [k ->]. exists (rev k). apply rev_app_distr.
Qed.

Lemma forallb_rev (f : N → bool) s : forallb f (rev s) = forallb f s.
Proof.
  induction s as [|x s IH]; [reflexivity|]. simpl.
  rewrite forallb_app, IH. simpl. rewrite andb_true_r. apply andb_comm.
Qed.

Lemma gap_holds a w sp :
  head_not_space (rev w) = true → forallb is_space sp = true →
  prefix_b (rev w) (skip_spaces (rev (a ++ w ++ sp))) = true.
Proof.
  intros Hw Hsp. rewrite !rev_app_distr, <- app_assoc.
  rewrite skip_spaces_app by (rewrite forallb_rev; assumption).
  rewrite skip_spaces_head by assumption. apply prefix_b_app.
Qed.

(** Where a rule matches, the match holds an occurrence of [Expression] in
    the context of the rule. *)
Lemma context_sound sh repl b r :
  rule_ctx_ok (sh, repl) = true → smatch sh b = Some r →
  ∃ p q, b = p ++ Expression ++ q ∧ ∀ a, rule_holds (sh, repl) (a ++ p) q = true.
Proof.
  unfold rule_ctx_ok, rule_holds. cbn [fst snd].
  intros [Hrule Hctx]%andb_true_iff H.
  destruct sh as [w|w|w1 w2]; cbn [context_of] in *.
  - destruct (split_at Expression w) as [[x y]|] eqn:E; [|discriminate].
    apply split_at_Some in E. apply smatch_Plain in H. subst.
    exists x, (y ++ r). split; [rewrite <- !app_assoc; reflexivity|].
    intros a. unfold ctx_holds.
    cbn [mbind option_bind fst snd before gap after at_end].
    rewrite suffix_b_app, prefix_b_app. reflexivity.
  - destruct (split_at Expression w) as [[x y]|] eqn:E; [|discriminate].
    apply split_at_Some in E.
    pose proof (bounded_rest _ _ Hrule b r eq_refl H) as Hr.
    apply smatch_Bounded in H as [-> _]. subst w.
    exists x, (y ++ r). split; [rewrite <- !app_assoc; reflexivity|].
    intros a. unfold ctx_holds.
    cbn [mbind option_bind fst snd before gap after at_end].
    rewrite suffix_b_app, prefix_b_app, drop_app_length, Hr. reflexivity.
  - apply smatch_Spaced_inv in H as (sp & -> & Hsp).
    destruct (split_at Expression w1) as [[x y]|] eqn:E.
    + apply split_at_Some in E. subst w1.
      exists x, (y ++ sp ++ w2 ++ r). split; [rewrite <- !app_assoc; reflexivity|].
      intros a. unfold ctx_holds. cbn [fst snd before gap after at_end].
      rewrite suffix_b_app, prefix_b_app. reflexivity.
    + destruct (strip_prefix Expression w2) as [y|] eqn:E2; [|discriminate].
      apply strip_prefix_Some in E2. subst w2.
      cbn [mbind option_bind before gap after at_end] in *.
      exists (w1 ++ sp), (y ++ r). split; [rewrite <- !app_assoc; reflexivity|].
      intros a. unfold ctx_holds. cbn [before gap after at_end].
      rewrite gap_holds, prefix_b_app by assumption. reflexivity.
Qed.

Lemma quiet_intro sh s :
  (∀ a b, s = a ++ b → fires sh b = false) → quiet sh s = true.
Proof.
  induction s as [|x s IH]; [reflexivity|]. intros H. simpl.
  rewrite (H [] (x :: s) eq_refl). simpl.
  apply IH. intros a b ->. apply (H (x :: a)). reflexivity.
Qed.

Lemma rule_ctx_ok_crules : Forall (λ rk, rule_ctx_ok rk = true) crules.
Proof. unfold crules. repeat constructor. Qed.

Lemma existsb_false {A} (f : A → bool) (l : list A) :
  existsb f l = false → Forall (λ x, f x = false) l.
Proof.
  induction l as [|x l IH]; simpl; [constructor|].
  intros [H1 H2]%orb_false_iff. constructor; auto.
Qed.

(** A text in which no rule finds its context is left as it is. *)
Lemma untriggered_fixed s :
  (∀ pre post, s = pre ++ Expression ++ post → triggers pre post = false) →
  fix_expression_references s = s.
Proof.
  intros H. rewrite fix_run. apply run_quiet.
  assert (Hall : ∀ pre post, s = pre ++ Expression ++ post →
                 Forall (λ rk, rule_holds rk pre post = false) crules).
  { intros pre post Hs. apply existsb_false, H, Hs. }
  clear H. pose proof rule_ctx_ok_crules as Hok.
  induction Hok as [|[sh repl] rs Hr Hok IH]; [constructor|].
  constructor.
  - split.
    + apply andb_true_iff in Hr as [Hr _]. exact (shk_wf _ _ Hr).
    + cbn [fst]. apply quiet_intro. intros a b Hs.
      destruct (fires sh b) eqn:F; [|reflexivity].
      apply fires_Some in F as [r F].
      destruct (context_sound _ _ _ _ Hr F) as (p & q & -> & Hpq).
      specialize (Hall (a ++ p) q). rewrite <- app_assoc in Hall.
      specialize (Hall Hs). apply Forall_cons_1 in Hall as [Hall _].
      rewrite Hpq in Hall. discriminate.
  - apply IH. intros pre post Hs.
    specialize (Hall pre post Hs). apply Forall_cons_1 in Hall as [_ Hall].
    exact Hall.
Qed.

End Contexts.

(** * White space is not word text *)

Lemma in_ranges_values (P : N → bool) rs :
  forallb P (flat_map N_range rs) = true →
  ∀ c, in_ranges c rs = true → P c = true.
Proof.
  intros H c Hc. rewrite forallb_forall in H. apply H.
  unfold in_ranges in Hc. apply existsb_exists in Hc as ([lo hi] & Hin & Hr).
  apply in_flat_map. exists (lo, hi). split; [assumption|].
  simpl in Hr. apply andb_true_iff in Hr as [Hlo%N.leb_le Hhi%N.leb_le].
  unfold N_range. simpl. apply in_map_iff.
  exists (N.to_nat (c - lo)). split; [lia|]. apply in_seq. lia.
Qed.

Lemma space_not_word c : is_space c = true → is_word c = false.
Proof.
  intros H. apply negb_true_iff.
  revert c H. apply in_ranges_values. vm_compute. reflexivity.
Qed.

(** * Checks at every occurrence *)

Section Occurrences.

Implicit Types (s pre post : pystr) (P : pystr → pystr → bool).

Lemma every_occ_from_spec P s : ∀ rpre,
  every_occ_from P rpre s = true ↔
  ∀ pre post, s = pre ++ Expression ++ post → P (rev rpre ++ pre) post = true.
Proof.
  induction s as [|c t IH]; intros rpre.
  - split; [|reflexivity]. intros _ pre post H.
    destruct pre; [cbv in H|]; discriminate.
  - cbn [every_occ_from]. rewrite andb_true_iff, IH. split.
    + intros [H0 Ht] pre post Hs. destruct pre as [|x pre].
      * rewrite app_nil_l in Hs. rewrite Hs, strip_prefix_app in H0.
        rewrite app_nil_r. exact H0.
      * injection Hs as -> ->. specialize (Ht pre post eq_refl).
        simpl in Ht. rewrite <- app_assoc in Ht. exact Ht.
    + intros H. split.
      * destruct (strip_prefix Expression (c :: t)) as [post|] eqn:E; [|reflexivity].
        apply strip_prefix_Some in E. specialize (H [] post E).
        rewrite app_nil_r in H. exact H.
      * intros pre post ->. simpl. rewrite <- app_assoc.
        apply (H (c :: pre) post). reflexivity.
Qed.

Lemma every_occurrence_spec P s :
  every_occurrence P s = true ↔
  ∀ pre post, s = pre ++ Expression ++ post → P pre post = true.
Proof. apply (every_occ_from_spec P s []). Qed.

End Occurrences.

(** * Contexts that cannot hold *)

Section Guards.

Implicit Types (s pre post : pystr) (c : context).

Lemma list_eqb_eq (a b : pystr) : list_eqb a b = true → a = b.
Proof.
  revert b; induction a as [|x a IH]; intros [|y b]; simpl; try discriminate.
  - reflexivity.
  - intros [->%N.eqb_eq H]%andb_true_iff. f_equal. auto.
Qed.

Lemma head_rev (l : pystr) : head (rev l) = last l.
Proof.
  rewrite <- (rev_involutive l) at 2. destruct (rev l) as [|x k]; [reflexivity|].
  simpl. rewrite last_snoc. reflexivity.
Qed.

Lemma after_nonword_blocks c pre post :
  after_nonword c = true → word_here post = true → ctx_holds c pre post = false.
Proof.
  unfold after_nonword, ctx_holds. intros Hc Hpost.
  destruct (after c) as [|x k].
  - rewrite Hc. change (length (@nil N)) with 0%nat.
    rewrite drop_0, Hpost. apply andb_false_r.
  - destruct (prefix_b (x :: k) post) eqn:E.
    + apply prefix_b_spec in E as [k' ->]. simpl in Hpost.
      rewrite Hpost in Hc. discriminate.
    + rewrite andb_false_r. reflexivity.
Qed.

Lemma left_guard_blocks c pre post :
  left_guard c = true → word_before (last pre) = true →
  ctx_holds c pre post = false.
Proof.
  unfold left_guard, ctx_holds. intros Hc Hpre.
  destruct (last (before c)) as [x|] eqn:Hlast; [|discriminate].
  apply negb_true_iff in Hc.
  assert (Hgoal : (if gap c
                   then prefix_b (rev (before c)) (skip_spaces (rev pre))
                   else suffix_b (before c) pre) = false);
    [|rewrite Hgoal; reflexivity].
  destruct (gap c).
  - destruct (prefix_b _ _) eqn:E; [|reflexivity]. exfalso.
    apply prefix_b_spec in E as [k E].
    destruct (skip_spaces_suffix (rev pre)) as (sp & Hrp & Hsp).
    rewrite E in Hrp. rewrite <- head_rev in Hpre. rewrite Hrp in Hpre.
    destruct sp as [|y sp].
    + simpl in Hpre. rewrite <- head_rev in Hlast.
      destruct (rev (before c)); [discriminate|].
      simpl in Hlast, Hpre. injection Hlast as ->. congruence.
    + simpl in Hsp, Hpre. apply andb_true_iff in Hsp as [Hy _].
      apply space_not_word in Hy. congruence.
  - destruct (suffix_b (before c) pre) eqn:E; [|reflexivity]. exfalso.
    apply suffix_b_spec in E as [k ->].
    destruct (before c) as [|y l] eqn:Hb; [discriminate|].
    rewrite last_app, Hlast in Hpre. simpl in Hpre. congruence.
Qed.

Lemma variant_ctx_blocks c pre post :
  variant_ctx c = true → variant_follows post = false →
  ctx_holds c pre post = false.
Proof.
  unfold variant_ctx, ctx_holds.
  intros [[[_ _]%andb_true_iff Hend]%andb_true_iff Hv]%andb_true_iff Hpost.
  rewrite Hend. apply existsb_exists in Hv as (v & Hin & Hv).
  apply list_eqb_eq in Hv. rewrite Hv.
  destruct (prefix_b (qualified v) post
            && negb (word_here (drop (length (qualified v)) post))) eqn:E.
  - exfalso. assert (variant_follows post = true); [|congruence].
    apply existsb_exists. exists v. split; assumption.
  - rewrite <- andb_assoc, E. apply andb_false_r.
Qed.

Lemma unqualified_ctx_blocks c pre post :
  unqualified_ctx c = true → prefix_b (py "::") post = true →
  ctx_holds c pre post = false.
Proof.
  unfold unqualified_ctx, ctx_holds. intros Hc Hpost.
  destruct (after c) as [|x k]; [discriminate|].
  destruct (prefix_b (x :: k) post) eqn:E.
  - apply prefix_b_spec in E as [k' ->].
    apply prefix_b_spec in Hpost as [k'' Hpost]. injection Hpost as -> _.
    discriminate.
  - rewrite andb_false_r. reflexivity.
Qed.

Lemma borrow_or_import_ctx_blocks c pre post :
  borrow_or_import_ctx c = true → borrow_or_import pre = false →
  ctx_holds c pre post = false.
Proof.
  unfold borrow_or_import_ctx, ctx_holds.
  intros [Hgap%negb_true_iff Hb]%andb_true_iff Hpre. rewrite Hgap.
  apply existsb_exists in Hb as (x & Hin & Hx). apply list_eqb_eq in Hx.
  unfold borrow_or_import in Hpre.
  destruct (suffix_b (before c) pre) eqn:E; [|reflexivity]. exfalso.
  assert (existsb (λ x, suffix_b x pre) (py "&" :: import_paths) = true);
    [|congruence].
  apply existsb_exists. exists x. split; [assumption|]. rewrite <- Hx. exact E.
Qed.

(** No rule is triggered when every context of the script fails a test [Q]
    that excludes the occurrence between [pre] and [post]. *)
Lemma triggers_false (Q : context → bool) pre post :
  forallb (on_context Q) crules = true →
  (∀ c, Q c = true → ctx_holds c pre post = false) →
  triggers pre post = false.
Proof.
  unfold triggers. intros HQ Hc.
  induction crules as [|rk rs IH]; [reflexivity|].
  simpl in HQ |- *. apply andb_true_iff in HQ as [H1 H2].
  rewrite (IH H2), orb_false_r.
  unfold on_context in H1. unfold rule_holds.
  destruct (context_of rk.1); [auto | reflexivity].
Qed.

End Guards.

(** * The claims on the transform *)

(** The word boundary is that of Unicode text: after [&Expression] the
    ideograph U+7684 continues the word, the ideographic full stop U+3002
    ends it. *)
Example boundary_is_unicode_aware :
  fix_expression_references (py "&Expression" ++ [30340])
  = py "&Expression" ++ [30340]
  ∧ fix_expression_references (py "&Expression" ++ [12290])
    = py "&Expr" ++ [12290].
Proof. split; reflexivity. Qed.

(** C10: on a text without the substring [Expression] the transform is the
    identity. *)
Theorem fix_without_Expression (s : pystr) :
  occurs Expression s = false → fix_expression_references s = s.
Proof.
  intros H. apply untriggered_fixed. intros pre post Hs.
  assert (occurs Expression s = true) by (apply occurs_spec; eauto).
  congruence.
Qed.

Lemma fix_without_Expression_witness :
  (occurs Expression (py "") = false
   ∧ fix_expression_references (py "") = py "")
  ∧ (occurs Expression (py "fn lit() -> Expr { Expr::Literal(1) }") = false
     ∧ fix_expression_references (py "fn lit() -> Expr { Expr::Literal(1) }")
       = py "fn lit() -> Expr { Expr::Literal(1) }").
Proof.
  split; (split; [reflexivity | apply fix_without_Expression; reflexivity]).
Defined.

(** C1, as the code has it: a text is left unchanged when each occurrence of
    [Expression] in it either goes on with a word character, or follows a
    word character and is not followed by [::] and one of the fifteen variant
    names.  (The variant patterns are not anchored on the left.) *)
Theorem longer_identifier_unchanged (s : pystr) :
  every_occurrence longer_identifier s = true →
  fix_expression_references s = s.
Proof.
  intros H. apply untriggered_fixed. intros pre post Hs.
  rewrite every_occurrence_spec in H. specialize (H pre post Hs).
  apply (triggers_false
           (λ c, after_nonword c && (left_guard c || variant_ctx c)));
    [vm_compute; reflexivity|].
  intros c [Ha Hl]%andb_true_iff.
  apply orb_true_iff in H as [H|[Hw Hv]%andb_true_iff].
  - apply after_nonword_blocks; assumption.
  - apply negb_true_iff in Hv. apply orb_true_iff in Hl as [Hl|Hl].
    + apply left_guard_blocks; assumption.
    + apply variant_ctx_blocks; assumption.
Qed.

Lemma longer_identifier_unchanged_witness :
  every_occurrence longer_identifier
    (py "let k = ExpressionKind::A; let m = MyExpression::new(&ExpressionList);")
  = true
  ∧ fix_expression_references
      (py "let k = ExpressionKind::A; let m = MyExpression::new(&ExpressionList);")
    = py "let k = ExpressionKind::A; let m = MyExpression::new(&ExpressionList);".
Proof.
  split; [reflexivity | apply longer_identifier_unchanged; reflexivity].
Defined.

(** C1 as stated fails: in [MyExpression::Literal(x)] the old identifier
    occurs only inside the longer identifier [MyExpression], and the
    transform rewrites it. *)
Lemma longer_identifier_rewritten :
  every_occurrence part_of_identifier (py "MyExpression::Literal(x)") = true
  ∧ fix_expression_references (py "MyExpression::Literal(x)")
    = py "MyExpr::Literal(x)"
  ∧ fix_expression_references (py "MyExpression::Literal(x)")
    ≠ py "MyExpression::Literal(x)".
Proof. split; [reflexivity|]. split; [reflexivity|]. vm_compute. discriminate. Qed.

Lemma variant_rules_shapes :
  map fst variant_rules
  = map (λ v, Bounded (Expression ++ qualified v)) variants.
Proof. reflexivity. Qed.

Lemma variant_rule_quiet_here post v :
  In v variants → variant_follows post = false →
  fires (Bounded (Expression ++ qualified v)) (Expression ++ post) = false.
Proof.
  intros Hv Hpost.
  destruct (fires _ _) eqn:F; [|reflexivity]. exfalso.
  apply fires_Some in F as [r F]. apply smatch_Bounded in F as [Hs Hb].
  rewrite <- app_assoc in Hs. apply app_inv_head in Hs.
  assert (Hlast : word_before (last (Expression ++ qualified v)) = true).
  { clear -Hv. revert v Hv. apply forallb_forall. vm_compute. reflexivity. }
  unfold at_boundary in Hb. rewrite Hlast in Hb.
  assert (variant_follows post = true); [|congruence].
  apply existsb_exists. exists v. split; [assumption|].
  rewrite Hs, prefix_b_app, drop_app_length.
  destruct (word_here r); [discriminate | reflexivity].
Qed.

(** * The file walker *)

Section Walker.

Implicit Types (w : world) (path : string) (f : file) (t : pystr).

Lemma found_Some {A} (x : A) : bool_decide (is_Some (Some x)) = true.
Proof. apply bool_decide_eq_true_2. eauto. Qed.

Ltac run_process_file H Ha :=
  unfold accepts_all in Ha;
  unfold process_file, os_path_exists, read_text, write_text, try_except,
    print, logged, mbind, M_bind, bind, mret, M_ret, ret;
  cbn; rewrite ?H, ?found_Some; cbn; rewrite ?H, ?Ha; cbn.

Lemma process_file_missing path w :
  accepts_all w → fs w !! path = None →
  process_file path w = (Ok false, logged w (Status Skipped path)).
Proof. intros Ha H. run_process_file H Ha. reflexivity. Qed.

Lemma process_file_directory path w :
  accepts_all w → fs w !! path = Some Dir →
  process_file path w = (Ok false, logged w (Status (Failed IsADirectoryError) path)).
Proof. intros Ha H. run_process_file H Ha. reflexivity. Qed.

Lemma process_file_unreadable path w f :
  accepts_all w → fs w !! path = Some (Reg f) → readable f = false →
  process_file path w = (Ok false, logged w (Status (Failed PermissionError) path)).
Proof.
  intros Ha H Hr. run_process_file H Ha. rewrite Hr. cbn. rewrite Ha. reflexivity.
Qed.

Lemma process_file_undecodable path w f :
  accepts_all w → fs w !! path = Some (Reg f) → readable f = true →
  text f = None →
  process_file path w = (Ok false, logged w (Status (Failed UnicodeDecodeError) path)).
Proof.
  intros Ha H Hr Ht. run_process_file H Ha. rewrite Hr, Ht. cbn. rewrite Ha.
  reflexivity.
Qed.

Lemma process_file_unchanged path w f t :
  accepts_all w → fs w !! path = Some (Reg f) → readable f = true →
  text f = Some t → fix_expression_references t = t →
  process_file path w = (Ok false, logged w (Status NoChange path)).
Proof.
  intros Ha H Hr Ht Hfix. run_process_file H Ha. rewrite Hr, Ht.
  rewrite bool_decide_eq_false_2 by (intros Hne; apply Hne; symmetry; exact Hfix).
  cbn. rewrite Ha. reflexivity.
Qed.

Lemma process_file_readonly path w f t :
  accepts_all w → fs w !! path = Some (Reg f) → readable f = true →
  text f = Some t → fix_expression_references t ≠ t → writable f = false →
  process_file path w = (Ok false, logged w (Status (Failed PermissionError) path)).
Proof.
  intros Ha H Hr Ht Hfix Hw. run_process_file H Ha. rewrite Hr, Ht.
  rewrite bool_decide_eq_true_2 by congruence.
  rewrite !H. rewrite Hw. cbn. rewrite Ha. reflexivity.
Qed.

Lemma process_file_changed path w f t :
  accepts_all w → fs w !! path = Some (Reg f) → readable f = true →
  text f = Some t → fix_expression_references t ≠ t → writable f = true →
  process_file path w
  = (Ok true,
     World (<[path := Reg (File (Some (fix_expression_references t)) true true)]> (fs w))
           (console w ++ [Status Fixed path]) (written w ++ [path]) (stdout w)).
Proof.
  intros Ha H Hr Ht Hfix Hw. run_process_file H Ha. rewrite Hr, Ht.
  rewrite bool_decide_eq_true_2 by congruence.
  rewrite !H. rewrite Hw, Hr. cbn. rewrite Ha. reflexivity.
Qed.

(** When standard output takes its lines, [process_file] does not raise: it
    returns after one status line, and it touches the files only when that
    line is [Fixed]. *)
Lemma process_file_returns path w :
  accepts_all w →
  ∃ st w', process_file path w = (Ok (is_Fixed (st, path)), w')
           ∧ console w' = console w ++ [Status st path]
           ∧ (st ≠ Fixed → fs w' = fs w ∧ written w' = written w)
           ∧ stdout w' = stdout w.
Proof.
  intros Ha. destruct (fs w !! path) as [[|f]|] eqn:H.
  - exists (Failed IsADirectoryError). eexists.
    split; [apply process_file_directory; assumption|].
    split; [reflexivity|]. split; [|reflexivity]. intros _. split; reflexivity.
  - destruct (readable f) eqn:Hr.
    + destruct (text f) as [t|] eqn:Ht.
      * destruct (decide (fix_expression_references t = t)) as [Hfix|Hfix].
        -- exists NoChange. eexists.
           split; [eapply process_file_unchanged; eassumption|].
           split; [reflexivity|]. split; [|reflexivity].
           intros _. split; reflexivity.
        -- destruct (writable f) eqn:Hw.
           ++ exists Fixed. eexists.
              split; [eapply process_file_changed; eassumption|].
              split; [reflexivity|]. split; [|reflexivity].
              intros Hne. congruence.
           ++ exists (Failed PermissionError). eexists.
              split; [eapply process_file_readonly; eassumption|].
              split; [reflexivity|]. split; [|reflexivity].
              intros _. split; reflexivity.
      * exists (Failed UnicodeDecodeError). eexists.
        split; [eapply process_file_undecodable; eassumption|].
        split; [reflexivity|]. split; [|reflexivity].
        intros _. split; reflexivity.
    + exists (Failed PermissionError). eexists.
      split; [eapply process_file_unreadable; eassumption|].
      split; [reflexivity|]. split; [|reflexivity]. intros _. split; reflexivity.
  - exists Skipped. eexists. split; [apply process_file_missing; assumption|].
    split; [reflexivity|]. split; [|reflexivity]. intros _. split; reflexivity.
Qed.

Lemma accepts_all_stdout w w' : stdout w' = stdout w → accepts_all w → accepts_all w'.
Proof. intros E Ha l. rewrite E. apply Ha. Qed.

(** The loop visits every file: one status line each, in the order of the
    list, and the values returned are those of [walk]. *)
Lemma walk_lines e files : ∀ w,
  accepts_all w →
  ∃ sts, console (walk e files w).2 = console w ++ map status_line sts
         ∧ map snd sts = map (resolve e) files
         ∧ (walk e files w).1 = map is_Fixed sts
         ∧ stdout (walk e files w).2 = stdout w.
Proof.
  induction files as [|p rest IH]; intros w Ha.
  - exists []. simpl. rewrite app_nil_r. repeat split.
  - destruct (process_file_returns (resolve e p) w Ha)
      as (st & w1 & Hp & Hc & _ & Hs).
    destruct (IH w1 (accepts_all_stdout _ _ Hs Ha)) as (sts & Hc' & Hpaths & Hbs & Hs').
    exists ((st, resolve e p) :: sts).
    cbn [walk]. rewrite Hp. destruct (walk e rest w1) as [bs w2] eqn:Hw.
    simpl in *. rewrite Hc', Hc, <- app_assoc. simpl.
    repeat split; congruence.
Qed.

Lemma for_files_walk e files : ∀ k w,
  accepts_all w →
  for_files e files k w
  = (Ok (k + count_true (walk e files w).1)%nat, (walk e files w).2).
Proof.
  induction files as [|p rest IH]; intros k w Ha.
  - simpl. unfold ret, count_true. simpl. rewrite Nat.add_0_r. reflexivity.
  - destruct (process_file_returns (resolve e p) w Ha) as (st & w1 & Hp & _ & _ & Hs).
    cbn [for_files walk]. unfold mbind, M_bind, bind.
    rewrite Hp, (IH _ w1 (accepts_all_stdout _ _ Hs Ha)).
    destruct (walk e rest w1) as [bs w2]. cbn [fst snd].
    unfold count_true. destruct (is_Fixed (st, resolve e p)).
    + rewrite filter_cons_True by reflexivity. cbn [length].
      f_equal. f_equal. lia.
    + rewrite filter_cons_False by discriminate. reflexivity.
Qed.

Lemma count_true_is_Fixed sts :
  count_true (map is_Fixed sts) = length (filter (λ sp, is_Fixed sp = true) sts).
Proof.
  unfold count_true. induction sts as [|sp sts IH]; [reflexivity|]. simpl.
  destruct (is_Fixed sp) eqn:E.
  - rewrite filter_cons_True by reflexivity.
    rewrite (filter_cons_True (λ sp, is_Fixed sp = true)) by exact E.
    simpl. f_equal. exact IH.
  - rewrite filter_cons_False by discriminate.
    rewrite (filter_cons_False (λ sp, is_Fixed sp = true)) by congruence.
    exact IH.
Qed.

(** A line that standard output takes is printed. *)
Lemma print_accepted l w :
  stdout w l = true → print l w = (Ok tt, logged w l).
Proof. intros H. unfold print. rewrite H. reflexivity. Qed.

(** What [main] does when standard output takes its lines: the banner, the
    loop, the summary. *)
Lemma main_runs e w :
  accepts_all w →
  main e w
  = (Ok tt,
     logged
       (logged
          (logged (walk e FILES_TO_FIX (after_banner w)).2 Rule)
          (Summary (count_true (walk e FILES_TO_FIX (after_banner w)).1)))
       Rule).
Proof.
  intros Ha.
  assert (Hb : accepts_all (after_banner w)) by exact Ha.
  destruct (walk_lines e FILES_TO_FIX (after_banner w) Hb) as (_ & _ & _ & _ & Hs).
  assert (Hw : accepts_all (walk e FILES_TO_FIX (after_banner w)).2)
    by (apply (accepts_all_stdout _ _ Hs), Hb).
  unfold main, mbind, M_bind, bind.
  rewrite (print_accepted Rule w (Ha _)).
  rewrite (print_accepted Title (logged w Rule) (Ha _)).
  rewrite (print_accepted Rule (logged (logged w Rule) Title) (Ha _)).
  fold (after_banner w). rewrite (for_files_walk _ _ _ _ Hb).
  set (w2 := (walk e FILES_TO_FIX (after_banner w)).2) in *.
  rewrite (print_accepted Rule w2 (Hw _)).
  rewrite (print_accepted _ (logged w2 Rule) (Hw _)).
  rewrite (print_accepted Rule (logged (logged w2 Rule) _) (Hw _)).
  reflexivity.
Qed.

End Walker.

(** * The claims on the file walker *)

Lemma statuses_app ls1 ls2 : statuses (ls1 ++ ls2) = statuses ls1 ++ statuses ls2.
Proof. apply omap_app. Qed.

Lemma statuses_status_lines sts : statuses (map status_line sts) = sts.
Proof.
  induction sts as [|[st p] sts IH]; [reflexivity|].
  change (statuses (map status_line ((st, p) :: sts)))
    with ((st, p) :: statuses (map status_line sts)).
  rewrite IH. reflexivity.
Qed.

(** What [process_file] leaves of the files when the text needs no change,
    whatever standard output does with the notice. *)
Lemma process_file_unchanged_any path w f t :
  fs w !! path = Some (Reg f) → readable f = true → text f = Some t →
  fix_expression_references t = t →
  (process_file path w).1 ≠ Ok true
  ∧ fs (process_file path w).2 = fs w
  ∧ written (process_file path w).2 = written w.
Proof.
  intros H Hr Ht Hfix.
  unfold process_file, os_path_exists, read_text, write_text, try_except,
    print, logged, mbind, M_bind, bind, mret, M_ret, ret.
  cbn. rewrite ?H, ?found_Some. cbn. rewrite ?H. cbn. rewrite Hr, Ht.
  rewrite bool_decide_eq_false_2 by (intros Hne; apply Hne; symmetry; exact Hfix).
  cbn. destruct (stdout w (Status NoChange path)); cbn;
    [repeat split; discriminate|].
  destruct (stdout w (Status (Failed UnicodeEncodeError) path)); cbn;
    repeat split; discriminate.
Qed.

(** C6, as the code has it.  When standard output takes the lines of the
    script, [process_file] returns on every path, a missing file and an
    exception raised while reading or writing end in a notice and the value
    [False]; [main] goes through every path of the list and returns, so the
    exit code is 0. *)
Theorem failures_are_contained (e : env) (w : world) (path : string) :
  accepts_all w →
  (∃ b w', process_file path w = (Ok b, w'))
  ∧ (fs w !! path = None →
     process_file path w = (Ok false, logged w (Status Skipped path)))
  ∧ (∀ ex w1, is_Some (fs w !! path) → read_text path w = (Raised ex, w1) →
     process_file path w = (Ok false, logged w (Status (Failed ex) path)))
  ∧ (∀ t ex w1, read_text path w = (Ok t, w) →
     fix_expression_references t ≠ t →
     write_text path (fix_expression_references t) w = (Raised ex, w1) →
     process_file path w = (Ok false, logged w (Status (Failed ex) path)))
  ∧ (∃ sts w', main e w = (Ok tt, w')
       ∧ exit_code (main e w) = 0%nat
       ∧ statuses (console w') = statuses (console w) ++ sts
       ∧ map snd sts = map (resolve e) FILES_TO_FIX).
Proof.
  intros Ha. split; [|split; [|split; [|split]]].
  - destruct (process_file_returns path w Ha) as (st & w' & H & _). eauto.
  - apply process_file_missing, Ha.
  - intros ex w1 [n Hn] Hread. unfold read_text in Hread. rewrite Hn in Hread.
    destruct n as [|f].
    + injection Hread as <- _. apply process_file_directory; assumption.
    + destruct (readable f) eqn:Hr.
      * destruct (text f) as [t|] eqn:Ht; [discriminate|].
        injection Hread as <- _. eapply process_file_undecodable; eassumption.
      * injection Hread as <- _. eapply process_file_unreadable; eassumption.
  - intros t ex w1 Hread Hfix Hwrite. unfold read_text in Hread.
    unfold write_text in Hwrite.
    destruct (fs w !! path) as [[|f]|] eqn:Hn; try discriminate.
    destruct (readable f) eqn:Hr; [|discriminate].
    destruct (text f) as [t'|] eqn:Ht; [|discriminate].
    injection Hread as ->.
    destruct (writable f) eqn:Hw; [discriminate|].
    injection Hwrite as <- _. eapply process_file_readonly; eassumption.
  - destruct (walk_lines e FILES_TO_FIX (after_banner w) Ha)
      as (sts & Hc & Hp & _).
    exists sts. eexists. rewrite (main_runs e w Ha).
    split; [reflexivity|]. split; [reflexivity|]. split; [|exact Hp].
    unfold logged. cbn [console]. rewrite Hc.
    unfold after_banner, logged. cbn [console].
    rewrite !statuses_app, statuses_status_lines. cbn.
    rewrite !app_nil_r. reflexivity.
Qed.

Lemma failures_are_contained_witness :
  accepts_all demo_world
  ∧ process_file "/repo/src/query/visitor/deduce_type_visitor.rs" demo_world
    = (Ok false,
       logged demo_world
         (Status Skipped "/repo/src/query/visitor/deduce_type_visitor.rs"))
  ∧ process_file "/repo/src/query/visitor/variable_visitor.rs" demo_world
    = (Ok false,
       logged demo_world
         (Status (Failed UnicodeDecodeError)
                 "/repo/src/query/visitor/variable_visitor.rs"))
  ∧ process_file "/repo/src/query/visitor/rewrite_visitor.rs" demo_world
    = (Ok false,
       logged demo_world
         (Status (Failed PermissionError)
                 "/repo/src/query/visitor/rewrite_visitor.rs"))
  ∧ exit_code (main demo_env demo_world) = 0%nat.
Proof.
  assert (Ha : accepts_all demo_world) by (intros l; reflexivity).
  split; [exact Ha|]. split; [|split; [|split]].
  - apply (failures_are_contained demo_env demo_world
             "/repo/src/query/visitor/deduce_type_visitor.rs" Ha).
    reflexivity.
  - apply (proj1 (proj2 (proj2
             (failures_are_contained demo_env demo_world
                "/repo/src/query/visitor/variable_visitor.rs" Ha)))
             UnicodeDecodeError demo_world).
    + eexists. reflexivity.
    + reflexivity.
  - apply (proj1 (proj2 (proj2 (proj2
             (failures_are_contained demo_env demo_world
                "/repo/src/query/visitor/rewrite_visitor.rs" Ha))))
             containers_input PermissionError demo_world).
    + reflexivity.
    + vm_compute. discriminate.
    + reflexivity.
  - destruct (proj2 (proj2 (proj2 (proj2
               (failures_are_contained demo_env demo_world
                  "/repo/src/expression/visitor.rs" Ha)))))
      as (sts & w' & _ & Hexit & _).
    exact Hexit.
Defined.

(** C6 as stated fails.  On a terminal with the encoding ASCII the title of
    the banner cannot be printed: the exception of [print] leaves [main]
    after the first line, and the exit code is 1.  The notice for a missing
    file and the notice of the handler are printed outside the [try] block,
    so there the exception leaves [process_file]: for the missing file, for
    the read-only file whose write was refused, and for the file that was
    written and could not be reported. *)
Lemma print_failure_escapes :
  main demo_env ascii_world
  = (Raised UnicodeEncodeError, logged ascii_world Rule)
  ∧ exit_code (main demo_env ascii_world) = 1%nat
  ∧ process_file "/repo/src/query/visitor/deduce_type_visitor.rs" ascii_world
    = (Raised UnicodeEncodeError, ascii_world)
  ∧ process_file "/repo/src/query/visitor/rewrite_visitor.rs" ascii_world
    = (Raised UnicodeEncodeError, ascii_world)
  ∧ process_file "/repo/src/expression/visitor.rs" ascii_world
    = (Raised UnicodeEncodeError,
       World (<["/repo/src/expression/visitor.rs" :=
                  Reg (File (Some scenario_output) true true)]> demo_fs)
             [] ["/repo/src/expression/visitor.rs"] ascii_stdout).
Proof.
  split; [reflexivity|]. split; [reflexivity|].
  split; [reflexivity|]. split; [vm_compute; reflexivity|].
  vm_compute. reflexivity.
Qed.

(** C7: when the transform returns the text of the file as it is,
    [process_file] opens nothing for writing, leaves the files as they are,
    prints that nothing changed and returns [False]; when the text differs
    it writes the new text, prints that the file was fixed and returns
    [True]; and it writes in no other case.  The notices are those of a
    standard output that takes them; that nothing is written without a
    change of the text holds of every standard output. *)
Theorem unchanged_file_not_written (path : string) (w : world) (f : file)
    (t : pystr) :
  fs w !! path = Some (Reg f) → readable f = true → text f = Some t →
  (accepts_all w → fix_expression_references t = t →
   process_file path w = (Ok false, logged w (Status NoChange path)))
  ∧ (accepts_all w → fix_expression_references t ≠ t → writable f = true →
     process_file path w
     = (Ok true,
        World (<[path := Reg (File (Some (fix_expression_references t)) true true)]>
                 (fs w))
              (console w ++ [Status Fixed path]) (written w ++ [path])
              (stdout w)))
  ∧ (∀ b w', process_file path w = (Ok b, w') →
     written w' ≠ written w ∨ fs w' ≠ fs w ∨ b = true →
     fix_expression_references t ≠ t).
Proof.
  intros Hn Hr Ht. split; [|split].
  - intros Ha Hfix. eapply process_file_unchanged; eassumption.
  - intros Ha Hfix Hw. eapply process_file_changed; eassumption.
  - intros b w' Hp Hdiff Hfix.
    destruct (process_file_unchanged_any path w f t Hn Hr Ht Hfix)
      as (Hb & Hfs & Hwr).
    rewrite Hp in Hb, Hfs, Hwr. cbn [fst snd] in *.
    destruct Hdiff as [H|[H|H]]; congruence.
Qed.

Lemma unchanged_file_not_written_witness :
  accepts_all demo_world
  ∧ process_file "/repo/src/query/visitor/find_visitor.rs" demo_world
    = (Ok false,
       logged demo_world
         (Status NoChange "/repo/src/query/visitor/find_visitor.rs")).
Proof.
  assert (Ha : accepts_all demo_world) by (intros l; reflexivity).
  split; [exact Ha|].
  apply (proj1 (unchanged_file_not_written
                  "/repo/src/query/visitor/find_visitor.rs" demo_world
                  (File (Some scenario_output) true true) scenario_output
                  eq_refl eq_refl eq_refl) Ha).
  reflexivity.
Defined.

(** C8: when standard output takes the lines of the script, the summary
    that [main] prints after the loop carries the number of status lines
    that say [Fixed], which is the number of paths on which [process_file]
    returned [True]; the other outcomes add nothing to it. *)
Theorem summary_counts_fixed (e : env) (w : world) :
  accepts_all w →
  ∃ sts w',
    main e w = (Ok tt, w')
    ∧ console w'
      = console w ++ [Rule; Title; Rule] ++ map status_line sts
        ++ [Rule; Summary (length (filter (λ sp, is_Fixed sp = true) sts)); Rule]
    ∧ map snd sts = map (resolve e) FILES_TO_FIX
    ∧ map is_Fixed sts = (walk e FILES_TO_FIX (after_banner w)).1
    ∧ length (filter (λ sp, is_Fixed sp = true) sts)
      = count_true (walk e FILES_TO_FIX (after_banner w)).1.
Proof.
  intros Ha.
  destruct (walk_lines e FILES_TO_FIX (after_banner w) Ha)
    as (sts & Hc & Hp & Hb & _).
  exists sts. eexists. rewrite (main_runs e w Ha).
  split; [reflexivity|]. split; [|split; [exact Hp|split; [symmetry; exact Hb|]]].
  - unfold logged. cbn [console]. rewrite Hc, Hb, count_true_is_Fixed.
    unfold after_banner, logged. cbn [console].
    rewrite <- !app_assoc. reflexivity.
  - rewrite Hb, count_true_is_Fixed. reflexivity.
Qed.

Lemma summary_counts_fixed_witness :
  accepts_all demo_world
  ∧ ∃ sts w',
      main demo_env demo_world = (Ok tt, w')
      ∧ console w'
        = console demo_world ++ [Rule; Title; Rule] ++ map status_line sts
          ++ [Rule; Summary (length (filter (λ sp, is_Fixed sp = true) sts)); Rule]
      ∧ map snd sts = map (resolve demo_env) FILES_TO_FIX
      ∧ map is_Fixed sts = (walk demo_env FILES_TO_FIX (after_banner demo_world)).1
      ∧ length (filter (λ sp, is_Fixed sp = true) sts)
        = count_true (walk demo_env FILES_TO_FIX (after_banner demo_world)).1.
Proof.
  assert (Ha : accepts_all demo_world) by (intros l; reflexivity).
  split; [exact Ha|]. exact (summary_counts_fixed demo_env demo_world Ha).
Defined.

(** C3 as stated fails: the transform keeps the import through [pkg] and the
    return type [Expression]; with the import path [crate] it renames the
    import and still keeps the return type. *)
Lemma scenario_differs :
  fix_expression_references scenario_input = scenario_output
  ∧ scenario_output ≠ scenario_expected
  ∧ fix_expression_references scenario_input_crate = scenario_output_crate
  ∧ scenario_output_crate ≠ scenario_expected_crate.
Proof.
  split; [reflexivity|]. split; [vm_compute; discriminate|].
  split; [reflexivity|]. vm_compute. discriminate.
Qed.

(** C3, as the code has it: of the scenario file, the transform renames the
    borrowed parameter type and the variant constructor and keeps the import
    and the return type; [process_file], on a standard output that takes its
    notices, writes that text back and reports the file as fixed, and a
    second run on the result reports no change. *)
Theorem scenario_runs (path : string) (w : world) (f : file) :
  accepts_all w →
  fs w !! path = Some (Reg f) → readable f = true → writable f = true →
  text f = Some scenario_input →
  fix_expression_references scenario_input = scenario_output
  ∧ ∃ w1,
      process_file path w = (Ok true, w1)
      ∧ fs w1 = <[path := Reg (File (Some scenario_output) true true)]> (fs w)
      ∧ console w1 = console w ++ [Status Fixed path]
      ∧ written w1 = written w ++ [path]
      ∧ process_file path w1 = (Ok false, logged w1 (Status NoChange path)).
Proof.
  intros Ha Hn Hr Hw Ht.
  assert (Hfix : fix_expression_references scenario_input = scenario_output)
    by reflexivity.
  split; [exact Hfix|]. eexists. split.
  - eapply process_file_changed; try eassumption.
    rewrite Hfix. vm_compute. discriminate.
  - rewrite Hfix. cbn [fs console written].
    split; [reflexivity|]. split; [reflexivity|]. split; [reflexivity|].
    eapply process_file_unchanged.
    + exact Ha.
    + cbn [fs]. apply lookup_insert_eq.
    + reflexivity.
    + reflexivity.
    + reflexivity.
Qed.

Lemma scenario_runs_witness :
  fix_expression_references scenario_input = scenario_output
  ∧ ∃ w1,
      process_file "/repo/src/expression/visitor.rs" demo_world = (Ok true, w1)
      ∧ fs w1 = <["/repo/src/expression/visitor.rs" :=
                    Reg (File (Some scenario_output) true true)]> (fs demo_world)
      ∧ console w1
        = console demo_world ++ [Status Fixed "/repo/src/expression/visitor.rs"]
      ∧ written w1 = written demo_world ++ ["/repo/src/expression/visitor.rs"]
      ∧ process_file "/repo/src/expression/visitor.rs" w1
        = (Ok false, logged w1 (Status NoChange "/repo/src/expression/visitor.rs")).
Proof.
  apply (scenario_runs "/repo/src/expression/visitor.rs" demo_world
           (File (Some scenario_input) true true));
    [intros l; reflexivity | reflexivity..].
Defined.

(** * What the output cannot hold *)

Section Remains.

Implicit Types (w s t sp : pystr).

Lemma quiet_Plain_occurs w s :
  nonempty w = true → quiet (Plain w) s = true → occurs w s = false.
Proof.
  intros Hw Hq. destruct (occurs w s) eqn:E; [|reflexivity]. exfalso.
  apply occurs_spec in E as (p & q & ->).
  assert (F : fires (Plain w) (w ++ q) = false).
  { apply (quiet_fires _ _ p _ Hq eq_refl). destruct w; [discriminate | discriminate]. }
  rewrite fires_Plain in F. discriminate.
Qed.

Lemma quiet_Spaced_occurs w1 w2 sp s :
  shape_wf (Spaced w1 w2) = true → forallb is_space sp = true →
  quiet (Spaced w1 w2) s = true → occurs (w1 ++ sp ++ w2) s = false.
Proof.
  intros [Hw1 Hw2]%andb_true_iff Hsp Hq.
  destruct (occurs _ s) eqn:E; [|reflexivity]. exfalso.
  apply occurs_spec in E as (p & q & ->).
  assert (F : fires (Spaced w1 w2) (w1 ++ sp ++ w2 ++ q) = false).
  { apply (quiet_fires _ _ p _ Hq); [rewrite <- !app_assoc; reflexivity|].
    destruct w1; discriminate. }
  rewrite fires_Spaced in F by assumption. discriminate.
Qed.

Lemma fix_quiet_at i sh repl s :
  crules !! i = Some (sh, repl) →
  quiet sh (fix_expression_references s) = true.
Proof.
  intros H. pose proof (fix_quiet s) as Hall.
  apply (Forall_lookup_1 _ _ _ _ Hall) in H. apply H.
Qed.

End Remains.

(** * A text with one occurrence *)

Section Single.

Implicit Types (s t P Q p q w : pystr) (sh : shape).

(** A rule whose context holds at no occurrence leaves the text as it is. *)
Lemma ssub_untriggered sh repl s :
  rule_ctx_ok (sh, repl) = true →
  (∀ pre post, s = pre ++ Expression ++ post →
               rule_holds (sh, repl) pre post = false) →
  ssub sh repl s = s.
Proof.
  intros Hr H. pose proof Hr as [Hrule _]%andb_true_iff.
  apply ssub_quiet; [exact (shk_wf _ _ Hrule)|].
  apply quiet_intro. intros a b Hs.
  destruct (fires sh b) eqn:F; [|reflexivity].
  apply fires_Some in F as [r F].
  destruct (context_sound _ _ _ _ Hr F) as (p & q & -> & Hpq).
  rewrite app_assoc in Hs. specialize (Hpq a).
  rewrite (H _ _ Hs) in Hpq. discriminate.
Qed.

Lemma run_no_occurrence rs s :
  Forall (λ r, rule_ctx_ok r = true) rs → occurs Expression s = false →
  run rs s = s.
Proof.
  intros Hrs Hs. induction Hrs as [|[sh repl] rs Hr _ IH]; [reflexivity|].
  unfold run in *. simpl. rewrite ssub_untriggered; [exact IH | exact Hr |].
  intros pre post Hpp. exfalso.
  assert (occurs Expression s = true) by (apply occurs_spec; eauto).
  congruence.
Qed.

Lemma ssub_copy_prefix sh repl u rest :
  shape_wf sh = true →
  (∀ a b, u = a ++ b → b ≠ [] → smatch sh (b ++ rest) = None) →
  ssub sh repl (u ++ rest) = u ++ ssub sh repl rest.
Proof.
  intros Hwf. induction u as [|c u IH]; intros H; [reflexivity|].
  simpl. rewrite ssub_copy; [|assumption|].
  - f_equal. apply IH. intros a b -> Hb. apply (H (c :: a)); [reflexivity | assumption].
  - apply (H [] (c :: u)); [reflexivity | discriminate].
Qed.

Lemma proper_suffix_head l1 l2 :
  l1 ≠ [] → Expression = l1 ++ l2 → head l2 ≠ Some 69.
Proof.
  intros Hl H. destruct l1 as [|c0 l1]; [congruence|]. clear Hl.
  cbv in H. injection H as _ H.
  repeat (destruct l1 as [|? l1];
          [simpl in H; subst l2; simpl; try discriminate; intros [=]
          | simpl in H; try discriminate; injection H as _ H]).
Qed.

Lemma Expr_split l m q Q :
  Expr = l ++ m → Expression ++ q = m ++ Q →
  (l = [] ∧ Q = py "ession" ++ q) ∨ (m = [] ∧ Q = Expression ++ q).
Proof.
  change Expr with [69; 120; 112; 114].
  change Expression with ([69; 120; 112; 114] ++ py "ession").
  intros Hm HEq. destruct l as [|c1 l]; simpl in Hm.
  - subst m. left. split; [reflexivity|].
    rewrite <- app_assoc in HEq. apply app_inv_head in HEq. congruence.
  - injection Hm as <- Hm. destruct l as [|c2 l]; simpl in Hm;
      [subst m; discriminate|].
    injection Hm as <- Hm. destruct l as [|c3 l]; simpl in Hm;
      [subst m; discriminate|].
    injection Hm as <- Hm. destruct l as [|c4 l]; simpl in Hm;
      [subst m; discriminate|].
    injection Hm as <- Hm. destruct l as [|c5 l]; simpl in Hm; [|discriminate].
    subst m. right. split; [reflexivity|]. symmetry. exact HEq.
Qed.

(** Renaming the only occurrence leaves no occurrence. *)
Lemma renamed_no_occurrence P Q :
  (∀ p q, P ++ Expression ++ Q = p ++ Expression ++ q → p = P) →
  word_here Q = false →
  occurs Expression (P ++ Expr ++ Q) = false.
Proof.
  intros Huniq HQ.
  destruct (occurs _ _) eqn:E; [|reflexivity]. exfalso.
  apply occurs_spec in E as (p & q & E).
  assert (Hlen : ∀ p q, P ++ Expression ++ Q = p ++ Expression ++ q →
                        length p = length P) by (intros ? ? ->%Huniq; reflexivity).
  rewrite (app_assoc p) in E.
  apply app_cut in E as [(l & HP & Hq)|(l & Hl & HpE & HQl)].
  - specialize (Hlen p (l ++ Expression ++ Q)).
    rewrite HP, <- !app_assoc in Hlen. specialize (Hlen eq_refl).
    rewrite !length_app in Hlen. cbv [Expression] in Hlen. simpl in Hlen. lia.
  - apply app_cut in HpE as [(l' & Hp & Hl')|(l' & Hl'' & HP & HE)].
    + subst l. rewrite <- app_assoc in HQl.
      apply app_cut in HQl as [(m & Hm & HEq)|(m & Hm & Hl'm & HQm)].
      * destruct (Expr_split _ _ _ _ Hm HEq) as [[_ ->]|[_ ->]].
        -- discriminate.
        -- specialize (Hlen (P ++ Expression) q).
           rewrite <- !app_assoc in Hlen. specialize (Hlen eq_refl).
           rewrite length_app in Hlen. cbv [Expression] in Hlen. simpl in Hlen. lia.
      * subst Q. specialize (Hlen (P ++ Expression ++ m) q).
        rewrite <- !app_assoc in Hlen. specialize (Hlen eq_refl).
        rewrite !length_app in Hlen. cbv [Expression] in Hlen. simpl in Hlen. lia.
    + apply (proper_suffix_head l' l Hl'' HE).
      destruct l as [|c l]; [congruence|].
      cbv in HQl. injection HQl as <- _. reflexivity.
Qed.

End Single.

Section SingleRule.

Implicit Types (s t P Q p q w x y : pystr) (sh : shape).

Variables P Q : pystr.
Hypothesis unique :
  ∀ p q, P ++ Expression ++ Q = p ++ Expression ++ q → p = P.

Lemma same_length p q :
  P ++ Expression ++ Q = p ++ Expression ++ q → length p = length P.
Proof. intros ->%unique. reflexivity. Qed.

(** A simple rule whose context holds at the only occurrence renames it and
    changes nothing else. *)
Lemma simple_rule_renames sh repl :
  rule_ctx_ok (sh, repl) = true → simple_rule (sh, repl) = true →
  rule_holds (sh, repl) P Q = true →
  ssub sh repl (P ++ Expression ++ Q) = P ++ Expr ++ Q.
Proof.
  intros Hok Hsimple Hholds.
  pose proof Hok as [Hrule _]%andb_true_iff.
  pose proof (shk_wf _ _ Hrule) as Hwf.
  unfold simple_rule, rule_holds in *. cbn [fst snd] in *.
  assert (Hshape : ∃ w x y, lit_of sh = Some w
            ∧ split_at Expression w = Some (x, y)
            ∧ repl = x ++ Expr ++ y
            ∧ context_of sh = Some (Context x false y (is_bounded sh))).
  { destruct sh as [w|w|w1 w2]; [| |discriminate];
      cbn [context_of] in *;
      (destruct (split_at Expression w) as [[x y]|] eqn:E; [|discriminate]);
      apply list_eqb_eq in Hsimple; exists w, x, y; repeat split; assumption. }
  destruct Hshape as (w & x & y & Hlit & Hsplit & -> & Hctx).
  apply split_at_Some in Hsplit.
  rewrite Hctx in Hholds. unfold ctx_holds in Hholds.
  cbn [before gap after at_end] in Hholds.
  apply andb_true_iff in Hholds as [[Hx Hy]%andb_true_iff Hend].
  apply suffix_b_spec in Hx as [P' HP]. apply prefix_b_spec in Hy as [Q' HQ].
  rewrite HQ, drop_app_length in Hend.
  assert (Hfire : smatch sh (w ++ Q') = Some Q').
  { destruct sh as [w'|w'|]; [| |discriminate]; injection Hlit as ->.
    - apply smatch_Plain. reflexivity.
    - apply smatch_Bounded. split; [reflexivity|].
      cbn in Hend. apply negb_true_iff in Hend.
      unfold rule_ok in Hrule. cbn [fst snd] in Hrule.
      apply andb_true_iff in Hrule as [_ Hlast].
      unfold at_boundary. rewrite Hlast, Hend. reflexivity. }
  assert (Hlits : ∀ b r, smatch sh b = Some r → b = w ++ r).
  { intros b r H. destruct sh as [w'|w'|]; [| |discriminate]; injection Hlit as ->.
    - apply smatch_Plain in H. exact H.
    - apply smatch_Bounded in H as [H _]. exact H. }
  assert (Hs : P ++ Expression ++ Q = P' ++ w ++ Q').
  { rewrite HP, HQ, Hsplit, <- !app_assoc. reflexivity. }
  rewrite Hs. rewrite ssub_copy_prefix; [|assumption|].
  - rewrite (ssub_fire _ _ Hwf _ _ Hfire).
    rewrite ssub_quiet; [rewrite HP, HQ, <- !app_assoc; reflexivity | assumption |].
    apply quiet_intro. intros a b HQ'.
    destruct (fires sh b) eqn:F; [|reflexivity]. exfalso.
    apply fires_Some in F as [r F]. apply Hlits in F.
    pose proof (same_length (P' ++ w ++ a ++ x) (y ++ r)) as Hlen.
    rewrite Hs, HQ', F, Hsplit, <- !app_assoc in Hlen.
    specialize (Hlen eq_refl). rewrite HP, !length_app in Hlen.
    cbv [Expression] in Hlen. simpl in Hlen. lia.
  - intros a b HP' Hb.
    destruct (smatch sh (b ++ w ++ Q')) as [r|] eqn:F; [|reflexivity]. exfalso.
    apply Hlits in F.
    pose proof (same_length (a ++ x) (y ++ r)) as Hlen.
    rewrite Hs, HP', <- !app_assoc, F, Hsplit, <- !app_assoc in Hlen.
    specialize (Hlen eq_refl). rewrite HP, HP', !length_app in Hlen.
    destruct b; [congruence|]. simpl in Hlen. lia.
Qed.

(** The simple rules in turn: the first whose context holds renames the
    occurrence, and the others change nothing. *)
Lemma run_simple rs :
  Forall (λ r, rule_ctx_ok r && simple_rule r && on_context after_nonword r = true) rs →
  run rs (P ++ Expression ++ Q)
  = if existsb (λ r, rule_holds r P Q) rs then P ++ Expr ++ Q
    else P ++ Expression ++ Q.
Proof.
  induction 1 as [|[sh repl] rs Hr Hrs IH]; [reflexivity|].
  apply andb_true_iff in Hr as [[Hok Hsimple]%andb_true_iff Hafter].
  change (run ((sh, repl) :: rs) (P ++ Expression ++ Q))
    with (run rs (ssub sh repl (P ++ Expression ++ Q))).
  cbn [existsb]. destruct (rule_holds (sh, repl) P Q) eqn:Hh.
  - rewrite simple_rule_renames by assumption. cbn [orb].
    apply run_no_occurrence.
    + eapply Forall_impl; [exact Hrs|]. cbn beta.
      intros r [[H _]%andb_true_iff _]%andb_true_iff. exact H.
    + apply renamed_no_occurrence; [exact unique|].
      destruct (word_here Q) eqn:HQ; [|reflexivity]. exfalso.
      unfold rule_holds, on_context in *. cbn [fst] in *.
      destruct (context_of sh) as [c|]; [|discriminate].
      rewrite (after_nonword_blocks c P Q Hafter HQ) in Hh. discriminate.
  - rewrite ssub_untriggered; [exact IH | exact Hok |].
    intros pre post Hs. pose proof (unique _ _ Hs) as ->.
    apply app_inv_head in Hs. apply app_inv_head in Hs. subst post. exact Hh.
Qed.

End SingleRule.

(** * White space inside a match *)

Section Gap.

Implicit Types (a b sp k w : pystr) (sh : shape).

Lemma quiet_gap a sp b sh :
  forallb is_space sp = true → gap_quiet a b sh = true →
  quiet sh (a ++ sp ++ b) = true.
Proof.
  intros Hsp. unfold gap_quiet.
  destruct (lit_of sh) as [w|] eqn:Hlit; [|discriminate].
  intros [[Hw Ha]%andb_true_iff Hb]%andb_true_iff.
  assert (Hfirst : first_lit sh = w)
    by (destruct sh; simpl in *; congruence).
  apply quiet_app; [|apply quiet_app; [|exact Hb]].
  - intros d k Hd Hk.
    destruct (fires sh (k ++ sp ++ b)) eqn:F; [|reflexivity]. exfalso.
    apply fires_Some in F as [r F]. apply smatch_first_lit in F as [r' F].
    rewrite Hfirst in F. symmetry in F. apply comparable_app in F.
    unfold no_start_in in Ha. rewrite forallb_forall in Ha.
    assert (Hin : In k (tails_from 0 a)).
    { rewrite <- (take_drop d a), Hd. apply tails_from_In; [lia | assumption]. }
    pose proof (Ha k Hin) as Hn. rewrite F in Hn. discriminate.
  - intros d k Hd Hk.
    destruct (fires sh (k ++ b)) eqn:F; [|reflexivity]. exfalso.
    apply fires_Some in F as [r F]. apply smatch_first_lit in F as [r' F].
    rewrite Hfirst in F.
    assert (Hks : forallb is_space k = true).
    { rewrite <- (take_drop d sp), forallb_app in Hsp.
      apply andb_true_iff in Hsp as [_ Hsp]. rewrite Hd in Hsp. exact Hsp. }
    destruct k as [|c k]; [congruence|]. destruct w as [|x w]; [discriminate|].
    simpl in F, Hks, Hw. injection F as -> _.
    apply andb_true_iff in Hks as [Hc _]. rewrite Hc in Hw. discriminate.
Qed.

Lemma run_app rs1 rs2 s : run (rs1 ++ rs2) s = run rs2 (run rs1 s).
Proof. apply fold_left_app. Qed.

Lemma fix_two_runs s :
  fix_expression_references s = run last_rules (run first_rules s).
Proof.
  rewrite fix_run, <- run_app. unfold first_rules, last_rules.
  rewrite take_drop. reflexivity.
Qed.

Lemma first_rules_quiet_gap a b sp :
  forallb (λ r, gap_quiet a b r.1) first_rules = true →
  forallb is_space sp = true →
  run first_rules (a ++ sp ++ b) = a ++ sp ++ b.
Proof.
  intros Hall Hsp. apply run_quiet.
  assert (Hwf : Forall (λ r, shape_wf r.1 = true) first_rules).
  { unfold first_rules. cbn. repeat constructor. }
  induction Hwf as [|r rs Hr _ IH]; [constructor|].
  simpl in Hall. apply andb_true_iff in Hall as [H1 H2].
  constructor; [|auto]. split; [exact Hr|]. apply quiet_gap; assumption.
Qed.

Lemma last_rules_eq :
  last_rules
  = [ (Spaced (py "(Expression,") (py "Expression)"), py "(Expr, Expr)");
      (Spaced (py "&[(Expression,") (py "Expression)]"), py "&[(Expr, Expr)]");
      (Spaced (py "&[String,") (py "Expression]"), py "&[(String, Expr)]") ].
Proof. vm_compute. reflexivity. Qed.

Lemma pair_rule_fires sp r :
  forallb is_space sp = true →
  ssub (Spaced (py "(Expression,") (py "Expression)")) (py "(Expr, Expr)")
       (py "(Expression," ++ sp ++ py "Expression)" ++ r)
  = py "(Expr, Expr)"
    ++ ssub (Spaced (py "(Expression,") (py "Expression)")) (py "(Expr, Expr)") r.
Proof.
  intros Hsp. apply ssub_fire; [reflexivity|].
  apply smatch_Spaced_intro; [reflexivity | assumption].
Qed.

Lemma pair_rule_fires_end sp :
  forallb is_space sp = true →
  ssub (Spaced (py "(Expression,") (py "Expression)")) (py "(Expr, Expr)")
       (py "(Expression," ++ sp ++ py "Expression)")
  = py "(Expr, Expr)".
Proof.
  intros Hsp. pose proof (pair_rule_fires sp [] Hsp) as H.
  rewrite app_nil_r in H. rewrite H. reflexivity.
Qed.

(** The pair rule writes one space after the comma, whatever white space
    stood there. *)
Lemma pair_normalised sp :
  forallb is_space sp = true →
  fix_expression_references (pair_of sp) = py "(Expr, Expr)".
Proof.
  intros Hsp. rewrite fix_two_runs. unfold pair_of.
  rewrite first_rules_quiet_gap; [|vm_compute; reflexivity|assumption].
  rewrite last_rules_eq. unfold run. cbn [fold_left fst snd].
  rewrite pair_rule_fires_end by assumption.
  vm_compute. reflexivity.
Qed.

Lemma slice_pair_fires sp :
  forallb is_space sp = true →
  ssub (Spaced (py "(Expression,") (py "Expression)")) (py "(Expr, Expr)")
       (py "&[(Expression," ++ sp ++ py "Expression)]")
  = py "&[(Expr, Expr)]".
Proof.
  intros Hsp.
  change (py "&[(Expression," ++ sp ++ py "Expression)]")
    with (38 :: 91 :: py "(Expression," ++ sp ++ py "Expression)" ++ py "]").
  rewrite ssub_copy by reflexivity. rewrite ssub_copy by reflexivity.
  rewrite pair_rule_fires by assumption. reflexivity.
Qed.

Lemma slice_normalised sp :
  forallb is_space sp = true →
  fix_expression_references (slice_of sp) = py "&[(Expr, Expr)]".
Proof.
  intros Hsp. rewrite fix_two_runs. unfold slice_of.
  rewrite first_rules_quiet_gap; [|vm_compute; reflexivity|assumption].
  rewrite last_rules_eq. unfold run. cbn [fold_left fst snd].
  rewrite slice_pair_fires by assumption.
  vm_compute. reflexivity.
Qed.

End Gap.

Lemma holds_word_here rs P Q :
  forallb (on_context after_nonword) rs = true →
  existsb (λ r, rule_holds r P Q) rs = true → word_here Q = false.
Proof.
  intros Hall Hex. destruct (word_here Q) eqn:HQ; [|reflexivity]. exfalso.
  apply existsb_exists in Hex as (r & Hin & Hr).
  rewrite forallb_forall in Hall. specialize (Hall r Hin).
  unfold rule_holds, on_context in *.
  destruct (context_of r.1) as [c|]; [|discriminate].
  rewrite (after_nonword_blocks c P Q Hall HQ) in Hr. discriminate.
Qed.

(** C4, as the code has it.  In a text with one occurrence of [Expression],
    placed where the pattern of an import, borrow, variant or container rule
    matches, the transform puts [Expr] for that occurrence and leaves every
    other character as it is.  The pair [(Expression,<white space>Expression)]
    becomes [(Expr, Expr)], also inside [&[...]]: both identifiers are
    renamed and the white space after the comma is replaced by one space. *)
Theorem single_instance_renamed (P Q sp : pystr) :
  (every_occurrence (only_at P) (P ++ Expression ++ Q) = true →
   existsb (λ r, rule_holds r P Q) first_rules = true →
   fix_expression_references (P ++ Expression ++ Q) = P ++ Expr ++ Q)
  ∧ (forallb is_space sp = true →
     fix_expression_references (pair_of sp) = py "(Expr, Expr)"
     ∧ fix_expression_references (slice_of sp) = py "&[(Expr, Expr)]").
Proof.
  split.
  - intros Honly Hholds.
    assert (Hunique : ∀ p q, P ++ Expression ++ Q = p ++ Expression ++ q → p = P).
    { intros p q Hs. rewrite every_occurrence_spec in Honly.
      apply list_eqb_eq. apply (Honly p q Hs). }
    rewrite fix_two_runs, (run_simple P Q Hunique).
    + rewrite Hholds. apply run_no_occurrence.
      * unfold last_rules. cbn. repeat constructor.
      * apply renamed_no_occurrence; [exact Hunique|].
        apply (holds_word_here first_rules P Q); [vm_compute; reflexivity|].
        exact Hholds.
    + unfold first_rules. cbn. repeat constructor.
  - intros Hsp. split; [apply pair_normalised | apply slice_normalised];
      assumption.
Qed.

Lemma single_instance_renamed_witness :
  (every_occurrence (only_at (py "fn f(x: &"))
     (py "fn f(x: &" ++ Expression ++ py ") -> bool { true }") = true
   ∧ existsb (λ r, rule_holds r (py "fn f(x: &") (py ") -> bool { true }"))
       first_rules = true
   ∧ fix_expression_references
       (py "fn f(x: &" ++ Expression ++ py ") -> bool { true }")
     = py "fn f(x: &" ++ Expr ++ py ") -> bool { true }")
  ∧ (forallb is_space (newline ++ py "    ") = true
     ∧ fix_expression_references (pair_of (newline ++ py "    "))
       = py "(Expr, Expr)").
Proof.
  split.
  - split; [reflexivity|]. split; [reflexivity|].
    apply (proj1 (single_instance_renamed
                    (py "fn f(x: &") (py ") -> bool { true }") []));
      reflexivity.
  - split; [reflexivity|].
    apply (proj2 (single_instance_renamed [] [] (newline ++ py "    "))).
    reflexivity.
Defined.

(** C4 as stated fails: in the pair without a space the transform writes a
    space that the input does not have; and the last rule, whose pattern has
    no parentheses, writes parentheses around what it matches and leaves the
    slice of pairs with [String] as it is. *)
Lemma pair_whitespace_changed :
  fix_expression_references (py "(Expression,Expression)") = py "(Expr, Expr)"
  ∧ rename_only (py "(Expression,Expression)") = py "(Expr,Expr)"
  ∧ fix_expression_references (py "(Expression,Expression)")
    ≠ rename_only (py "(Expression,Expression)")
  ∧ fix_expression_references (py "&[String, Expression]")
    = py "&[(String, Expr)]"
  ∧ fix_expression_references (py "&[(String, Expression)]")
    = py "&[(String, Expression)]".
Proof.
  split; [reflexivity|]. split; [reflexivity|].
  split; [vm_compute; discriminate|]. split; reflexivity.
Qed.

(** * A block of text in its place *)

Section Block.

Implicit Types (u v k w r x y m B : pystr) (sh : shape).

(** A match that starts before a block out of reach ends before it, and it
    is the same match whatever follows with the first character of the
    block. *)
Lemma match_before_block sh B u out r :
  shape_wf sh = true → run_in_ok sh B = true → B ≠ [] → u ≠ [] →
  smatch sh (u ++ B ++ out) = Some r →
  ∃ u2, r = u2 ++ B ++ out
        ∧ ∀ y, head y = head B → smatch sh (u ++ y) = Some (u2 ++ y).
Proof.
  intros Hwf Hok HB Hu H.
  assert (Hhead : ∀ l y, head y = head B →
                         head (l ++ y) = head (l ++ B ++ out)).
  { intros [|c l] y Hy; [|reflexivity]. simpl.
    rewrite head_app_nonempty by assumption. exact Hy. }
  assert (Hlen : (1 ≤ length u)%nat) by (destruct u; [congruence | simpl; lia]).
  destruct sh as [w|w|w1 w2]; simpl in Hok.
  - apply smatch_Plain in H.
    apply app_cut in H as [(l & -> & ->)|(l & Hl & -> & Heq)].
    + exists l. split; [reflexivity|]. intros y _.
      apply smatch_Plain. rewrite <- app_assoc. reflexivity.
    + exfalso. eapply (clash_free_spec _ 1 B u l); eauto.
  - apply smatch_Bounded in H as [H Hbd].
    apply app_cut in H as [(l & -> & ->)|(l & Hl & -> & Heq)].
    + exists l. split; [reflexivity|]. intros y Hy.
      apply smatch_Bounded. split; [rewrite <- app_assoc; reflexivity|].
      rewrite <- Hbd. apply at_boundary_head, Hhead, Hy.
    + exfalso. eapply (clash_free_spec _ 1 B u l); eauto.
  - apply andb_true_iff in Hok as [[Hc1 Hsp]%andb_true_iff Hc2].
    apply andb_true_iff in Hwf as [_ Hw2].
    apply smatch_Spaced_inv in H as (sp & H & Hspaces).
    apply app_cut in H as [(l & -> & H)|(l & Hl & -> & Heq)].
    + symmetry in H. apply app_cut in H as [(l2 & -> & H)|(l2 & Hl2 & -> & Heq)].
      * symmetry in H. apply app_cut in H as [(l3 & -> & ->)|(l3 & Hl3 & -> & Heq)].
        -- exists l3. split; [reflexivity|]. intros y _.
           rewrite <- !app_assoc. apply smatch_Spaced_intro; assumption.
        -- exfalso. eapply (clash_free_spec _ 0 B l2 l3); eauto. lia.
      * exfalso. rewrite forallb_app in Hspaces.
        apply andb_true_iff in Hspaces as [_ Hs2].
        apply (forallb_space_head l2 (w2 ++ r) B); try assumption.
        rewrite <- Heq. apply head_app_nonempty. assumption.
    + exfalso. eapply (clash_free_spec _ 1 B u l); eauto.
Qed.

Lemma no_start_inside sh k v :
  negb (comparable (first_lit sh) k) = true → smatch sh (k ++ v) = None.
Proof.
  intros Hk. destruct (smatch sh (k ++ v)) as [r|] eqn:F; [|reflexivity].
  exfalso. apply smatch_first_lit in F as [r' F].
  symmetry in F. apply comparable_app in F. rewrite F in Hk. discriminate.
Qed.

Lemma no_start_in_spec sh y v :
  no_start_in (first_lit sh) y = true →
  ∀ a b, y = a ++ b → b ≠ [] → smatch sh (b ++ v) = None.
Proof.
  unfold no_start_in. rewrite forallb_forall. intros H a b -> Hb.
  apply no_start_inside. apply H. apply tails_from_In; [lia | assumption].
Qed.

Section Before.

Variable sh : shape.
Variable repl : pystr.
Variable B : pystr.
Variable F : pystr → pystr.
Hypothesis sh_wf : shape_wf sh = true.
Hypothesis B_reach : run_in_ok sh B = true.
Hypothesis B_nonempty : B ≠ [].
Hypothesis at_block : ∀ v, ssub sh repl (B ++ v) = F v.

(** The scan of the text before the block does not depend on what follows
    the block. *)
Lemma scan_before_block n : ∀ u,
  (length u ≤ n)%nat →
  ∃ u', ∀ v, ssub sh repl (u ++ B ++ v) = u' ++ F v.
Proof.
  induction n as [|n IH]; intros u Hlen.
  - destruct u; [|simpl in Hlen; lia]. exists []. exact at_block.
  - destruct u as [|c t]; [exists []; exact at_block|].
    destruct (smatch sh ((c :: t) ++ B ++ [])) as [r|] eqn:E.
    + destruct (match_before_block sh B (c :: t) [] r sh_wf B_reach
                  B_nonempty ltac:(discriminate) E) as (u2 & _ & Hy).
      assert (Hshort : (length u2 ≤ n)%nat).
      { pose proof (smatch_shorter _ _ _ sh_wf (Hy B eq_refl)) as Hs.
        rewrite !length_app in Hs. simpl in Hs, Hlen. lia. }
      destruct (IH u2 Hshort) as (u2' & Hu2).
      exists (repl ++ u2'). intros v.
      rewrite (ssub_fire _ _ sh_wf _ (u2 ++ B ++ v)).
      * rewrite Hu2, <- app_assoc. reflexivity.
      * apply (Hy (B ++ v)). apply head_app_nonempty. assumption.
    + destruct (IH t ltac:(simpl in Hlen; lia)) as (t' & Ht).
      exists (c :: t'). intros v.
      change ((c :: t) ++ B ++ v) with (c :: (t ++ B ++ v)).
      rewrite ssub_copy; [rewrite Ht; reflexivity | assumption |].
      destruct (smatch sh (c :: t ++ B ++ v)) as [r|] eqn:E'; [|reflexivity].
      exfalso.
      destruct (match_before_block sh B (c :: t) v r sh_wf B_reach B_nonempty
                  ltac:(discriminate) E') as (u2 & _ & Hy).
      rewrite (Hy (B ++ [])) in E; [discriminate|].
      apply head_app_nonempty. assumption.
Qed.

End Before.

(** A rule leaves a block out of its reach where it is, and scans what
    follows it as it would scan it alone. *)
Lemma block_step sh repl B u :
  shape_wf sh = true → inert B sh = true → B ≠ [] →
  ∃ u', ∀ v, ssub sh repl (u ++ B ++ v) = u' ++ B ++ ssub sh repl v.
Proof.
  intros Hwf [Hreach Hin]%andb_true_iff HB.
  apply (scan_before_block sh repl B (λ v, B ++ ssub sh repl v)
           Hwf Hreach HB) with (n := length u); [|lia].
  intros v. apply ssub_copy_prefix; [assumption|].
  apply no_start_in_spec. assumption.
Qed.

Lemma block_run rs B :
  Forall (λ rk, shape_wf rk.1 = true ∧ inert B rk.1 = true) rs → B ≠ [] →
  ∀ u, ∃ u', ∀ v, run rs (u ++ B ++ v) = u' ++ B ++ run rs v.
Proof.
  intros Hrs HB. induction Hrs as [|[sh repl] rs [Hwf Hin] _ IH]; intros u.
  - exists u. reflexivity.
  - destruct (block_step sh repl B u Hwf Hin HB) as (u1 & H1).
    destruct (IH u1) as (u2 & H2).
    exists u2. intros v.
    change (run ((sh, repl) :: rs) (u ++ B ++ v))
      with (run rs (ssub sh repl (u ++ B ++ v))).
    rewrite H1, H2. reflexivity.
Qed.

(** A rule that matches the part [m] of a block rewrites that part in its
    place. *)
Lemma block_rewrite sh repl x m y u :
  shape_wf sh = true → rewrites_in sh x m y = true →
  (∀ v, smatch sh (m ++ v) = Some v) →
  ∃ u', ∀ v, ssub sh repl (u ++ (x ++ m ++ y) ++ v)
             = u' ++ (x ++ repl ++ y) ++ ssub sh repl v.
Proof.
  intros Hwf [[Hreach Hx]%andb_true_iff Hy]%andb_true_iff Hm.
  assert (HB : x ++ m ++ y ≠ []).
  { pose proof (Hm []) as Hm0.
    apply smatch_consumes in Hm0 as (m' & Hm' & Hne); [|assumption].
    rewrite !app_nil_r in Hm'. subst m'.
    destruct x; [|discriminate]. destruct m; [congruence | discriminate]. }
  apply (scan_before_block sh repl (x ++ m ++ y)
           (λ v, (x ++ repl ++ y) ++ ssub sh repl v) Hwf Hreach HB)
    with (n := length u); [|lia].
  intros v. rewrite <- !app_assoc.
  rewrite ssub_copy_prefix; [|assumption|].
  - rewrite (ssub_fire _ _ Hwf _ (y ++ v)) by apply Hm.
    rewrite ssub_copy_prefix; [reflexivity | assumption |].
    apply no_start_in_spec. assumption.
  - intros a b Hab Hb.
    pose proof (no_start_inside sh (b ++ m ++ y) v) as Hnone.
    rewrite <- !app_assoc in Hnone. apply Hnone.
    unfold no_start_at_first in Hx. rewrite forallb_forall in Hx.
    specialize (Hx (length a)).
    rewrite Hab, <- app_assoc, drop_app_length in Hx. apply Hx.
    apply in_seq. rewrite length_app. destruct b; [congruence|]. simpl. lia.
Qed.

End Block.

Lemma crules_ok : Forall (λ r, rule_ok r = true) crules.
Proof.
  eapply Forall_impl; [apply rule_ctx_ok_crules|].
  intros r [H _]%andb_true_iff. exact H.
Qed.

Lemma forallb_Forall_inert B rs :
  Forall (λ r, rule_ok r = true) rs →
  forallb (λ r, inert B r.1) rs = true →
  Forall (λ rk, shape_wf rk.1 = true ∧ inert B rk.1 = true) rs.
Proof.
  induction 1 as [|[sh repl] rs Hr _ IH]; [constructor|]. simpl.
  intros [H1 H2]%andb_true_iff. constructor; [|auto].
  split; [exact (shk_wf _ _ Hr) | exact H1].
Qed.

(** The rule number [k] rewrites the part [m] of the block [x ++ m ++ y] in
    its place, when the rules before it cannot reach into the block and the
    rules after it cannot reach into the block rewritten; the text after the
    block is transformed as it is alone, and the text before it in a way
    that does not depend on the text after the block. *)
Lemma in_place k sh repl x m y u :
  crules !! k = Some (sh, repl) →
  forallb (λ r, inert (x ++ m ++ y) r.1) (take k crules) = true →
  rewrites_in sh x m y = true →
  (∀ v, smatch sh (m ++ v) = Some v) →
  forallb (λ r, inert (x ++ repl ++ y) r.1) (drop (S k) crules) = true →
  ∃ u', ∀ v, fix_expression_references (u ++ (x ++ m ++ y) ++ v)
             = u' ++ (x ++ repl ++ y) ++ fix_expression_references v.
Proof.
  intros Hk Hbefore Hrule Hm Hafter.
  pose proof crules_ok as Hok.
  assert (Hr : rule_ok (sh, repl) = true)
    by (apply (Forall_lookup_1 _ _ _ _ Hok Hk)).
  pose proof (shk_wf _ _ Hr) as Hwf.
  assert (HB : x ++ m ++ y ≠ []).
  { pose proof (Hm []) as Hm0.
    apply smatch_consumes in Hm0 as (m' & Hm' & Hne); [|assumption].
    rewrite !app_nil_r in Hm'. subst m'.
    destruct x; [|discriminate]. destruct m; [congruence | discriminate]. }
  assert (HB' : x ++ repl ++ y ≠ []).
  { destruct (repl_head _ _ Hr) as [Hne _].
    destruct x; [|discriminate]. destruct repl; [congruence | discriminate]. }
  destruct (block_run (take k crules) (x ++ m ++ y)
              (forallb_Forall_inert _ _ ltac:(apply Forall_take; exact Hok) Hbefore)
              HB u)
    as (u1 & H1).
  destruct (block_rewrite sh repl x m y u1 Hwf Hrule Hm) as (u2 & H2).
  destruct (block_run (drop (S k) crules) (x ++ repl ++ y)
              (forallb_Forall_inert _ _ ltac:(apply Forall_drop; exact Hok) Hafter)
              HB' u2) as (u3 & H3).
  exists u3. intros v.
  assert (Hsplit : ∀ t, fix_expression_references t
            = run (drop (S k) crules) (ssub sh repl (run (take k crules) t))).
  { intros t. rewrite fix_run.
    rewrite <- (take_drop_middle crules k (sh, repl) Hk) at 1.
    rewrite run_app. reflexivity. }
  rewrite !Hsplit, H1, H2, H3. reflexivity.
Qed.

(** * An occurrence in its place *)

Section Guarded.

Implicit Types (u v k w r s g m B : pystr) (sh : shape) (gs : list pystr).

Lemma unguarded_suffix gs m u : unguarded gs (m ++ u) → unguarded gs u.
Proof.
  unfold unguarded. intros H.
  destruct (existsb _ gs) eqn:E in |- *; [|reflexivity]. exfalso.
  apply existsb_exists in E as (g & Hin & Hg).
  assert (existsb (λ g, suffix_b g (m ++ u)) gs = true); [|congruence].
  apply existsb_exists. exists g. split; [assumption|].
  apply suffix_b_spec in Hg as [k ->]. apply suffix_b_spec.
  exists (m ++ k). rewrite app_assoc. reflexivity.
Qed.

(** A match that starts before the block ends before it, when no guard
    stands at the end of the text before the block. *)
Lemma match_before_guarded gs sh B u out r :
  shape_wf sh = true → reach_guarded gs B sh = true → B ≠ [] → u ≠ [] →
  unguarded gs u → smatch sh (u ++ B ++ out) = Some r →
  ∃ m u2, u = m ++ u2 ∧ m ≠ [] ∧ r = u2 ++ B ++ out.
Proof.
  intros Hwf Hreach HB Hu Hg H.
  assert (Hlits : ∀ w, first_lit sh = w →
            (∀ b r', smatch sh b = Some r' → b = w ++ r') →
            reach_guarded gs B sh
            = forallb (λ i, negb (comparable (drop i w) B)
                            || existsb (λ g, suffix_b g (take i w)) gs)
                      (seq 1 (length w - 1)) →
            ∃ m u2, u = m ++ u2 ∧ m ≠ [] ∧ r = u2 ++ B ++ out).
  { intros w Hw Hall Hdef. rewrite Hdef in Hreach.
    pose proof (Hall _ _ H) as Heq.
    assert (Hwne : w ≠ []).
    { destruct sh; simpl in *; subst; destruct w; try discriminate; congruence. }
    apply app_cut in Heq as [(l & -> & ->)|(l & Hl & -> & Heq)].
    - exists w, l. repeat split; assumption.
    - exfalso. rewrite forallb_forall in Hreach.
      assert (Hin : In (length u) (seq 1 (length (u ++ l) - 1))).
      { apply in_seq. rewrite length_app.
        destruct u; [congruence|]. destruct l; [congruence|]. simpl. lia. }
      specialize (Hreach _ Hin).
      rewrite drop_app_length, take_app_length in Hreach.
      symmetry in Heq. rewrite (comparable_app _ _ _ _ Heq) in Hreach.
      simpl in Hreach. unfold unguarded in Hg. congruence. }
  destruct sh as [w|w|w1 w2].
  - apply (Hlits w eq_refl); [|reflexivity].
    intros b r' Hb. apply smatch_Plain in Hb. exact Hb.
  - apply (Hlits w eq_refl); [|reflexivity].
    intros b r' Hb. apply smatch_Bounded in Hb as [Hb _]. exact Hb.
  - simpl in Hreach.
    destruct (match_before_block _ _ _ _ _ Hwf Hreach HB Hu H) as (u2 & -> & _).
    apply smatch_consumes in H as (m & Hm & Hne); [|assumption].
    exists m, u2. split; [|split; [assumption | reflexivity]].
    rewrite !app_assoc in Hm. apply app_inv_tail in Hm. apply app_inv_tail in Hm.
    exact Hm.
Qed.

Lemma kept_nil g : kept g [] [].
Proof. split; auto. Qed.

Lemma kept_copy g c t t' : kept g t t' → kept g (c :: t) (c :: t').
Proof.
  intros [HA HB]. split.
  - intros s k Hg Hs. destruct s as [|x s]; [discriminate|].
    injection Hs as -> ->. f_equal.
    apply (HA s (k ++ [x])); [rewrite <- app_assoc; exact Hg | reflexivity].
  - intros [k Hk]%suffix_b_spec. apply suffix_b_spec.
    destruct k as [|x k]; simpl in Hk.
    + exists []. simpl.
      destruct g as [|y g]; [discriminate|]. injection Hk as -> Hk.
      f_equal. apply (HA g [y]); [reflexivity | exact Hk].
    + injection Hk as <- Hk.
      assert (Hs : suffix_b g t' = true) by (apply suffix_b_spec; eauto).
      apply HB, suffix_b_spec in Hs as [k2 ->]. exists (c :: k2). reflexivity.
Qed.

Lemma kept_fire g repl m u2 u2' :
  guard_safe repl g = true → repl ≠ [] → kept g u2 u2' →
  kept g (m ++ u2) (repl ++ u2').
Proof.
  intros [HsA HsB]%andb_true_iff Hrepl [HA HB]. split.
  - intros s k Hg Hs. exfalso.
    rewrite forallb_forall in HsA.
    assert (Hne : s ≠ []) by (rewrite <- Hs; destruct repl; [congruence | discriminate]).
    pose proof (HsA s ltac:(rewrite Hg; apply tails_from_In; [lia | exact Hne])) as H.
    rewrite <- Hs, prefix_b_app in H. discriminate.
  - intros [k Hk]%suffix_b_spec.
    apply app_cut in Hk as [(l & Hr & Hg)|(l & Hl & Hk & Hu)].
    + destruct l as [|x l].
      * simpl in Hg.
        assert (Hs : suffix_b g u2' = true)
          by (apply suffix_b_spec; exists []; rewrite Hg; reflexivity).
        apply HB, suffix_b_spec in Hs as [k2 ->]. apply suffix_b_spec.
        exists (m ++ k2). rewrite app_assoc. reflexivity.
      * exfalso. rewrite forallb_forall in HsB.
        pose proof (HsB (x :: l)
                      ltac:(rewrite Hr; apply tails_from_In; [lia | discriminate])) as H.
        rewrite Hg, prefix_b_app in H. discriminate.
    + assert (Hs : suffix_b g u2' = true) by (apply suffix_b_spec; eauto).
      apply HB, suffix_b_spec in Hs as [k2 ->]. apply suffix_b_spec.
      exists (m ++ k2). rewrite app_assoc. reflexivity.
Qed.

Section Step.

Variable gs : list pystr.
Variable sh : shape.
Variable repl : pystr.
Variable B : pystr.
Variable v : pystr.
Hypothesis rule_in_order : rule_ok (sh, repl) = true.
Hypothesis reach : reach_guarded gs B sh = true.
Hypothesis closed : block_closed B sh = true.
Hypothesis safe : forallb (guard_safe repl) gs = true.
Hypothesis B_nonempty : B ≠ [].
Hypothesis head_quiet : smatch sh (B ++ v) = None.

Lemma at_guarded_block : ssub sh repl (B ++ v) = B ++ ssub sh repl v.
Proof.
  apply ssub_copy_prefix; [exact (shk_wf _ _ rule_in_order)|].
  intros a b Hab Hb. destruct a as [|x a].
  - simpl in Hab. subst b. exact head_quiet.
  - apply no_start_inside.
    unfold block_closed in closed. rewrite forallb_forall in closed.
    specialize (closed (length (x :: a))).
    rewrite Hab, drop_app_length in closed. apply closed.
    apply in_seq. rewrite length_app. destruct b; [congruence|]. simpl. lia.
Qed.

Lemma guarded_scan n : ∀ u,
  (length u ≤ n)%nat → unguarded gs u →
  ∃ u', ssub sh repl (u ++ B ++ v) = u' ++ B ++ ssub sh repl v
        ∧ Forall (λ g, kept g u u') gs.
Proof.
  pose proof (shk_wf _ _ rule_in_order) as Hwf.
  destruct (repl_head _ _ rule_in_order) as [Hrepl _].
  induction n as [|n IH]; intros u Hlen Hg.
  - destruct u; [|simpl in Hlen; lia]. exists []. split; [apply at_guarded_block|].
    apply Forall_forall. intros g _. apply kept_nil.
  - destruct u as [|c t].
    { exists []. split; [apply at_guarded_block|].
      apply Forall_forall. intros g _. apply kept_nil. }
    destruct (smatch sh ((c :: t) ++ B ++ v)) as [r|] eqn:E.
    + destruct (match_before_guarded gs sh B (c :: t) v r Hwf reach B_nonempty
                  ltac:(discriminate) Hg E) as (m & u2 & Hu & Hm & ->).
      assert (Hshort : (length u2 ≤ n)%nat).
      { apply (f_equal length) in Hu. rewrite length_app in Hu.
        destruct m; [congruence|]. simpl in Hu, Hlen. lia. }
      rewrite Hu in Hg |- *.
      destruct (IH u2 Hshort (unguarded_suffix _ _ _ Hg)) as (u2' & Heq & Hkept).
      exists (repl ++ u2'). split.
      * rewrite <- Hu. rewrite (ssub_fire _ _ Hwf _ _ E), Heq, <- app_assoc.
        reflexivity.
      * clear -Hkept safe Hrepl. induction Hkept as [|g gs' Hk _ IHk];
          [constructor|].
        simpl in safe. apply andb_true_iff in safe as [Hs1 Hs2].
        constructor; [apply kept_fire; assumption | auto].
    + destruct (IH t ltac:(simpl in Hlen; lia)
                  (unguarded_suffix gs [c] t Hg)) as (t' & Heq & Hkept).
      exists (c :: t'). split.
      * change ((c :: t) ++ B ++ v) with (c :: (t ++ B ++ v)) in *.
        rewrite (ssub_copy _ _ Hwf _ _ E), Heq. reflexivity.
      * eapply Forall_impl; [exact Hkept|]. intros g. apply kept_copy.
Qed.

(** The rule leaves the block where it is, and no guard comes to stand
    before it. *)
Lemma guarded_step u :
  unguarded gs u →
  ∃ u', ssub sh repl (u ++ B ++ v) = u' ++ B ++ ssub sh repl v
        ∧ unguarded gs u'.
Proof.
  intros Hg. destruct (guarded_scan (length u) u ltac:(lia) Hg)
    as (u' & Heq & Hkept).
  exists u'. split; [exact Heq|]. unfold unguarded in *.
  destruct (existsb _ gs) eqn:E in |- *; [|reflexivity]. exfalso.
  apply existsb_exists in E as (g & Hin & Hs).
  assert (existsb (λ g, suffix_b g u) gs = true); [|congruence].
  apply existsb_exists. exists g. split; [assumption|].
  apply list_elem_of_In in Hin.
  rewrite Forall_forall in Hkept. apply (Hkept g Hin). exact Hs.
Qed.

End Step.

End Guarded.

(** ** The qualified name [Expression::] *)

Section Qualified.

Implicit Types (u v : pystr) (sh : shape) (repl : pystr).

Lemma variant_last_word V :
  In V variants → word_before (last (Expression ++ qualified V)) = true.
Proof. revert V. apply forallb_forall. vm_compute. reflexivity. Qed.

(** No rule matches at a qualified name that no variant name follows. *)
Lemma qualifier_head_quiet sh repl v :
  qualifier_ok (sh, repl) = true → variant_follows (py "::" ++ v) = false →
  smatch sh (qualifier ++ v) = None.
Proof.
  intros [[_ H]%andb_true_iff _]%andb_true_iff Hv. cbn [fst] in H.
  apply orb_true_iff in H as [H|H]; [apply no_start_inside; exact H|].
  destruct sh as [w|w|w1 w2]; try discriminate. unfold is_variant_shape in H.
  apply existsb_exists in H as (V & HV & ->%list_eqb_eq).
  pose proof (variant_rule_quiet_here (py "::" ++ v) V HV Hv) as F.
  unfold qualifier. rewrite <- app_assoc. unfold fires in F.
  destruct (smatch _ _); [discriminate | reflexivity].
Qed.

(** A rule writes no variant name after the qualified name. *)
Lemma variant_follows_kept sh repl v :
  qualifier_ok (sh, repl) = true → variant_follows (py "::" ++ v) = false →
  variant_follows (py "::" ++ ssub sh repl v) = false.
Proof.
  intros Hok Hv.
  destruct (variant_follows (py "::" ++ ssub sh repl v)) eqn:E; [|reflexivity].
  exfalso. apply existsb_exists in E as (V & HV & [Hp Hw]%andb_true_iff).
  apply prefix_b_spec in Hp as [k Hk].
  rewrite Hk, drop_app_length in Hw.
  assert (Hm : smatch (Bounded (Expression ++ qualified V))
                 (qualifier ++ ssub sh repl v) = Some k).
  { apply smatch_Bounded. split.
    - unfold qualifier. rewrite <- !app_assoc. f_equal. exact Hk.
    - unfold at_boundary. rewrite (variant_last_word V HV).
      destruct (word_here k); [discriminate | reflexivity]. }
  apply andb_true_iff in Hok as [Hok Hpairs].
  rewrite forallb_forall in Hpairs. specialize (Hpairs V HV).
  do 4 (apply andb_true_iff in Hok as [Hok _]).
  apply (transfer sh repl Hok (Bounded (Expression ++ qualified V)) eq_refl Hpairs
           (length v) v qualifier k ltac:(lia) ltac:(discriminate)) in Hm.
  pose proof (variant_rule_quiet_here (py "::" ++ v) V HV Hv) as F.
  unfold qualifier in Hm. rewrite <- app_assoc in Hm. congruence.
Qed.

(** The rules of a list in turn: the qualified name stays where it is. *)
Lemma guarded_run rs :
  Forall (λ r, qualifier_ok r = true) rs → ∀ u v,
  borrow_or_import u = false → variant_follows (py "::" ++ v) = false →
  ∃ u', run rs (u ++ qualifier ++ v) = u' ++ qualifier ++ run rs v
        ∧ borrow_or_import u' = false
        ∧ variant_follows (py "::" ++ run rs v) = false.
Proof.
  induction 1 as [|[sh repl] rs Hr _ IH]; intros u v Hu Hv.
  - exists u. repeat split; assumption.
  - pose proof (qualifier_head_quiet sh repl v Hr Hv) as Hq.
    pose proof (variant_follows_kept sh repl v Hr Hv) as Hv1.
    pose proof Hr as Hr0.
    apply andb_true_iff in Hr as [[[[[H1 H2]%andb_true_iff H3]%andb_true_iff
                                      H4]%andb_true_iff _]%andb_true_iff _].
    cbn [fst snd] in H1, H2, H3, H4.
    destruct (guarded_step guards sh repl qualifier v H1 H2 H3 H4
                ltac:(discriminate) Hq u Hu) as (u1 & E1 & Hu1).
    destruct (IH u1 (ssub sh repl v) Hu1 Hv1) as (u2 & E2 & Hu2 & Hv2).
    exists u2. split; [|split; assumption].
    change (run ((sh, repl) :: rs) (u ++ qualifier ++ v))
      with (run rs (ssub sh repl (u ++ qualifier ++ v))).
    rewrite E1, E2. reflexivity.
Qed.

Lemma qualifier_ok_crules : Forall (λ r, qualifier_ok r = true) crules.
Proof. unfold crules. repeat (constructor; [vm_compute; reflexivity|]). constructor. Qed.

(** The transform leaves in place a qualified name that is not one of the
    fifteen and has neither [&] nor an import path before it. *)
Lemma qualified_in_place u v :
  borrow_or_import u = false → variant_follows (py "::" ++ v) = false →
  ∃ u', fix_expression_references (u ++ Expression ++ py "::" ++ v)
        = u' ++ Expression ++ py "::" ++ fix_expression_references v
        ∧ borrow_or_import u' = false
        ∧ variant_follows (py "::" ++ fix_expression_references v) = false.
Proof.
  intros Hu Hv.
  destruct (guarded_run crules qualifier_ok_crules u v Hu Hv)
    as (u' & E & Hu' & Hv').
  exists u'. rewrite !fix_run. unfold qualifier in E.
  rewrite <- !app_assoc in E. auto.
Qed.

End Qualified.

(** C9, as the code has it.  At an occurrence [Expression::X] whose name [X]
    is not one of the fifteen, none of the fifteen variant rules matches.
    When neither [&] nor an import path stands before such an occurrence,
    the transform leaves it in place whatever the text around it, and it is
    an occurrence of the same kind in the output.  A text in which every
    occurrence of [Expression] is of this kind is left unchanged. *)
Theorem other_names_unchanged (s pre post : pystr) :
  (other_name pre post = true →
   Forall (λ r, fires r.1 (Expression ++ post) = false) variant_rules)
  ∧ (other_qualified pre post = true →
     ∃ pre' rest,
       post = py "::" ++ rest
       ∧ fix_expression_references (pre ++ Expression ++ post)
         = pre' ++ Expression ++ py "::" ++ fix_expression_references rest
       ∧ other_qualified pre' (py "::" ++ fix_expression_references rest) = true)
  ∧ (every_occurrence other_qualified s = true →
     fix_expression_references s = s).
Proof.
  split; [|split].
  - intros [_ Hv%negb_true_iff]%andb_true_iff.
    apply (Forall_map fst (λ sh, fires sh (Expression ++ post) = false)).
    rewrite variant_rules_shapes. apply Forall_map.
    apply Forall_forall. intros v Hin. apply variant_rule_quiet_here; [|assumption].
    apply list_elem_of_In. assumption.
  - intros [[Hq Hv%negb_true_iff]%andb_true_iff Hb%negb_true_iff]%andb_true_iff.
    apply prefix_b_spec in Hq as [rest ->].
    destruct (qualified_in_place pre rest Hb Hv) as (pre' & E & Hb' & Hv').
    exists pre', rest. split; [reflexivity|]. split; [exact E|].
    unfold other_qualified. rewrite prefix_b_app, Hb', Hv'. reflexivity.
  - intros H. apply untriggered_fixed. intros p q Hs.
    rewrite every_occurrence_spec in H. specialize (H p q Hs).
    apply andb_true_iff in H as [[Hq Hv%negb_true_iff]%andb_true_iff Hb%negb_true_iff].
    apply (triggers_false
             (λ c, variant_ctx c || borrow_or_import_ctx c || unqualified_ctx c));
      [vm_compute; reflexivity|].
    intros c [[Hc|Hc]%orb_true_iff|Hc]%orb_true_iff.
    + apply variant_ctx_blocks; assumption.
    + apply borrow_or_import_ctx_blocks; assumption.
    + apply unqualified_ctx_blocks; assumption.
Qed.

Lemma other_names_unchanged_witness :
  (other_name (py "let e = ") (py "::eval(x);") = true
   ∧ Forall (λ r, fires r.1 (Expression ++ py "::eval(x);") = false)
            variant_rules)
  ∧ (other_qualified (py "fn f(a: &Expression) -> T { ") (py "::eval(a) }") = true
     ∧ ∃ pre' rest,
         py "::eval(a) }" = py "::" ++ rest
         ∧ fix_expression_references
             (py "fn f(a: &Expression) -> T { " ++ Expression ++ py "::eval(a) }")
           = pre' ++ Expression ++ py "::" ++ fix_expression_references rest
         ∧ other_qualified pre' (py "::" ++ fix_expression_references rest) = true)
  ∧ (every_occurrence other_qualified
       (py "let e = Expression::eval(x) + Expression::Literals(1);") = true
     ∧ fix_expression_references
         (py "let e = Expression::eval(x) + Expression::Literals(1);")
       = py "let e = Expression::eval(x) + Expression::Literals(1);").
Proof.
  split; [|split].
  - split; [reflexivity|].
    apply (proj1 (other_names_unchanged [] (py "let e = ") (py "::eval(x);"))).
    reflexivity.
  - split; [reflexivity|].
    apply (proj1 (proj2 (other_names_unchanged
                           [] (py "fn f(a: &Expression) -> T { ")
                           (py "::eval(a) }")))).
    reflexivity.
  - split; [reflexivity|].
    apply (proj2 (proj2 (other_names_unchanged
                           (py "let e = Expression::eval(x) + Expression::Literals(1);")
                           [] []))).
    reflexivity.
Defined.

(** C9 as stated fails: [eval] is not one of the fifteen names, and the
    borrow rule renames [&Expression::eval]. *)
Lemma other_name_rewritten :
  every_occurrence other_name (py "f(&Expression::eval(x))") = true
  ∧ fix_expression_references (py "f(&Expression::eval(x))")
    = py "f(&Expr::eval(x))"
  ∧ fix_expression_references (py "f(&Expression::eval(x))")
    ≠ py "f(&Expression::eval(x))".
Proof. split; [reflexivity|]. split; [reflexivity|]. vm_compute. discriminate. Qed.

(** C5: the text with the four container types is converted in one
    application, the [Box] rule already converting the [Box] inside
    [Option].  In any text, each of the four forms is converted where it
    stands: what follows it is transformed as it is alone, and what precedes
    it in a way that does not depend on what follows.  And in the output of
    the transform, for any input, none of the four old forms is left. *)
Theorem containers_converted (u s sp : pystr) :
  fix_expression_references containers_input = containers_output
  ∧ re_sub "Box<Expression>" "Box<Expr>" (py "Option<Box<Expression>>")
    = py "Option<Box<Expr>>"
  ∧ (∃ u', ∀ v, fix_expression_references (u ++ py "Vec<Expression>" ++ v)
                = u' ++ py "Vec<Expr>" ++ fix_expression_references v)
  ∧ (∃ u', ∀ v, fix_expression_references (u ++ py "Box<Expression>" ++ v)
                = u' ++ py "Box<Expr>" ++ fix_expression_references v)
  ∧ (∃ u', ∀ v,
       fix_expression_references (u ++ py "Option<Box<Expression>>" ++ v)
       = u' ++ py "Option<Box<Expr>>" ++ fix_expression_references v)
  ∧ (∃ u', ∀ v,
       fix_expression_references (u ++ py "(Expression, Expression)" ++ v)
       = u' ++ py "(Expr, Expr)" ++ fix_expression_references v)
  ∧ occurs (py "Vec<Expression>") (fix_expression_references s) = false
  ∧ occurs (py "Box<Expression>") (fix_expression_references s) = false
  ∧ occurs (py "Option<Box<Expression>>") (fix_expression_references s) = false
  ∧ (forallb is_space sp = true →
     occurs (py "(Expression," ++ sp ++ py "Expression)")
            (fix_expression_references s) = false).
Proof.
  split; [reflexivity|]. split; [reflexivity|].
  split; [|split; [|split; [|split]]].
  - apply (in_place 18 (Plain (py "Vec<Expression>")) (py "Vec<Expr>")
             [] (py "Vec<Expression>") [] u);
      vm_compute; reflexivity.
  - apply (in_place 19 (Plain (py "Box<Expression>")) (py "Box<Expr>")
             [] (py "Box<Expression>") [] u);
      vm_compute; reflexivity.
  - apply (in_place 19 (Plain (py "Box<Expression>")) (py "Box<Expr>")
             (py "Option<") (py "Box<Expression>") (py ">") u);
      vm_compute; reflexivity.
  - apply (in_place 21 (Spaced (py "(Expression,") (py "Expression)"))
             (py "(Expr, Expr)") [] (py "(Expression, Expression)") [] u);
      vm_compute; reflexivity.
  - split; [|split; [|split]].
    + apply quiet_Plain_occurs; [reflexivity|].
      apply (fix_quiet_at 18 _ (py "Vec<Expr>")). reflexivity.
    + apply quiet_Plain_occurs; [reflexivity|].
      apply (fix_quiet_at 19 _ (py "Box<Expr>")). reflexivity.
    + apply quiet_Plain_occurs; [reflexivity|].
      apply (fix_quiet_at 20 _ (py "Option<Box<Expr>>")). reflexivity.
    + intros Hsp. apply quiet_Spaced_occurs; [reflexivity | assumption |].
      apply (fix_quiet_at 21 _ (py "(Expr, Expr)")). reflexivity.
Qed.

Lemma containers_converted_witness :
  occurs (py "(Expression," ++ py "  " ++ py "Expression)")
    (fix_expression_references (py "let p: (Expression,  Expression) = q;"))
  = false.
Proof.
  apply (containers_converted [] (py "let p: (Expression,  Expression) = q;")
           (py "  ")).
  reflexivity.
Defined.
(** * Further properties of the transform *)

(** ** What a scan does to an additive measure of the text *)

Section Measure.

Variable f : pystr → nat.
Hypothesis f_app : ∀ a b, f (a ++ b) = (f a + f b)%nat.

Variable sh : shape.
Variable repl : pystr.
Hypothesis sh_wf : shape_wf sh = true.

Lemma f_cons c t : f (c :: t) = (f [c] + f t)%nat.
Proof. apply (f_app [c] t). Qed.

Lemma ssub_measure_le n :
  (∀ m r, smatch sh (m ++ r) = Some r → (f repl ≤ f m)%nat) →
  ∀ s, (length s ≤ n)%nat → (f (ssub sh repl s) ≤ f s)%nat.
Proof.
  intros Hm. induction n as [|n IH]; intros s Hlen.
  - destruct s; [|simpl in Hlen; lia]. rewrite ssub_nil. lia.
  - destruct s as [|c t]; [rewrite ssub_nil; lia|].
    destruct (smatch sh (c :: t)) as [r|] eqn:E.
    + rewrite (ssub_fire _ _ sh_wf _ _ E).
      destruct (smatch_consumes _ _ _ sh_wf E) as (m & Hs & Hne).
      rewrite Hs in E |- *. rewrite !f_app.
      pose proof (Hm m r E) as Hle.
      assert (Hr : (length r ≤ n)%nat).
      { apply (f_equal length) in Hs. rewrite length_app in Hs.
        destruct m; [congruence|]. simpl in Hs, Hlen. lia. }
      specialize (IH r Hr). lia.
    + rewrite (ssub_copy _ _ sh_wf _ _ E), (f_cons c t), (f_cons c (ssub _ _ _)).
      specialize (IH t ltac:(simpl in Hlen; lia)). lia.
Qed.

Lemma ssub_measure_eq n :
  (∀ m r, smatch sh (m ++ r) = Some r → (f repl < f m)%nat) →
  ∀ s, (length s ≤ n)%nat → f (ssub sh repl s) = f s → ssub sh repl s = s.
Proof.
  intros Hm.
  assert (Hle : ∀ s, (f (ssub sh repl s) ≤ f s)%nat).
  { intros s. apply (ssub_measure_le (length s)); [|lia].
    intros m r E. specialize (Hm m r E). lia. }
  induction n as [|n IH]; intros s Hlen Heq.
  - destruct s; [reflexivity | simpl in Hlen; lia].
  - destruct s as [|c t]; [reflexivity|].
    destruct (smatch sh (c :: t)) as [r|] eqn:E.
    + exfalso. rewrite (ssub_fire _ _ sh_wf _ _ E) in Heq.
      destruct (smatch_consumes _ _ _ sh_wf E) as (m & Hs & Hne).
      rewrite Hs in E, Heq. rewrite !f_app in Heq.
      pose proof (Hm m r E). pose proof (Hle r). lia.
    + rewrite (ssub_copy _ _ sh_wf _ _ E) in Heq |- *.
      rewrite (f_cons c t), (f_cons c (ssub _ _ _)) in Heq.
      f_equal. apply IH; [simpl in Hlen; lia | lia].
Qed.

End Measure.

(** A match of a shape is at least as long as its literal texts. *)
Lemma smatch_min_length sh m r :
  smatch sh (m ++ r) = Some r → (min_length sh ≤ length m)%nat.
Proof.
  intros H. destruct sh as [w|w|w1 w2]; simpl.
  - apply smatch_Plain in H. apply app_inv_tail in H. subst. lia.
  - apply smatch_Bounded in H as [H _]. apply app_inv_tail in H. subst. lia.
  - apply smatch_Spaced_inv in H as (sp & H & _).
    rewrite !app_assoc in H. apply app_inv_tail in H. subst.
    rewrite !length_app. lia.
Qed.

Lemma shrinks_crules : Forall (λ r, shrinks r = true) crules.
Proof. unfold crules. repeat (constructor; [vm_compute; reflexivity|]). constructor. Qed.

Lemma ssub_length sh repl s :
  shrinks (sh, repl) = true →
  (length (ssub sh repl s) ≤ length s)%nat
  ∧ (length (ssub sh repl s) = length s → ssub sh repl s = s).
Proof.
  intros [Hwf Hlt%Nat.ltb_lt]%andb_true_iff. cbn [fst snd] in *.
  assert (Hm : ∀ m r, smatch sh (m ++ r) = Some r → (length repl < length m)%nat).
  { intros m r E. apply smatch_min_length in E. lia. }
  split.
  - apply (ssub_measure_le length (@length_app N) sh repl Hwf (length s)); [|lia].
    intros m r E. specialize (Hm m r E). lia.
  - apply (ssub_measure_eq length (@length_app N) sh repl Hwf (length s)); [exact Hm | lia].
Qed.

(** Rules that each leave the text as it is leave it as it is in turn. *)
Lemma run_fixed rs s :
  Forall (λ r, ssub r.1 r.2 s = s) rs → run rs s = s.
Proof.
  induction 1 as [|[sh repl] rs Hr _ IH]; [reflexivity|].
  change (run ((sh, repl) :: rs) s) with (run rs (ssub sh repl s)).
  cbn [fst snd] in Hr. rewrite Hr. exact IH.
Qed.

Lemma run_length rs :
  Forall (λ r, shrinks r = true) rs → ∀ s,
  (length (run rs s) ≤ length s)%nat
  ∧ (length (run rs s) = length s → Forall (λ r, ssub r.1 r.2 s = s) rs).
Proof.
  induction 1 as [|[sh repl] rs Hr _ IH]; intros s.
  - split; [reflexivity | constructor].
  - change (run ((sh, repl) :: rs) s) with (run rs (ssub sh repl s)).
    destruct (ssub_length sh repl s Hr) as [H1 H2].
    destruct (IH (ssub sh repl s)) as [H3 H4].
    split; [lia|]. intros Heq.
    assert (Hs : ssub sh repl s = s) by (apply H2; lia).
    constructor; [exact Hs|]. rewrite Hs in H4. apply H4.
    rewrite Hs in Heq. exact Heq.
Qed.

(** X1: the transform never makes a text longer, and a text that keeps its
    length is returned as it is. *)
Theorem fix_never_longer (s : pystr) :
  (length (fix_expression_references s) ≤ length s)%nat
  ∧ (length (fix_expression_references s) = length s →
     fix_expression_references s = s).
Proof.
  rewrite fix_run. destruct (run_length crules shrinks_crules s) as [H1 H2].
  split; [exact H1|]. intros Heq. apply run_fixed, H2, Heq.
Qed.

Lemma rules_compile : Forall (λ r, is_Some (compile_rule r)) rules.
Proof.
  unfold rules.
  repeat (constructor; [vm_compute; eexists; reflexivity|]). constructor.
Qed.

Lemma compiled_fixed rs s :
  Forall (λ r, is_Some (compile_rule r)) rs →
  (Forall (λ r : string * string, re_sub r.1 r.2 s = s) rs
   ↔ Forall (λ rk, ssub rk.1 rk.2 s = s) (omap compile_rule rs)).
Proof.
  induction 1 as [|r rs [[sh repl] Hr] _ IH]; [split; constructor|].
  cbn [omap list_omap]. rewrite Hr. rewrite !Forall_cons, IH.
  pose proof (re_sub_compiled r sh repl s Hr) as E. unfold apply_rule in E.
  rewrite E. reflexivity.
Qed.

(** X2: the texts that the transform returns as they are are those that
    each of the 24 substitutions, applied alone, returns as they are. *)
Theorem fix_fixed_points (s : pystr) :
  fix_expression_references s = s
  ↔ Forall (λ r : string * string, re_sub r.1 r.2 s = s) rules.
Proof.
  rewrite (compiled_fixed rules s rules_compile), <- crules_eq, fix_run. split.
  - intros H. apply (run_length crules shrinks_crules s). rewrite H. reflexivity.
  - apply run_fixed.
Qed.

(** ** Characters that no replacement holds *)

Lemma count_app c a b : count c (a ++ b) = (count c a + count c b)%nat.
Proof. unfold count. rewrite filter_app, length_app. reflexivity. Qed.

Lemma count_absent c s : has_char c s = false → count c s = 0%nat.
Proof.
  unfold count, has_char. induction s as [|x s IH]; [reflexivity|]. simpl.
  intros [Hx Hs]%orb_false_iff. apply N.eqb_neq in Hx.
  rewrite filter_cons_False by congruence. auto.
Qed.

Lemma ssub_count c sh repl s :
  shape_wf sh = true → has_char c repl = false →
  (count c (ssub sh repl s) ≤ count c s)%nat.
Proof.
  intros Hwf Hc.
  apply (ssub_measure_le (count c) (count_app c) sh repl Hwf (length s)); [|lia].
  intros m r _. rewrite (count_absent c repl Hc). lia.
Qed.

Lemma replacements_compiled c rs :
  forallb (λ r : string * string, negb (has_char c (py r.2))) rs = true →
  Forall (λ rk, has_char c rk.2 = false) (omap compile_rule rs).
Proof.
  induction rs as [|r rs IH]; [constructor|]. simpl.
  intros [Hr Hrs]%andb_true_iff. apply negb_true_iff in Hr.
  unfold compile_rule at 1.
  destruct (re_compile r.1) as [p|]; cbn; [|auto].
  destruct (classify p) as [sh|]; cbn; [|auto].
  constructor; auto.
Qed.

Lemma run_count c rs :
  Forall (λ r, rule_ok r = true) rs →
  Forall (λ rk : shape * pystr, has_char c rk.2 = false) rs →
  ∀ s, (count c (run rs s) ≤ count c s)%nat.
Proof.
  induction 1 as [|[sh repl] rs Hr _ IH]; intros Hc s; [reflexivity|].
  apply Forall_cons_1 in Hc as [Hc Hcs].
  change (run ((sh, repl) :: rs) s) with (run rs (ssub sh repl s)).
  pose proof (ssub_count c sh repl s (shk_wf sh repl Hr) Hc).
  specialize (IH Hcs (ssub sh repl s)). lia.
Qed.

(** X3: a character that occurs in none of the replacement texts does not
    become more frequent; so the transform adds no line break. *)
Theorem fix_adds_no_character (c : N) (s : pystr) :
  in_no_replacement c = true →
  (count c (fix_expression_references s) ≤ count c s)%nat.
Proof.
  intros Hc. rewrite fix_run. apply run_count; [apply crules_ok|].
  rewrite crules_eq. apply replacements_compiled, Hc.
Qed.

Lemma fix_adds_no_character_witness :
  in_no_replacement 10 = true
  ∧ (count 10 (fix_expression_references
                 (py "fn f(p: (Expression," ++ newline ++ py "  Expression)) {}"))
     ≤ count 10 (py "fn f(p: (Expression," ++ newline ++ py "  Expression)) {}"))%nat.
Proof.
  split; [reflexivity|].
  apply (fix_adds_no_character 10). reflexivity.
Defined.

(** ** References that are left *)

Lemma quiet_Bounded_follows w s pre post :
  nonempty w = true → word_before (last w) = true →
  quiet (Bounded w) s = true → s = pre ++ w ++ post → word_here post = true.
Proof.
  intros Hw Hlast Hq Hs.
  assert (F : fires (Bounded w) (w ++ post) = false).
  { apply (quiet_fires _ _ pre _ Hq Hs). destruct w; discriminate. }
  destruct (word_here post) eqn:E; [reflexivity|]. exfalso.
  assert (smatch (Bounded w) (w ++ post) = Some post) as Hm.
  { apply smatch_Bounded. split; [reflexivity|].
    unfold at_boundary. rewrite Hlast, E. reflexivity. }
  unfold fires in F. rewrite Hm in F. discriminate.
Qed.

Lemma renamed_references_rules :
  map Bounded renamed_references = map fst (take 18 crules).
Proof. vm_compute. reflexivity. Qed.

(** X4: in the output, each of the eighteen references that the script
    renames at a word boundary is followed by a word character: none is left
    to rename. *)
Theorem no_reference_left (s w pre post : pystr) :
  In w renamed_references →
  fix_expression_references s = pre ++ w ++ post →
  word_here post = true.
Proof.
  intros Hw Hs.
  assert (Hin : In (Bounded w) (map fst crules)).
  { apply (in_map Bounded) in Hw. rewrite renamed_references_rules in Hw.
    apply in_map_iff in Hw as ([sh repl] & E & Hr). apply in_map_iff.
    exists (sh, repl). split; [exact E|].
    rewrite <- (take_drop 18 crules). apply in_or_app. left. exact Hr. }
  apply in_map_iff in Hin as ([sh repl] & E & Hr). cbn [fst] in E. subst sh.
  apply list_elem_of_In in Hr.
  pose proof (fix_quiet s) as Hq. rewrite Forall_forall in Hq.
  destruct (Hq _ Hr) as [Hwf Hquiet]. cbn [fst] in *.
  pose proof crules_ok as Hok. rewrite Forall_forall in Hok.
  specialize (Hok _ Hr). unfold rule_ok in Hok. cbn [fst snd] in Hok.
  apply andb_true_iff in Hok as [_ Hlast].
  eapply quiet_Bounded_follows; eassumption.
Qed.

Lemma no_reference_left_witness :
  In (py "&" ++ Expression) renamed_references
  ∧ fix_expression_references (py "f(&Expression, &ExpressionList)")
    = py "f(&Expr, " ++ (py "&" ++ Expression) ++ py "List)"
  ∧ word_here (py "List)") = true.
Proof.
  assert (H1 : In (py "&" ++ Expression) renamed_references)
    by (right; right; left; reflexivity).
  assert (H2 : fix_expression_references (py "f(&Expression, &ExpressionList)")
               = py "f(&Expr, " ++ (py "&" ++ Expression) ++ py "List)")
    by reflexivity.
  split; [exact H1|]. split; [exact H2|].
  exact (no_reference_left _ _ _ _ H1 H2).
Defined.

(** ** The transform piece by piece *)

Section Separator.

Variable c : N.
Hypothesis c_not_word : is_word c = false.
Hypothesis c_not_space : is_space c = false.

Implicit Types (u v w r : pystr) (sh : shape).

Lemma strip_prefix_sep w : ∀ u v,
  has_char c w = false →
  strip_prefix w (u ++ c :: v) = (λ r, r ++ c :: v) <$> strip_prefix w u.
Proof.
  induction w as [|x w IH]; intros u v Hw; [reflexivity|].
  unfold has_char in Hw. simpl in Hw. apply orb_false_iff in Hw as [Hx Hw].
  destruct u as [|y u]; simpl.
  - rewrite Hx. reflexivity.
  - destruct (y =? x); [apply IH, Hw | reflexivity].
Qed.

Lemma skip_spaces_sep r v : skip_spaces (r ++ c :: v) = skip_spaces r ++ c :: v.
Proof.
  induction r as [|x r IH]; simpl; [rewrite c_not_space; reflexivity|].
  destruct (is_space x); [exact IH | reflexivity].
Qed.

Lemma word_here_sep r v : word_here (r ++ c :: v) = word_here r.
Proof. destruct r; [exact c_not_word | reflexivity]. Qed.

(** A match does not reach the separator: it is a match of the text before
    it. *)
Lemma smatch_sep sh u v :
  has_char c (shape_text sh) = false →
  smatch sh (u ++ c :: v) = (λ r, r ++ c :: v) <$> smatch sh u.
Proof.
  intros Hc. destruct sh as [w|w|w1 w2]; cbn [smatch shape_text] in *.
  - apply strip_prefix_sep, Hc.
  - rewrite strip_prefix_sep by exact Hc.
    destruct (strip_prefix w u) as [r|]; [|reflexivity]. cbn.
    unfold at_boundary. rewrite word_here_sep.
    destruct (xorb _ _); reflexivity.
  - unfold has_char in Hc. rewrite existsb_app in Hc.
    apply orb_false_iff in Hc as [H1 H2].
    rewrite strip_prefix_sep by exact H1.
    destruct (strip_prefix w1 u) as [r|]; [|reflexivity]. cbn.
    rewrite skip_spaces_sep. apply strip_prefix_sep, H2.
Qed.

Lemma ssub_sep sh repl v n :
  shape_wf sh = true → has_char c (shape_text sh) = false →
  ∀ u, (length u ≤ n)%nat →
  ssub sh repl (u ++ c :: v) = ssub sh repl u ++ c :: ssub sh repl v.
Proof.
  intros Hwf Hc. induction n as [|n IH]; intros u Hlen.
  - destruct u; [|simpl in Hlen; lia].
    cbn [app]. rewrite ssub_nil. apply ssub_copy; [assumption|].
    change (c :: v) with ([] ++ c :: v).
    rewrite smatch_sep, smatch_nil by assumption. reflexivity.
  - destruct u as [|y t].
    { cbn [app]. rewrite ssub_nil. apply ssub_copy; [assumption|].
      change (c :: v) with ([] ++ c :: v).
      rewrite smatch_sep, smatch_nil by assumption. reflexivity. }
    pose proof (smatch_sep sh (y :: t) v Hc) as E.
    destruct (smatch sh (y :: t)) as [r|] eqn:Eu; cbn in E.
    + rewrite (ssub_fire _ _ Hwf _ _ E), (ssub_fire _ _ Hwf _ _ Eu).
      rewrite IH, <- app_assoc; [reflexivity|].
      pose proof (smatch_shorter _ _ _ Hwf Eu). simpl in *. lia.
    + change ((y :: t) ++ c :: v) with (y :: (t ++ c :: v)) in *.
      rewrite (ssub_copy _ _ Hwf _ _ E), (ssub_copy _ _ Hwf _ _ Eu).
      rewrite IH by (simpl in Hlen; lia). reflexivity.
Qed.

Lemma run_sep rs :
  Forall (λ rk, shape_wf rk.1 = true ∧ has_char c (shape_text rk.1) = false) rs →
  ∀ u v, run rs (u ++ c :: v) = run rs u ++ c :: run rs v.
Proof.
  induction 1 as [|[sh repl] rs [Hwf Hc] _ IH]; intros u v; [reflexivity|].
  change (run ((sh, repl) :: rs) ?x) with (run rs (ssub sh repl x)).
  cbn [fst] in *.
  rewrite (ssub_sep sh repl v (length u) Hwf Hc u) by lia. apply IH.
Qed.

End Separator.

Lemma has_char_In c s : has_char c s = true ↔ In c s.
Proof.
  unfold has_char. rewrite existsb_exists. split.
  - intros (x & Hx & ->%N.eqb_eq). exact Hx.
  - intros H. exists c. split; [exact H | apply N.eqb_refl].
Qed.

Lemma text_of_pattern_rules : forallb text_of_pattern rules = true.
Proof. vm_compute. reflexivity. Qed.

Lemma pattern_chars c rs :
  forallb text_of_pattern rs = true →
  forallb (λ r : string * string, negb (has_char c (py r.1))) rs = true →
  Forall (λ rk, has_char c (shape_text rk.1) = false) (omap compile_rule rs).
Proof.
  induction rs as [|r rs IH]; [constructor|]. simpl.
  intros [Ht Hts]%andb_true_iff [Hr Hrs]%andb_true_iff.
  apply negb_true_iff in Hr. unfold text_of_pattern in Ht.
  destruct (compile_rule r) as [[sh repl]|]; [|auto].
  constructor; [|auto]. cbn [fst].
  destruct (has_char c (shape_text sh)) eqn:E; [|reflexivity].
  apply has_char_In in E. rewrite forallb_forall in Ht.
  rewrite (Ht c E) in Hr. discriminate.
Qed.

(** X5: the transform works piece by piece across a character that is
    neither a word character nor white space and occurs in no pattern (as
    [;], [{], [}] and [=] are): the text before it and the text after it are
    transformed each as it is alone. *)
Theorem fix_piecewise (c : N) (u v : pystr) :
  separator c = true →
  fix_expression_references (u ++ c :: v)
  = fix_expression_references u ++ c :: fix_expression_references v.
Proof.
  intros [[Hw%negb_true_iff Hs%negb_true_iff]%andb_true_iff Hc]%andb_true_iff.
  rewrite !fix_run. apply (run_sep c Hw Hs).
  pose proof (pattern_chars c rules text_of_pattern_rules Hc) as Hall.
  rewrite <- crules_eq in Hall. pose proof crules_ok as Hok.
  revert Hall. induction Hok as [|[sh repl] rs Hr _ IH]; intros Hall;
    [constructor|].
  apply Forall_cons_1 in Hall as [H1 H2].
  constructor; [split; [exact (shk_wf sh repl Hr) | exact H1] | auto].
Qed.

Lemma fix_piecewise_witness :
  separator 59 = true
  ∧ fix_expression_references
      (py "let a: &Expression = b" ++ 59 :: py " let c = Expression::Literal(1)")
    = fix_expression_references (py "let a: &Expression = b")
      ++ 59 :: fix_expression_references (py " let c = Expression::Literal(1)").
Proof.
  split; [reflexivity|]. apply (fix_piecewise 59). reflexivity.
Defined.

(** ** Rules that never fire *)

(** A pattern whose matches each hold a match of a quiet pattern is quiet. *)
Lemma quiet_within sh sh' s :
  (∀ b, fires sh' b = true → ∃ a b', b = a ++ b' ∧ b' ≠ [] ∧ fires sh b' = true) →
  quiet sh s = true → quiet sh' s = true.
Proof.
  intros Hin Hq. apply quiet_intro. intros a b Hs.
  destruct (fires sh' b) eqn:F; [|reflexivity]. exfalso.
  destruct (Hin b F) as (a' & b' & -> & Hne & F').
  rewrite (quiet_fires sh s (a ++ a') b' Hq) in F'; [discriminate| |exact Hne].
  rewrite Hs, <- app_assoc. reflexivity.
Qed.

Lemma run_prefix_quiet k i sh repl s :
  sequence_ok [] (take k crules) = true →
  take k crules !! i = Some (sh, repl) →
  quiet sh (run (take k crules) s) = true.
Proof.
  intros Hok Hi.
  pose proof (run_leaves_quiet (take k crules) [] s Hok ltac:(constructor)) as H.
  apply (Forall_rev_map_fst
           (λ sh, shape_wf sh = true ∧ quiet sh (run (take k crules) s) = true)) in H.
  apply (Forall_lookup_1 _ _ _ _ H) in Hi. apply Hi.
Qed.

(** After the rule for [Box<Expression>] the rule for
    [Option<Box<Expression>>] finds nothing. *)
Lemma option_rule_quiet s :
  quiet (Plain (py "Option<Box<Expression>>")) (run (take 20 crules) s) = true.
Proof.
  apply (quiet_within (Plain (py "Box<Expression>"))).
  - intros b [r Hb%smatch_Plain]%fires_Some.
    exists (py "Option<"), (py "Box<Expression>" ++ py ">" ++ r).
    split; [rewrite Hb; reflexivity|]. split; [discriminate|].
    apply fires_Plain.
  - apply (run_prefix_quiet 20 19 _ (py "Box<Expr>")); vm_compute; reflexivity.
Qed.

(** After the rule for the pair the rule for the slice of pairs finds
    nothing. *)
Lemma slice_rule_quiet s :
  quiet (Spaced (py "&[(Expression,") (py "Expression)]"))
        (run (take 22 crules) s) = true.
Proof.
  apply (quiet_within (Spaced (py "(Expression,") (py "Expression)"))).
  - intros b [r Hb]%fires_Some.
    apply smatch_Spaced_inv in Hb as (sp & Hb & Hsp).
    exists (py "&["), (py "(Expression," ++ sp ++ py "Expression)" ++ py "]" ++ r).
    split; [rewrite Hb; reflexivity|]. split; [discriminate|].
    apply fires_Spaced; [reflexivity | exact Hsp].
  - apply (run_prefix_quiet 22 21 _ (py "(Expr, Expr)")); vm_compute; reflexivity.
Qed.

Lemma option_rule_idle s :
  ssub (Plain (py "Option<Box<Expression>>")) (py "Option<Box<Expr>>")
       (run (take 20 crules) s)
  = run (take 20 crules) s.
Proof. apply ssub_quiet; [reflexivity | apply option_rule_quiet]. Qed.

Lemma slice_rule_idle s :
  ssub (Spaced (py "&[(Expression,") (py "Expression)]")) (py "&[(Expr, Expr)]")
       (run (take 22 crules) s)
  = run (take 22 crules) s.
Proof. apply ssub_quiet; [reflexivity | apply slice_rule_quiet]. Qed.

Lemma run_one sh repl s : run [(sh, repl)] s = ssub sh repl s.
Proof. reflexivity. Qed.

Lemma crules_split :
  crules
  = take 20 crules
    ++ [(Plain (py "Option<Box<Expression>>"), py "Option<Box<Expr>>")]
    ++ [(Spaced (py "(Expression,") (py "Expression)"), py "(Expr, Expr)")]
    ++ [(Spaced (py "&[(Expression,") (py "Expression)]"), py "&[(Expr, Expr)]")]
    ++ drop 23 crules.
Proof. vm_compute. reflexivity. Qed.

Lemma take_22_crules :
  take 22 crules
  = take 20 crules
    ++ [(Plain (py "Option<Box<Expression>>"), py "Option<Box<Expr>>")]
    ++ [(Spaced (py "(Expression,") (py "Expression)"), py "(Expr, Expr)")].
Proof. vm_compute. reflexivity. Qed.

(** X6: the substitutions for [Option<Box<Expression>>] and for
    [&[(Expression, Expression)]] never change the text they are given: the
    script without them computes the same function. *)
Theorem two_rules_never_fire (s : pystr) :
  fold_left apply_rule (delete 20%nat (delete 22%nat rules)) s
  = fix_expression_references s.
Proof.
  rewrite fold_compiled
    by (unfold rules; repeat (constructor; [vm_compute; eexists; reflexivity|]);
        constructor).
  assert (E : omap compile_rule (delete 20%nat (delete 22%nat rules))
              = take 20 crules
                ++ [(Spaced (py "(Expression,") (py "Expression)"), py "(Expr, Expr)")]
                ++ drop 23 crules) by (vm_compute; reflexivity).
  rewrite E, fix_run. rewrite crules_split at 3.
  rewrite !run_app, !run_one, option_rule_idle.
  assert (E22 : ssub (Spaced (py "(Expression,") (py "Expression)")) (py "(Expr, Expr)")
                     (run (take 20 crules) s)
                = run (take 22 crules) s).
  { rewrite take_22_crules, !run_app, !run_one, option_rule_idle. reflexivity. }
  rewrite E22, slice_rule_idle. reflexivity.
Qed.

(** * Further properties of the file walker *)

Lemma logged_fs w l : fs (logged w l) = fs w.
Proof. reflexivity. Qed.

Lemma logged_written w l : written (logged w l) = written w.
Proof. reflexivity. Qed.

(** The cases of [print] in the goal, one after another. *)
Ltac split_stdout :=
  repeat match goal with
         | |- context [if stdout ?w ?l then _ else _] =>
             destruct (stdout w l); cbn
         end.

Ltac open_process_file :=
  unfold process_file, os_path_exists, read_text, write_text, try_except,
    print, logged, mbind, M_bind, bind, mret, M_ret, ret.

Section Outcome.

Implicit Types (w : world) (path p : string) (f : file) (t : pystr).

Lemma fix_twice t :
  fix_expression_references (fix_expression_references t)
  = fix_expression_references t.
Proof. rewrite (fix_run (fix_expression_references t)). apply run_quiet, fix_quiet. Qed.

(** When the outcome is not [Fixed], [process_file] prints it and leaves the
    rest of the world as it is. *)
Lemma process_file_idle path w :
  accepts_all w → outcome (fs w !! path) ≠ Fixed →
  process_file path w
  = (Ok false, logged w (Status (outcome (fs w !! path)) path)).
Proof.
  intros Ha. unfold outcome.
  destruct (fs w !! path) as [[|f]|] eqn:H; intros Hst.
  - apply process_file_directory; assumption.
  - destruct (readable f) eqn:Hr; [|eapply process_file_unreadable; eassumption].
    destruct (text f) as [t|] eqn:Ht; [|eapply process_file_undecodable; eassumption].
    destruct (bool_decide (t ≠ fix_expression_references t)) eqn:Hd.
    + apply bool_decide_eq_true_1 in Hd.
      destruct (writable f) eqn:Hw; [congruence|].
      eapply process_file_readonly; eauto.
    + apply bool_decide_eq_false_1 in Hd.
      eapply process_file_unchanged; eauto.
      destruct (decide (fix_expression_references t = t)) as [E|E]; [exact E|].
      exfalso. apply Hd. congruence.
  - apply process_file_missing; assumption.
Qed.

(** When the outcome is [Fixed], the file held a text that the transform
    changes, and [process_file] writes the new text. *)
Lemma process_file_fixes path w :
  accepts_all w → outcome (fs w !! path) = Fixed →
  ∃ f t, fs w !! path = Some (Reg f) ∧ text f = Some t
         ∧ fix_expression_references t ≠ t
         ∧ process_file path w
           = (Ok true,
              World (<[path := Reg (File (Some (fix_expression_references t)) true true)]>
                       (fs w))
                    (console w ++ [Status Fixed path]) (written w ++ [path])
                    (stdout w)).
Proof.
  intros Ha. unfold outcome.
  destruct (fs w !! path) as [[|f]|] eqn:H; try discriminate.
  destruct (readable f) eqn:Hr; [|discriminate].
  destruct (text f) as [t|] eqn:Ht; [|discriminate].
  destruct (bool_decide (t ≠ fix_expression_references t)) eqn:Hd; [|discriminate].
  apply bool_decide_eq_true_1 in Hd.
  destruct (writable f) eqn:Hw; [|discriminate]. intros _.
  exists f, t. split; [reflexivity|]. split; [exact Ht|].
  split; [congruence|]. eapply process_file_changed; eauto.
Qed.

Lemma outcome_Fixed_dec st : {st = Fixed} + {st ≠ Fixed}.
Proof. destruct st; try (right; discriminate). left; reflexivity. Qed.

(** The file system after [process_file], whatever standard output does: as
    before, or with the new text at the path. *)
Lemma process_file_fs path w :
  fs (process_file path w).2 = fs w
  ∨ ∃ f t, fs w !! path = Some (Reg f) ∧ text f = Some t
           ∧ fix_expression_references t ≠ t
           ∧ fs (process_file path w).2
             = <[path := Reg (File (Some (fix_expression_references t)) true true)]>
                 (fs w).
Proof.
  destruct (fs w !! path) as [[|f]|] eqn:H.
  - left. open_process_file. cbn. rewrite ?H, ?found_Some. cbn. rewrite ?H. cbn.
    split_stdout; reflexivity.
  - destruct (readable f) eqn:Hr.
    + destruct (text f) as [t|] eqn:Ht.
      * destruct (bool_decide (t ≠ fix_expression_references t)) eqn:Hd.
        -- apply bool_decide_eq_true_1 in Hd as Hne.
           destruct (writable f) eqn:Hw.
           ++ right. exists f, t. split; [reflexivity|]. split; [exact Ht|].
              split; [congruence|].
              open_process_file. cbn. rewrite ?H, ?found_Some. cbn.
              rewrite ?H. cbn. rewrite Hr, Ht, Hd. cbn. rewrite ?H. cbn.
              rewrite Hw, Hr. cbn. split_stdout; reflexivity.
           ++ left. open_process_file. cbn. rewrite ?H, ?found_Some. cbn.
              rewrite ?H. cbn. rewrite Hr, Ht, Hd. cbn. rewrite ?H. cbn.
              rewrite Hw. cbn. split_stdout; reflexivity.
        -- left. open_process_file. cbn. rewrite ?H, ?found_Some. cbn.
           rewrite ?H. cbn. rewrite Hr, Ht, Hd. cbn. split_stdout; reflexivity.
      * left. open_process_file. cbn. rewrite ?H, ?found_Some. cbn.
        rewrite ?H. cbn. rewrite Hr, Ht. cbn. split_stdout; reflexivity.
    + left. open_process_file. cbn. rewrite ?H, ?found_Some. cbn.
      rewrite ?H. cbn. rewrite Hr. cbn. split_stdout; reflexivity.
  - left. open_process_file. cbn. rewrite ?H, ?found_Some. cbn.
    split_stdout; reflexivity.
Qed.

(** After [process_file] on [path] the outcome at [path] is not [Fixed], and
    it is [Fixed] at no other path where it was not. *)
Lemma outcome_after path w p :
  accepts_all w →
  p = path ∨ outcome (fs w !! p) ≠ Fixed →
  outcome (fs (process_file path w).2 !! p) ≠ Fixed.
Proof.
  intros Ha Hp.
  destruct (process_file_fs path w) as [E|(f & t & H1 & H2 & H3 & E)];
    rewrite E.
  - destruct Hp as [->|Hp]; [|exact Hp].
    destruct (outcome_Fixed_dec (outcome (fs w !! path))) as [F|F]; [|exact F].
    exfalso.
    destruct (process_file_fixes path w Ha F) as (f & t & H1 & H2 & H3 & H4).
    rewrite H4 in E. cbn [snd fs] in E.
    assert (L : (<[path := Reg (File (Some (fix_expression_references t)) true true)]>
                  (fs w)) !! path = fs w !! path) by (rewrite E; reflexivity).
    rewrite lookup_insert_eq, H1 in L. injection L as L. rewrite <- L in H2.
    cbn in H2. injection H2 as H2. congruence.
  - destruct (decide (p = path)) as [->|Hne].
    + rewrite lookup_insert_eq. cbn.
      rewrite bool_decide_eq_false_2; [discriminate|].
      intros Hd. apply Hd. symmetry. apply fix_twice.
    + rewrite lookup_insert_ne by congruence.
      destruct Hp as [->|Hp]; [congruence | exact Hp].
Qed.

Lemma process_file_elsewhere path p w :
  p ≠ path → fs (process_file path w).2 !! p = fs w !! p.
Proof.
  intros Hne.
  destruct (process_file_fs path w) as [E|(f & t & _ & _ & _ & E)]; rewrite E;
    [reflexivity|].
  apply lookup_insert_ne. congruence.
Qed.

Lemma process_file_keeps_kind path p w :
  is_Some (fs (process_file path w).2 !! p) ↔ is_Some (fs w !! p).
Proof.
  destruct (decide (p = path)) as [->|Hne];
    [|rewrite process_file_elsewhere by exact Hne; reflexivity].
  destruct (process_file_fs path w) as [E|(f & t & H1 & _ & _ & E)]; rewrite E;
    [reflexivity|].
  rewrite lookup_insert_eq, H1. split; eauto.
Qed.

(** [process_file] leaves standard output as it is. *)
Lemma process_file_stdout path w :
  accepts_all w → stdout (process_file path w).2 = stdout w.
Proof.
  intros Ha. destruct (process_file_returns path w Ha) as (st & w' & E & _ & _ & Hs).
  rewrite E. exact Hs.
Qed.

End Outcome.

(** X7: [process_file] touches no file but the one at its path, and it
    neither creates nor removes a file: what is a directory stays one, and
    what is missing stays missing.  This holds whatever standard output does
    with the notices. *)
Theorem process_file_keeps_files (path p : string) (w : world) :
  (p ≠ path → fs (process_file path w).2 !! p = fs w !! p)
  ∧ (is_Some (fs (process_file path w).2 !! p) ↔ is_Some (fs w !! p))
  ∧ (fs w !! p = Some Dir → fs (process_file path w).2 !! p = Some Dir).
Proof.
  destruct (process_file_fs path w) as [E|(f & t & H1 & H2 & H3 & E)]; rewrite E.
  - split; [reflexivity|]. split; [reflexivity | auto].
  - destruct (decide (p = path)) as [->|Hne].
    + rewrite lookup_insert_eq, H1. split; [congruence|].
      split; [split; eauto | discriminate].
    + rewrite lookup_insert_ne by congruence.
      split; [reflexivity|]. split; [reflexivity | auto].
Qed.





(** X18: [process_file] writes the file before it prints that the file was
    fixed.  When standard output cannot take that notice, the file has been
    rewritten all the same: the exception of [print] is caught by the
    handler, whose own notice is printed, and then [process_file] returns
    [False]; or is refused too, and then the exception leaves
    [process_file]. *)
Theorem write_before_notice (path : string) (w : world) (f : file) (t : pystr) :
  fs w !! path = Some (Reg f) → readable f = true → writable f = true →
  text f = Some t → fix_expression_references t ≠ t →
  stdout w (Status Fixed path) = false →
  process_file path w
  = if stdout w (Status (Failed UnicodeEncodeError) path)
    then (Ok false,
          World (<[path := Reg (File (Some (fix_expression_references t)) true true)]>
                   (fs w))
                (console w ++ [Status (Failed UnicodeEncodeError) path])
                (written w ++ [path]) (stdout w))
    else (Raised UnicodeEncodeError,
          World (<[path := Reg (File (Some (fix_expression_references t)) true true)]>
                   (fs w))
                (console w) (written w ++ [path]) (stdout w)).
Proof.
  intros H Hr Hw Ht Hfix Hout.
  open_process_file. cbn. rewrite ?H, ?found_Some. cbn. rewrite ?H. cbn.
  rewrite Hr, Ht. rewrite bool_decide_eq_true_2 by congruence.
  cbn. rewrite ?H. cbn. rewrite Hw, Hr. cbn. rewrite Hout. cbn.
  destruct (stdout w (Status (Failed UnicodeEncodeError) path)); reflexivity.
Qed.

Lemma write_before_notice_witness :
  process_file "/repo/src/expression/visitor.rs" ascii_world
  = if stdout ascii_world
         (Status (Failed UnicodeEncodeError) "/repo/src/expression/visitor.rs")
    then (Ok false,
          World (<["/repo/src/expression/visitor.rs" :=
                     Reg (File (Some (fix_expression_references scenario_input))
                               true true)]> (fs ascii_world))
                (console ascii_world
                 ++ [Status (Failed UnicodeEncodeError)
                            "/repo/src/expression/visitor.rs"])
                (written ascii_world ++ ["/repo/src/expression/visitor.rs"])
                (stdout ascii_world))
    else (Raised UnicodeEncodeError,
          World (<["/repo/src/expression/visitor.rs" :=
                     Reg (File (Some (fix_expression_references scenario_input))
                               true true)]> (fs ascii_world))
                (console ascii_world)
                (written ascii_world ++ ["/repo/src/expression/visitor.rs"])
                (stdout ascii_world)).
Proof.
  apply (write_before_notice "/repo/src/expression/visitor.rs" ascii_world
           (File (Some scenario_input) true true) scenario_input);
    [reflexivity | reflexivity | reflexivity | reflexivity
    | vm_compute; discriminate | reflexivity].
Defined.

Section Walks.

Implicit Types (e : env) (w : world) (path p : string).

(** One call of [process_file], by the outcome at its path. *)
Lemma process_file_step path w :
  accepts_all w →
  process_file path w
  = (Ok (is_Fixed (outcome (fs w !! path), path)), (process_file path w).2)
  ∧ console (process_file path w).2
    = console w ++ [Status (outcome (fs w !! path)) path]
  ∧ written (process_file path w).2
    = written w
      ++ map snd (filter (λ sp, is_Fixed sp = true) [(outcome (fs w !! path), path)]).
Proof.
  intros Ha. destruct (outcome_Fixed_dec (outcome (fs w !! path))) as [E|E].
  - destruct (process_file_fixes path w Ha E) as (f & t & _ & _ & _ & H).
    rewrite H, E. repeat split.
  - rewrite (process_file_idle path w Ha E). unfold is_Fixed. cbn [fst snd].
    destruct (outcome (fs w !! path)); try congruence;
      (split; [reflexivity|]; split; [reflexivity|];
       cbn; rewrite app_nil_r; reflexivity).
Qed.

Lemma walk_cons e p rest w :
  accepts_all w →
  walk e (p :: rest) w
  = (is_Fixed (outcome (fs w !! resolve e p), resolve e p)
       :: (walk e rest (process_file (resolve e p) w).2).1,
     (walk e rest (process_file (resolve e p) w).2).2).
Proof.
  intros Ha. cbn [walk]. destruct (process_file_step (resolve e p) w Ha) as [H _].
  rewrite H. cbn [snd]. destruct (walk e rest _) as [bs w2]. reflexivity.
Qed.

(** The loop over a list of files: what it prints, what it writes, and what
    it leaves alone. *)
Lemma walk_effects e files : ∀ w,
  accepts_all w →
  ∃ sts,
    (walk e files w).1 = map is_Fixed sts
    ∧ console (walk e files w).2 = console w ++ map status_line sts
    ∧ map snd sts = map (resolve e) files
    ∧ written (walk e files w).2
      = written w ++ map snd (filter (λ sp, is_Fixed sp = true) sts)
    ∧ (∀ p, ¬ In p (map (resolve e) files) →
            fs (walk e files w).2 !! p = fs w !! p)
    ∧ (∀ p, is_Some (fs (walk e files w).2 !! p) ↔ is_Some (fs w !! p))
    ∧ (∀ p, In p (map (resolve e) files) ∨ outcome (fs w !! p) ≠ Fixed →
            outcome (fs (walk e files w).2 !! p) ≠ Fixed).
Proof.
  induction files as [|p0 rest IH]; intros w Ha.
  - exists []. cbn. rewrite !app_nil_r.
    repeat split; auto. intros p [[]|H]; exact H.
  - set (path := resolve e p0). set (w1 := (process_file path w).2).
    destruct (process_file_step path w Ha) as (_ & Hc & Hw).
    assert (Ha1 : accepts_all w1)
      by (apply (accepts_all_stdout _ _ (process_file_stdout path w Ha) Ha)).
    destruct (IH w1 Ha1) as (sts & Hb & Hc' & Hp & Hw' & Hfs & Hdom & Hout).
    exists ((outcome (fs w !! path), path) :: sts).
    rewrite (walk_cons _ _ _ _ Ha). fold path. fold w1. cbn [fst snd map].
    split; [rewrite Hb; reflexivity|].
    split; [rewrite Hc'; unfold w1; rewrite Hc, <- app_assoc; reflexivity|].
    split; [rewrite Hp; reflexivity|].
    split.
    { rewrite Hw'. unfold w1. rewrite Hw, <- app_assoc. f_equal.
      rewrite <- map_app. f_equal.
      destruct (is_Fixed (outcome (fs w !! path), path)) eqn:F.
      - rewrite !filter_cons_True by exact F. rewrite filter_nil. reflexivity.
      - rewrite !filter_cons_False by congruence. rewrite filter_nil. reflexivity. }
    split.
    { intros p Hp'. rewrite Hfs by (intros H; apply Hp'; right; exact H).
      apply process_file_elsewhere.
      intros ->. apply Hp'. left. reflexivity. }
    split.
    { intros p. rewrite Hdom. apply (process_file_keeps_kind path p w). }
    intros p Hp'. apply Hout.
    destruct (in_dec string_dec p (map (resolve e) rest)) as [Hin|Hin]; [left; exact Hin|].
    right. apply outcome_after; [exact Ha|].
    destruct Hp' as [[<-|Hin']|Hst]; [left; reflexivity | contradiction | right; exact Hst].
Qed.


End Walks.



(** The loop over files whose outcome is not [Fixed]: a line for each, and
    nothing else. *)
Lemma walk_idle e files : ∀ w,
  accepts_all w →
  (∀ p, In p (map (resolve e) files) → outcome (fs w !! p) ≠ Fixed) →
  walk e files w
  = (map (λ _, false) files,
     World (fs w)
           (console w
            ++ map (λ p, Status (outcome (fs w !! resolve e p)) (resolve e p)) files)
           (written w) (stdout w)).
Proof.
  induction files as [|p0 rest IH]; intros w Ha Hall.
  - cbn. rewrite app_nil_r. destruct w; reflexivity.
  - assert (H0 : outcome (fs w !! resolve e p0) ≠ Fixed)
      by (apply Hall; left; reflexivity).
    cbn [walk]. rewrite (process_file_idle _ w Ha H0).
    rewrite IH;
      [|exact Ha|intros p Hp; rewrite logged_fs; apply Hall; right; exact Hp].
    cbn [map]. rewrite logged_fs, logged_written. unfold logged.
    cbn [console stdout]. rewrite <- app_assoc. reflexivity.
Qed.

Lemma count_true_false {A} (l : list A) : count_true (map (λ _, false) l) = 0%nat.
Proof.
  unfold count_true. induction l as [|x l IH]; [reflexivity|]. cbn [map].
  rewrite filter_cons_False by discriminate. exact IH.
Qed.

(** [main] in a world where no file of the list has the outcome [Fixed]. *)
Lemma main_idle e w :
  accepts_all w →
  (∀ p, In p (map (resolve e) FILES_TO_FIX) → outcome (fs w !! p) ≠ Fixed) →
  main e w
  = (Ok tt,
     World (fs w)
           (console w ++ [Rule; Title; Rule]
            ++ map (λ p, Status (outcome (fs w !! resolve e p)) (resolve e p))
                   FILES_TO_FIX
            ++ [Rule; Summary 0; Rule])
           (written w) (stdout w)).
Proof.
  intros Ha Hall. rewrite (main_runs e w Ha).
  rewrite (walk_idle e FILES_TO_FIX (after_banner w) Ha) by exact Hall.
  cbn [fst snd]. rewrite count_true_false.
  unfold logged, after_banner, logged. cbn [fs console written stdout].
  rewrite <- !app_assoc. reflexivity.
Qed.



(** X11: when none of the files of the list is there and standard output
    takes the lines of the script, [main] prints that it skips each of them
    and the count 0, and changes nothing. *)
Theorem main_nothing_present (e : env) (w : world) :
  accepts_all w → none_present e w = true →
  main e w
  = (Ok tt,
     World (fs w)
           (console w ++ [Rule; Title; Rule]
            ++ map (λ p, Status Skipped (resolve e p)) FILES_TO_FIX
            ++ [Rule; Summary 0; Rule])
           (written w) (stdout w)).
Proof.
  intros Ha Hnone. unfold none_present in Hnone. rewrite forallb_forall in Hnone.
  assert (Hno : ∀ p, In p FILES_TO_FIX → fs w !! resolve e p = None).
  { intros p Hp. specialize (Hnone p Hp). apply negb_true_iff in Hnone.
    apply bool_decide_eq_false_1 in Hnone.
    destruct (fs w !! resolve e p); [exfalso; apply Hnone; eauto | reflexivity]. }
  rewrite (main_idle e w Ha).
  - f_equal. f_equal. f_equal. f_equal. f_equal.
    apply map_ext_in. intros p Hp. rewrite (Hno p Hp). reflexivity.
  - intros p (p0 & <- & Hp0)%in_map_iff. rewrite (Hno p0 Hp0). discriminate.
Qed.

Lemma main_nothing_present_witness :
  accepts_all (World ∅ [] [] utf8_stdout)
  ∧ none_present demo_env (World ∅ [] [] utf8_stdout) = true
  ∧ main demo_env (World ∅ [] [] utf8_stdout)
    = (Ok tt,
       World ∅
             ([] ++ [Rule; Title; Rule]
              ++ map (λ p, Status Skipped (resolve demo_env p)) FILES_TO_FIX
              ++ [Rule; Summary 0; Rule])
             [] utf8_stdout).
Proof.
  assert (Ha : accepts_all (World ∅ [] [] utf8_stdout)) by (intros l; reflexivity).
  split; [exact Ha|]. split; [reflexivity|].
  apply (main_nothing_present demo_env (World ∅ [] [] utf8_stdout) Ha). reflexivity.
Defined.

(** * The paths of the files *)

Section Paths.

Implicit Types (e : env) (a b p : string) (l : list ascii).

Lemma list_ascii_app a b :
  list_ascii_of_string (a ++ b)%string
  = list_ascii_of_string a ++ list_ascii_of_string b.
Proof.
  induction a as [|x a IH]; [reflexivity|].
  change (x :: list_ascii_of_string (a ++ b)%string
          = x :: (list_ascii_of_string a ++ list_ascii_of_string b)).
  f_equal. exact IH.
Qed.

Lemma string_of_list_ascii_inj l1 l2 :
  string_of_list_ascii l1 = string_of_list_ascii l2 → l1 = l2.
Proof.
  intros H. apply (f_equal list_ascii_of_string) in H.
  rewrite !list_ascii_of_string_of_list_ascii in H. exact H.
Qed.

(** The resolved path is a prefix that depends on the place of the script
    only, followed by the relative path with its separators replaced. *)
Lemma resolve_split e :
  ∃ pre, ∀ p,
    resolve e p
    = string_of_list_ascii
        (pre ++ list_ascii_of_string (use_separator e p)).
Proof.
  unfold resolve, os_path_join, use_separator.
  set (f := λ c : ascii, if (Ascii.eqb c "/" || Ascii.eqb c "\")%char then sep e else c).
  destruct (ends_with (sep e) (base_path e)).
  - exists (map f (list_ascii_of_string (base_path e))). intros p. cbv iota.
    rewrite list_ascii_app, map_app, list_ascii_of_string_of_list_ascii.
    reflexivity.
  - exists (map f (list_ascii_of_string (base_path e)) ++ [f (sep e)]). intros p.
    cbv iota. rewrite list_ascii_app, map_app, list_ascii_of_string_of_list_ascii.
    cbn [list_ascii_of_string map]. rewrite <- app_assoc. reflexivity.
Qed.

Lemma use_separator_sep e1 e2 p :
  sep e1 = sep e2 → use_separator e1 p = use_separator e2 p.
Proof. intros H. unfold use_separator. rewrite H. reflexivity. Qed.

Lemma relative_paths_distinct e :
  sep e = "/"%char ∨ sep e = "\"%char →
  NoDup (map (use_separator e) FILES_TO_FIX).
Proof.
  intros [H|H].
  - rewrite (map_ext _ _ (λ p, use_separator_sep e (Env "" "/") p H)).
    apply (bool_decide_unpack _). vm_compute. exact I.
  - rewrite (map_ext _ _ (λ p, use_separator_sep e (Env "" "\") p H)).
    apply (bool_decide_unpack _). vm_compute. exact I.
Qed.

Lemma resolved_paths_NoDup e :
  sep e = "/"%char ∨ sep e = "\"%char →
  NoDup (map (resolve e) FILES_TO_FIX).
Proof.
  intros H. destruct (resolve_split e) as (pre & Hpre).
  rewrite (map_ext _ _ Hpre).
  rewrite <- (map_map (use_separator e)
                (λ x, string_of_list_ascii (pre ++ list_ascii_of_string x))).
  assert (Hinj : Inj (=) (=) (λ x, string_of_list_ascii (pre ++ list_ascii_of_string x))).
  { intros x y E. apply string_of_list_ascii_inj, app_inv_head in E.
    apply (f_equal string_of_list_ascii) in E.
    rewrite !string_of_list_ascii_of_string in E. exact E. }
  apply (NoDup_fmap_2 _). apply relative_paths_distinct, H.
Qed.

End Paths.

(** X12: on a platform whose separator is [/] or [\] the paths of the
    seventeen files are distinct, and [main], started with no file written
    on a standard output that takes its lines, writes no file twice. *)
Theorem main_writes_once (e : env) (w : world) :
  accepts_all w →
  sep e = "/"%char ∨ sep e = "\"%char → written w = [] →
  NoDup (map (resolve e) FILES_TO_FIX) ∧ NoDup (written (main e w).2).
Proof.
  intros Ha Hsep Hw. pose proof (resolved_paths_NoDup e Hsep) as Hnd.
  split; [exact Hnd|].
  rewrite (main_runs e w Ha). cbn [snd]. rewrite !logged_written.
  destruct (walk_effects e FILES_TO_FIX (after_banner w) Ha)
    as (sts & _ & _ & Hp & Hwr & _).
  rewrite Hwr. unfold after_banner. rewrite !logged_written, Hw. cbn [app].
  rewrite <- Hp in Hnd.
  apply (sublist_NoDup _ _ Hnd). apply fmap_sublist, sublist_filter.
Qed.

Lemma main_writes_once_witness :
  NoDup (map (resolve demo_env) FILES_TO_FIX)
  ∧ NoDup (written (main demo_env demo_world).2).
Proof.
  apply (main_writes_once demo_env demo_world);
    [intros l; reflexivity | left; reflexivity | reflexivity].
Defined.

Section Separators.

Implicit Types (e : env) (p : string) (c : ascii).

Lemma map_id_on {A} (f : A → A) (l : list A) :
  Forall (λ x, f x = x) l → map f l = l.
Proof. induction 1 as [|x l Hx _ IH]; [reflexivity|]. cbn. rewrite Hx, IH. reflexivity. Qed.

Lemma length_string_of_list l :
  String.length (string_of_list_ascii l) = length l.
Proof. induction l as [|x l IH]; [reflexivity|]. cbn. rewrite IH. reflexivity. Qed.

Lemma length_list_of_string p :
  length (list_ascii_of_string p) = String.length p.
Proof. induction p as [|x p IH]; [reflexivity|]. cbn. rewrite IH. reflexivity. Qed.

End Separators.

(** X13: the two replacements of [main] make every [/] and every [\] of the
    path the separator of the platform, in one pass over the path: the
    length stays, no [/] or [\] other than the separator is left, a path
    without them is returned as it is, and doing it again changes
    nothing. *)
Theorem use_separator_normalises (e : env) (p : string) :
  use_separator e p = str_replace "\" (sep e) (str_replace "/" (sep e) p)
  ∧ String.length (use_separator e p) = String.length p
  ∧ Forall (λ c, is_slash c = true → c = sep e)
           (list_ascii_of_string (use_separator e p))
  ∧ (forallb (λ c, negb (is_slash c)) (list_ascii_of_string p) = true →
     use_separator e p = p)
  ∧ use_separator e (use_separator e p) = use_separator e p.
Proof.
  unfold use_separator, str_replace, is_slash.
  rewrite !list_ascii_of_string_of_list_ascii.
  split; [|split; [|split; [|split]]].
  - f_equal. rewrite map_map. apply map_ext. intros c.
    destruct (Ascii.eqb c "/") eqn:E1; cbn.
    + destruct (Ascii.eqb (sep e) "\"); reflexivity.
    + reflexivity.
  - rewrite length_string_of_list, length_map. apply length_list_of_string.
  - apply Forall_map. apply Forall_forall. intros c _. cbn.
    destruct (Ascii.eqb c "/" || Ascii.eqb c "\") eqn:E; [reflexivity|].
    intros H. rewrite E in H. discriminate.
  - intros H. rewrite map_id_on; [apply string_of_list_ascii_of_string|].
    rewrite forallb_forall in H. apply Forall_forall. intros c Hc%list_elem_of_In.
    specialize (H c Hc). apply negb_true_iff in H. rewrite H. reflexivity.
  - f_equal. rewrite map_map. apply map_ext. intros c.
    destruct (Ascii.eqb c "/" || Ascii.eqb c "\") eqn:E; [|rewrite E; reflexivity].
    destruct (Ascii.eqb (sep e) "/" || Ascii.eqb (sep e) "\"); reflexivity.
Qed.

(** X14: the slice type [&[(String, Expression)]] that the comment of the
    last substitution names is not what its pattern matches: wherever it
    stands, the transform leaves it, and the pair type inside it, as it
    is. *)
Theorem string_pairs_left (u : pystr) :
  (∃ u', ∀ v,
     fix_expression_references (u ++ py "&[(String, Expression)]" ++ v)
     = u' ++ py "&[(String, Expression)]" ++ fix_expression_references v)
  ∧ (∃ u', ∀ v,
       fix_expression_references (u ++ py "(String, Expression)" ++ v)
       = u' ++ py "(String, Expression)" ++ fix_expression_references v).
Proof.
  split.
  - destruct (block_run crules (py "&[(String, Expression)]")
                (forallb_Forall_inert (py "&[(String, Expression)]") crules
                   crules_ok ltac:(vm_compute; reflexivity))
                ltac:(discriminate) u) as (u' & H).
    exists u'. intros v. rewrite !fix_run. apply H.
  - destruct (block_run crules (py "(String, Expression)")
                (forallb_Forall_inert (py "(String, Expression)") crules
                   crules_ok ltac:(vm_compute; reflexivity))
                ltac:(discriminate) u) as (u' & H).
    exists u'. intros v. rewrite !fix_run. apply H.
Qed.

(** * Rules that only rename *)

Section Rename.

Implicit Types (a x y z s t r w : pystr) (sh : shape).

Lemma has_char_cons c d s : has_char c (d :: s) = (c =? d) || has_char c s.
Proof. reflexivity. Qed.

Lemma has_char_app c a b : has_char c (a ++ b) = has_char c a || has_char c b.
Proof. apply existsb_app. Qed.

(** Text without [E] is copied. *)
Lemma rename_skip a z :
  has_char 69 a = false → rename_only (a ++ z) = a ++ rename_only z.
Proof.
  intros Ha. unfold rename_only. apply ssub_copy_prefix; [reflexivity|].
  intros a1 b -> Hb. destruct b as [|c b]; [congruence|].
  rewrite has_char_app, has_char_cons in Ha.
  apply orb_false_iff in Ha as [_ [Hc _]%orb_false_iff].
  change (smatch (Plain Expression) ((c :: b) ++ z))
    with (if c =? 69 then strip_prefix (py "xpression") (b ++ z) else None).
  rewrite N.eqb_sym, Hc. reflexivity.
Qed.

Lemma rename_hit z : rename_only (Expression ++ z) = Expr ++ rename_only z.
Proof.
  unfold rename_only. apply ssub_fire; [reflexivity|].
  apply smatch_Plain. reflexivity.
Qed.

(** [Expr] is copied, unless [ession] follows. *)
Lemma rename_Expr z :
  head z ≠ Some 101 → rename_only (Expr ++ z) = Expr ++ rename_only z.
Proof.
  intros Hz. change (Expr ++ z) with (69 :: (py "xpr" ++ z)).
  unfold rename_only at 1. rewrite ssub_copy; [|reflexivity|].
  - fold (rename_only (py "xpr" ++ z)).
    rewrite rename_skip by reflexivity. reflexivity.
  - change (smatch (Plain Expression) (69 :: py "xpr" ++ z))
      with (strip_prefix (py "ession") z).
    destruct z as [|c z]; [reflexivity|].
    change (strip_prefix (py "ession") (c :: z))
      with (if c =? 101 then strip_prefix (py "ssion") z else None).
    destruct (N.eqb_spec c 101) as [->|_]; [|reflexivity].
    exfalso. apply Hz. reflexivity.
Qed.

Variable sh : shape.
Variable repl : pystr.
Hypothesis rule_renames : renames_only (sh, repl) = true.

Lemma rename_rule_ok : rule_ok (sh, repl) = true.
Proof.
  apply andb_true_iff in rule_renames as [[H _]%andb_true_iff _]. exact H.
Qed.

(** The parts of the rule. *)
Lemma rename_parts :
  ∃ w x y,
    lit_of sh = Some w ∧ w = x ++ Expression ++ y ∧ repl = x ++ Expr ++ y
    ∧ has_char 69 x = false ∧ has_char 69 y = false
    ∧ (∀ z, (is_bounded sh = true → word_here z = false) →
            head (y ++ z) ≠ Some 101)
    ∧ no_start_in w (py "xpression") = true
    ∧ (∀ c, In c (py "xpression") → head repl ≠ Some c).
Proof.
  apply andb_true_iff in rule_renames as [[_ Hs]%andb_true_iff H].
  unfold simple_rule in Hs. cbn [fst snd] in *.
  destruct (lit_of sh) as [w|] eqn:Hw; [|discriminate].
  assert (Hs' : match split_at Expression w with
                | Some xy => list_eqb repl (xy.1 ++ Expr ++ xy.2)
                | None => false
                end = true).
  { destruct sh; cbn in Hw; try discriminate; injection Hw as <-; exact Hs. }
  apply andb_true_iff in H as [[H1 H2]%andb_true_iff H3].
  destruct (split_at Expression w) as [[x y]|] eqn:E; [|discriminate].
  cbn [fst snd] in *. apply split_at_Some in E. apply list_eqb_eq in Hs'.
  apply andb_true_iff in H1 as [[Hx%negb_true_iff Hy%negb_true_iff]%andb_true_iff Hh].
  exists w, x, y. repeat split; try assumption.
  - intros z Hz. destruct y as [|c y].
    + cbn [app]. specialize (Hz Hh). intros Hhead.
      destruct z as [|c z]; [discriminate|]. injection Hhead as ->.
      cbn in Hz. vm_compute in Hz. discriminate.
    + cbn. apply negb_true_iff, N.eqb_neq in Hh. congruence.
  - intros c Hc Hhead. rewrite Hhead in H3.
    apply negb_true_iff in H3. apply has_char_In in Hc. congruence.
Qed.

Lemma lit_match s r :
  smatch sh s = Some r →
  ∃ w, lit_of sh = Some w ∧ s = w ++ r
       ∧ (is_bounded sh = true → word_here r = false).
Proof.
  intros H. destruct rename_parts as (w & _ & _ & Hw & _).
  exists w. split; [exact Hw|].
  split.
  - destruct sh; cbn in Hw; try discriminate; injection Hw as <-.
    + apply smatch_Plain in H. exact H.
    + apply smatch_Bounded in H as [H _]. exact H.
  - intros Hb. exact (bounded_rest sh repl rename_rule_ok s r Hb H).
Qed.

(** Where the output starts with characters that no replacement starts
    with, they were copied. *)
Lemma ssub_prefix_inv a : ∀ t rest,
  (∀ c, In c a → head repl ≠ Some c) →
  ssub sh repl t = a ++ rest →
  ∃ t', t = a ++ t' ∧ rest = ssub sh repl t'.
Proof.
  pose proof (shk_wf sh repl rename_rule_ok) as Hwf.
  induction a as [|x a IH]; intros t rest Ha H; [exists t; auto|].
  destruct t as [|c t]; [rewrite ssub_nil in H; discriminate|].
  destruct (smatch sh (c :: t)) as [r|] eqn:E.
  - exfalso. rewrite (ssub_fire _ _ Hwf _ _ E) in H.
    destruct (repl_head sh repl rename_rule_ok) as [Hne _].
    apply (Ha x); [left; reflexivity|].
    destruct repl as [|h rp]; [congruence|]. injection H as -> _. reflexivity.
  - rewrite (ssub_copy _ _ Hwf _ _ E) in H. injection H as -> H.
    destruct (IH t rest (λ c Hc, Ha c (or_intror Hc)) H) as (t' & -> & ->).
    exists t'. auto.
Qed.

(** The rule changes nothing but the name. *)
Lemma rename_step n : ∀ s,
  (length s ≤ n)%nat → rename_only (ssub sh repl s) = rename_only s.
Proof.
  pose proof (shk_wf sh repl rename_rule_ok) as Hwf.
  destruct rename_parts as (w & x & y & Hlit & Hw & Hrepl & Hx & Hy & Hhead & Hin & Hout).
  induction n as [|n IH]; intros s Hlen.
  - destruct s; [reflexivity | simpl in Hlen; lia].
  - destruct s as [|c t]; [reflexivity|].
    destruct (smatch sh (c :: t)) as [r|] eqn:E.
    + rewrite (ssub_fire _ _ Hwf _ _ E).
      destruct (lit_match _ _ E) as (w' & Hw' & Hs & Hb).
      rewrite Hlit in Hw'. injection Hw' as <-.
      assert (Hr : (length r ≤ n)%nat).
      { pose proof (smatch_shorter _ _ _ Hwf E). simpl in *. lia. }
      rewrite Hs, Hw. rewrite Hrepl at 1. rewrite <- !app_assoc.
      rewrite !(rename_skip x) by exact Hx.
      rewrite rename_hit, rename_Expr.
      * rewrite !(rename_skip y) by exact Hy. rewrite (IH r Hr). reflexivity.
      * apply Hhead. intros Hbd.
        rewrite (word_here_head _ r (ssub_head sh repl rename_rule_ok r)).
        apply Hb, Hbd.
    + rewrite (ssub_copy _ _ Hwf _ _ E).
      assert (Ht : rename_only (ssub sh repl t) = rename_only t)
        by (apply IH; simpl in Hlen; lia).
      destruct (N.eqb_spec c 69) as [->|Hc].
      * destruct (smatch (Plain Expression) (69 :: t)) as [q|] eqn:F.
        -- apply smatch_Plain in F.
           assert (Et : t = py "xpression" ++ q)
             by (change Expression with (69 :: py "xpression") in F;
                 injection F as F; exact F).
           clear F. subst t.
           assert (Hq : (length q ≤ n)%nat).
           { simpl in Hlen. lia. }
           rewrite (ssub_copy_prefix sh repl (py "xpression") q Hwf).
           ++ change (69 :: py "xpression" ++ ?z) with (Expression ++ z).
              rewrite !rename_hit, (IH q Hq). reflexivity.
           ++ assert (Hfl : first_lit sh = w).
              { clear -Hlit. destruct sh; cbn in *; congruence. }
              rewrite <- Hfl in Hin. apply (no_start_in_spec sh _ q Hin).
        -- assert (F' : smatch (Plain Expression) (69 :: ssub sh repl t) = None).
           { destruct (smatch (Plain Expression) (69 :: ssub sh repl t)) as [q|] eqn:G;
               [|reflexivity]. exfalso.
             apply smatch_Plain in G.
             assert (Gt : ssub sh repl t = py "xpression" ++ q)
               by (change Expression with (69 :: py "xpression") in G;
                   injection G as G; exact G).
             destruct (ssub_prefix_inv _ _ _ Hout Gt) as (t' & -> & _).
             assert (smatch (Plain Expression) (69 :: py "xpression" ++ t') = Some t')
               by (apply smatch_Plain; reflexivity).
             congruence. }
           unfold rename_only in *.
           rewrite (ssub_copy (Plain Expression) Expr eq_refl _ _ F),
             (ssub_copy (Plain Expression) Expr eq_refl _ _ F').
           rewrite Ht. reflexivity.
      * change (c :: ssub sh repl t) with ([c] ++ ssub sh repl t).
        change (c :: t) with ([c] ++ t).
        assert (Hcc : has_char 69 [c] = false).
        { rewrite has_char_cons. change (has_char 69 []) with false.
          rewrite orb_false_r. apply N.eqb_neq. congruence. }
        rewrite !(rename_skip [c]) by exact Hcc. rewrite Ht. reflexivity.
Qed.

End Rename.

Lemma forallb_Forall {A} (f : A → bool) (l : list A) :
  forallb f l = true → Forall (λ x, f x = true) l.
Proof.
  induction l as [|x l IH]; [constructor|]. simpl.
  intros [H1 H2]%andb_true_iff. constructor; auto.
Qed.

Lemma run_renames rs :
  Forall (λ r, renames_only r = true) rs →
  ∀ s, rename_only (run rs s) = rename_only s.
Proof.
  induction 1 as [|[sh repl] rs Hr _ IH]; intros s; [reflexivity|].
  change (run ((sh, repl) :: rs) s) with (run rs (ssub sh repl s)).
  rewrite IH. apply (rename_step sh repl Hr (length s)). lia.
Qed.

(** A rule that returns the text as it is matches nowhere in it. *)
Lemma ssub_fixed_quiet sh repl s :
  shrinks (sh, repl) = true → ssub sh repl s = s → quiet sh s = true.
Proof.
  intros Hs. pose proof Hs as [Hwf _]%andb_true_iff. cbn [fst] in Hwf.
  induction s as [|c t IH]; [reflexivity|]. intros H.
  destruct (smatch sh (c :: t)) as [r|] eqn:E.
  - exfalso. destruct (ssub_length sh repl (c :: t) Hs) as [Hle _].
    rewrite (ssub_fire _ _ Hwf _ _ E) in H.
    destruct (smatch_consumes _ _ _ Hwf E) as (m & Hm & _).
    rewrite Hm in E. apply smatch_min_length in E.
    apply andb_true_iff in Hs as [_ Hlt%Nat.ltb_lt]. cbn [fst snd] in Hlt.
    destruct (ssub_length sh repl r) as [Hr _]; [apply andb_true_iff; split;
      [exact Hwf | apply Nat.ltb_lt; exact Hlt]|].
    apply (f_equal length) in H. rewrite Hm, !length_app in H. lia.
  - rewrite (ssub_copy _ _ Hwf _ _ E) in H. injection H as H.
    cbn [quiet]. unfold fires. rewrite E. cbn. apply IH, H.
Qed.

Lemma run_keeps_quiet rs done :
  Forall (λ r, rule_ok r = true ∧ forallb (λ shj, pair_ok shj r) done = true) rs →
  ∀ s, Forall (λ sh, shape_wf sh = true ∧ quiet sh s = true) done →
       Forall (λ sh, shape_wf sh = true ∧ quiet sh (run rs s) = true) done.
Proof.
  induction 1 as [|[sh repl] rs [Hr Hp] _ IH]; intros s Hq; [exact Hq|].
  change (run ((sh, repl) :: rs) s) with (run rs (ssub sh repl s)).
  apply IH. apply step_keeps_quiet; assumption.
Qed.

Lemma fixed_quiet_all rs s :
  Forall (λ r, shrinks r = true) rs →
  Forall (λ rk : shape * pystr, ssub rk.1 rk.2 s = s) rs →
  Forall (λ sh, shape_wf sh = true ∧ quiet sh s = true) (map fst rs).
Proof.
  induction 1 as [|[sh repl] rs Hr _ IH]; intros Hfix; [constructor|].
  apply Forall_cons_1 in Hfix as [Hl1 Hl2].
  cbn [map fst]. constructor; [|exact (IH Hl2)].
  cbn [fst snd] in *. split; [|apply (ssub_fixed_quiet sh repl s Hr Hl1)].
  apply andb_true_iff in Hr as [Hwf _]. exact Hwf.
Qed.

Lemma first_rules_rename : Forall (λ r, renames_only r = true) first_rules.
Proof. apply forallb_Forall. vm_compute. reflexivity. Qed.

Lemma first_rules_keep :
  Forall (λ r, rule_ok r = true
               ∧ forallb (λ shj, pair_ok shj r) (map fst last_rules) = true)
         first_rules.
Proof.
  eapply Forall_impl;
    [apply (forallb_Forall keeps_last_quiet); vm_compute; reflexivity|].
  intros r H. apply andb_true_iff in H. exact H.
Qed.

(** X15: the first twenty-one substitutions (imports, borrow, variants and
    containers) do nothing but shorten [Expression] to [Expr]: with every
    [Expression] that is left renamed as well, their output and their input
    are the same text.  The same holds of the whole transform on a text that
    the three last substitutions (pairs and slices) leave as it is. *)
Theorem first_rules_only_rename (s : pystr) :
  rename_only (fold_left apply_rule (take 21 rules) s) = rename_only s
  ∧ (Forall (λ r : string * string, re_sub r.1 r.2 s = s) (drop 21 rules) →
     rename_only (fix_expression_references s) = rename_only s).
Proof.
  assert (H1 : rename_only (run first_rules s) = rename_only s)
    by (apply run_renames, first_rules_rename).
  split.
  - rewrite fold_compiled
      by (unfold rules; cbn [take];
          repeat (constructor; [vm_compute; eexists; reflexivity|]); constructor).
    assert (E : omap compile_rule (take 21 rules) = first_rules)
      by (vm_compute; reflexivity).
    rewrite E. exact H1.
  - intros Hlast.
    apply (compiled_fixed (drop 21 rules) s) in Hlast;
      [|unfold rules; cbn [drop];
        repeat (constructor; [vm_compute; eexists; reflexivity|]); constructor].
    assert (E : omap compile_rule (drop 21 rules) = last_rules)
      by (vm_compute; reflexivity).
    rewrite E in Hlast.
    assert (Hq : Forall (λ sh, shape_wf sh = true ∧ quiet sh s = true)
                        (map fst last_rules)).
    { apply fixed_quiet_all; [|exact Hlast].
      apply forallb_Forall. vm_compute. reflexivity. }
    pose proof (run_keeps_quiet first_rules (map fst last_rules)
                  first_rules_keep s Hq) as Hq'.
    rewrite fix_two_runs, run_quiet; [exact H1|].
    apply Forall_map in Hq'. exact Hq'.
Qed.

Lemma first_rules_only_rename_witness :
  Forall (λ r : string * string,
            re_sub r.1 r.2 (py "fn f(a: &Expression, b: Vec<Expression>) -> Expression")
            = py "fn f(a: &Expression, b: Vec<Expression>) -> Expression")
         (drop 21 rules)
  ∧ rename_only (fix_expression_references
                   (py "fn f(a: &Expression, b: Vec<Expression>) -> Expression"))
    = rename_only (py "fn f(a: &Expression, b: Vec<Expression>) -> Expression").
Proof.
  assert (H : Forall (λ r : string * string,
                        re_sub r.1 r.2
                          (py "fn f(a: &Expression, b: Vec<Expression>) -> Expression")
                        = py "fn f(a: &Expression, b: Vec<Expression>) -> Expression")
                     (drop 21 rules))
    by (unfold rules; cbn [drop]; repeat (constructor; [reflexivity|]); constructor).
  split; [exact H|].
  exact (proj2 (first_rules_only_rename _) H).
Defined.

(** * A reference renamed where it stands *)

Section AtBoundary.

Implicit Types (u v b w s g B F : pystr) (sh : shape) (gs : list pystr).

(** Before a word boundary no match starts inside the block. *)
Lemma no_start_at_boundary sh B v b :
  start_in_ok sh (Bounded B) B = true → word_here v = false →
  In b (tails_from 0 B) → smatch sh (b ++ v) = None.
Proof.
  intros Hin Hv Hb. unfold start_in_ok in Hin. rewrite forallb_forall in Hin.
  specialize (Hin b Hb). apply andb_true_iff in Hin as [Hfit Hpast].
  apply negb_true_iff in Hfit.
  destruct (smatch sh (b ++ v)) as [r|] eqn:E; [|reflexivity]. exfalso.
  apply smatch_first_lit in E as [k E].
  apply app_cut in E as [(l & Hbl & _)|(l & Hl & Hw & Hout)].
  - assert (prefix_b (first_lit sh) b = true)
      by (apply prefix_b_spec; eauto). congruence.
  - assert (Hpre : prefix_b b (first_lit sh) = true)
      by (apply prefix_b_spec; eauto).
    rewrite Hpre in Hpast. apply andb_true_iff in Hpast as [_ Hword].
    rewrite Hw, drop_app_length in Hword.
    assert (Hh : head l = head v)
      by (rewrite Hout; symmetry; apply head_app_nonempty; assumption).
    rewrite (word_here_head _ _ Hh) in Hword. congruence.
Qed.

Lemma idle_at_boundary sh repl B v :
  shape_wf sh = true → start_in_ok sh (Bounded B) B = true →
  word_here v = false →
  ssub sh repl (B ++ v) = B ++ ssub sh repl v.
Proof.
  intros Hwf Hin Hv. apply ssub_copy_prefix; [exact Hwf|].
  intros a b -> Hb. apply (no_start_at_boundary sh (a ++ b) v b Hin Hv).
  apply tails_from_In; [lia | exact Hb].
Qed.

Lemma fire_at_boundary B repl v :
  rule_ok (Bounded B, repl) = true → word_here v = false →
  ssub (Bounded B) repl (B ++ v) = repl ++ ssub (Bounded B) repl v.
Proof.
  intros Hr Hv. apply ssub_fire; [exact (shk_wf _ _ Hr)|].
  apply smatch_Bounded. split; [reflexivity|].
  unfold rule_ok in Hr. cbn [fst snd] in Hr.
  apply andb_true_iff in Hr as [_ Hlast].
  unfold at_boundary. rewrite Hlast, Hv. reflexivity.
Qed.

(** The scan of the text before a block that is in reach only after a
    guard, when what the scan makes of the block and the rest is known. *)
Lemma guarded_scan_to gs sh repl B v F n :
  rule_ok (sh, repl) = true → reach_guarded gs B sh = true →
  forallb (guard_safe repl) gs = true → B ≠ [] →
  ssub sh repl (B ++ v) = F →
  ∀ u, (length u ≤ n)%nat → unguarded gs u →
  ∃ u', ssub sh repl (u ++ B ++ v) = u' ++ F ∧ Forall (λ g, kept g u u') gs.
Proof.
  intros Hr Hreach Hsafe HB HF.
  pose proof (shk_wf _ _ Hr) as Hwf.
  destruct (repl_head _ _ Hr) as [Hrepl _].
  induction n as [|n IH]; intros u Hlen Hg.
  - destruct u; [|simpl in Hlen; lia]. exists []. split; [exact HF|].
    apply Forall_forall. intros g _. apply kept_nil.
  - destruct u as [|c t].
    { exists []. split; [exact HF|].
      apply Forall_forall. intros g _. apply kept_nil. }
    destruct (smatch sh ((c :: t) ++ B ++ v)) as [r|] eqn:E.
    + destruct (match_before_guarded gs sh B (c :: t) v r Hwf Hreach HB
                  ltac:(discriminate) Hg E) as (m & u2 & Hu & Hm & ->).
      assert (Hshort : (length u2 ≤ n)%nat).
      { apply (f_equal length) in Hu. rewrite length_app in Hu.
        destruct m; [congruence|]. simpl in Hu, Hlen. lia. }
      rewrite Hu in Hg |- *.
      destruct (IH u2 Hshort (unguarded_suffix _ _ _ Hg)) as (u2' & Heq & Hkept).
      exists (repl ++ u2'). split.
      * rewrite <- Hu. rewrite (ssub_fire _ _ Hwf _ _ E), Heq, <- app_assoc.
        reflexivity.
      * clear -Hkept Hsafe Hrepl. induction Hkept as [|g gs' Hk _ IHk];
          [constructor|].
        simpl in Hsafe. apply andb_true_iff in Hsafe as [Hs1 Hs2].
        constructor; [apply kept_fire; assumption | auto].
    + destruct (IH t ltac:(simpl in Hlen; lia)
                  (unguarded_suffix gs [c] t Hg)) as (t' & Heq & Hkept).
      exists (c :: t'). split.
      * change ((c :: t) ++ B ++ v) with (c :: (t ++ B ++ v)) in *.
        rewrite (ssub_copy _ _ Hwf _ _ E), Heq. reflexivity.
      * eapply Forall_impl; [exact Hkept|]. intros g. apply kept_copy.
Qed.

Lemma unguarded_kept gs u u' :
  Forall (λ g, kept g u u') gs → unguarded gs u → unguarded gs u'.
Proof.
  intros Hkept Hg. unfold unguarded in *.
  destruct (existsb _ gs) eqn:E in |- *; [|reflexivity]. exfalso.
  apply existsb_exists in E as (g & Hin & Hs).
  assert (existsb (λ g, suffix_b g u) gs = true); [|congruence].
  apply existsb_exists. exists g. split; [assumption|].
  apply list_elem_of_In in Hin.
  rewrite Forall_forall in Hkept. apply (Hkept g Hin). exact Hs.
Qed.

Lemma word_here_ssub sh repl v :
  rule_ok (sh, repl) = true → word_here (ssub sh repl v) = word_here v.
Proof. intros Hr. apply word_here_head, (ssub_head sh repl Hr). Qed.

(** A rule that leaves the block alone. *)
Lemma step_idle gs sh repl B u v :
  idle_ok gs B (sh, repl) = true → unguarded gs u → word_here v = false →
  ∃ u', ssub sh repl (u ++ B ++ v) = u' ++ B ++ ssub sh repl v
        ∧ unguarded gs u' ∧ word_here (ssub sh repl v) = false.
Proof.
  intros [[[[Hr Hreach]%andb_true_iff Hin]%andb_true_iff Hsafe]%andb_true_iff
            HB]%andb_true_iff Hg Hv.
  cbn [fst snd] in *.
  assert (HB' : B ≠ []) by (destruct B; [discriminate | congruence]).
  destruct (guarded_scan_to gs sh repl B v (B ++ ssub sh repl v) (length u)
              Hr Hreach Hsafe HB'
              (idle_at_boundary sh repl B v (shk_wf _ _ Hr) Hin Hv)
              u ltac:(lia) Hg) as (u' & E & Hkept).
  exists u'. split; [exact E|]. split; [exact (unguarded_kept _ _ _ Hkept Hg)|].
  rewrite (word_here_ssub sh repl v Hr). exact Hv.
Qed.

Lemma run_idle gs B rs :
  Forall (λ rk, idle_ok gs B rk = true) rs →
  ∀ u v, unguarded gs u → word_here v = false →
  ∃ u', run rs (u ++ B ++ v) = u' ++ B ++ run rs v
        ∧ unguarded gs u' ∧ word_here (run rs v) = false.
Proof.
  induction 1 as [|[sh repl] rs Hr _ IH]; intros u v Hg Hv.
  - exists u. auto.
  - destruct (step_idle gs sh repl B u v Hr Hg Hv) as (u1 & E1 & Hg1 & Hv1).
    destruct (IH u1 (ssub sh repl v) Hg1 Hv1) as (u2 & E2 & Hg2 & Hv2).
    exists u2. split; [|split; assumption].
    change (run ((sh, repl) :: rs) ?x) with (run rs (ssub sh repl x)).
    rewrite E1, E2. reflexivity.
Qed.

(** At the start of a text, a block that no rule can start a match in stays
    as it is. *)
Lemma run_at_boundary B rs :
  Forall (λ rk : shape * pystr,
            rule_ok rk && start_in_ok rk.1 (Bounded B) B = true) rs →
  ∀ v, word_here v = false →
  run rs (B ++ v) = B ++ run rs v ∧ word_here (run rs v) = false.
Proof.
  induction 1 as [|[sh repl] rs [Hr Hin]%andb_true_iff _ IH]; intros v Hv.
  - auto.
  - change (run ((sh, repl) :: rs) ?x) with (run rs (ssub sh repl x)).
    cbn [fst] in Hin.
    rewrite (idle_at_boundary sh repl B v (shk_wf _ _ Hr) Hin Hv).
    apply IH. rewrite (word_here_ssub sh repl v Hr). exact Hv.
Qed.

(** The rule at index [k] renames its reference where it stands. *)
Lemma renamed_in_place k B repl u v :
  crules !! k = Some (Bounded B, repl) → renamed_ok k = true →
  unguarded (guards_of B) u → word_here v = false →
  ∃ u', fix_expression_references (u ++ B ++ v)
        = u' ++ rename_only B ++ fix_expression_references v.
Proof.
  intros Hk Hok Hg Hv. unfold renamed_ok in Hok. rewrite Hk in Hok.
  apply andb_true_iff in Hok as [[[[H1 H2]%andb_true_iff H3]%andb_true_iff
                                    H4]%andb_true_iff H5%list_eqb_eq].
  pose proof crules_ok as Hall.
  assert (Hr : rule_ok (Bounded B, repl) = true)
    by (apply (Forall_lookup_1 _ _ _ _ Hall Hk)).
  assert (HB : B ≠ []).
  { pose proof (shk_wf _ _ Hr) as Hwf. destruct B; [discriminate | congruence]. }
  destruct (run_idle (guards_of B) B (take k crules) (forallb_Forall _ _ H1) u v Hg Hv)
    as (u1 & E1 & Hg1 & Hv1).
  set (v1 := run (take k crules) v) in *.
  destruct (guarded_scan_to (guards_of B) (Bounded B) repl B v1
              (repl ++ ssub (Bounded B) repl v1) (length u1) Hr H2 H3 HB
              (fire_at_boundary B repl v1 Hr Hv1) u1 ltac:(lia) Hg1)
    as (u2 & E2 & _).
  assert (Hv2 : word_here (ssub (Bounded B) repl v1) = false)
    by (rewrite (word_here_ssub _ _ v1 Hr); exact Hv1).
  destruct (run_idle [] repl (drop (S k) crules) (forallb_Forall _ _ H4) u2
              (ssub (Bounded B) repl v1) eq_refl Hv2) as (u3 & E3 & _ & _).
  assert (Hrun : ∀ x, run crules x
                      = run (drop (S k) crules)
                          (ssub (Bounded B) repl (run (take k crules) x))).
  { intros x. rewrite <- (take_drop_middle crules k _ Hk) at 1.
    rewrite run_app. reflexivity. }
  exists u3. rewrite !fix_run, !Hrun, E1, E2, E3, H5. reflexivity.
Qed.

End AtBoundary.

Lemma renamed_ok_all : forallb renamed_ok (seq 0 18) = true.
Proof. vm_compute. reflexivity. Qed.

Lemma renamed_index w :
  In w renamed_references →
  ∃ k repl, crules !! k = Some (Bounded w, repl) ∧ renamed_ok k = true.
Proof.
  intros Hw. apply list_elem_of_In, list_elem_of_lookup in Hw as [k Hk].
  assert (Hlt : (k < 18)%nat).
  { apply lookup_lt_Some in Hk. exact Hk. }
  assert (Hb : map Bounded renamed_references !! k = Some (Bounded w)).
  { change (map Bounded renamed_references) with (Bounded <$> renamed_references).
    rewrite list_lookup_fmap, Hk. reflexivity. }
  rewrite renamed_references_rules in Hb.
  change (map fst (take 18 crules)) with (fst <$> take 18 crules) in Hb.
  rewrite list_lookup_fmap in Hb.
  destruct (take 18 crules !! k) as [[sh repl]|] eqn:E; [|discriminate].
  cbn in Hb. injection Hb as ->.
  rewrite lookup_take_lt in E by exact Hlt.
  exists k, repl. split; [exact E|].
  pose proof renamed_ok_all as Hall. rewrite forallb_forall in Hall.
  apply Hall. apply in_seq. lia.
Qed.

(** A reference that no guard stands before is renamed where it stands. *)
Lemma reference_renamed_unguarded w u v :
  In w renamed_references → unguarded (guards_of w) u → word_here v = false →
  ∃ u', fix_expression_references (u ++ w ++ v)
        = u' ++ rename_only w ++ fix_expression_references v.
Proof.
  intros Hw Hg Hv. destruct (renamed_index w Hw) as (k & repl & Hk & Hok).
  exact (renamed_in_place k w repl u v Hk Hok Hg Hv).
Qed.

Lemma qualified_idle_variants : forallb qualified_idle variants = true.
Proof. vm_compute. reflexivity. Qed.

Lemma variant_renamed :
  forallb (λ V, list_eqb (rename_only (Expression ++ qualified V))
                         (Expr ++ qualified V)) variants = true.
Proof. vm_compute. reflexivity. Qed.

(** The text after a guard: a qualified variant at the start of a text stays
    as it is. *)
Lemma fix_qualified V v :
  In V variants → word_here v = false →
  fix_expression_references (qualified V ++ v)
  = qualified V ++ fix_expression_references v.
Proof.
  intros HV Hv. pose proof qualified_idle_variants as H.
  rewrite forallb_forall in H. specialize (H V HV). unfold qualified_idle in H.
  rewrite !fix_run.
  apply (run_at_boundary (qualified V) crules (forallb_Forall _ _ H) v Hv).
Qed.

(** A guard with [Expression] after it is one of the references, and no
    guard brings it in reach of an earlier rule. *)
Lemma guard_reference g :
  In g guards →
  In (g ++ Expression) renamed_references
  ∧ guards_of (g ++ Expression) = []
  ∧ rename_only (g ++ Expression) = g ++ Expr.
Proof.
  intros [<-|[<-|[<-|[]]]].
  - split; [right; right; left; reflexivity|]. split; reflexivity.
  - split; [left; reflexivity|]. split; reflexivity.
  - split; [right; left; reflexivity|]. split; reflexivity.
Qed.

(** X17: each of the eighteen references that the script renames at a word
    boundary (the two imports, the borrow and the fifteen qualified
    variants) is renamed where it stands, whatever text is before it: when
    no word character follows it, the output holds the reference with [Expr]
    for [Expression] in its place, followed by the transform of the text
    after it. *)
Theorem reference_renamed_in_place (w u v : pystr) :
  In w renamed_references → word_here v = false →
  ∃ u', fix_expression_references (u ++ w ++ v)
        = u' ++ rename_only w ++ fix_expression_references v.
Proof.
  intros Hw Hv.
  destruct (existsb (λ g, suffix_b g u) (guards_of w)) eqn:Hg;
    [|exact (reference_renamed_unguarded w u v Hw Hg Hv)].
  apply existsb_exists in Hg as (g & Hin & [x ->]%suffix_b_spec).
  unfold guards_of in Hin.
  destruct (prefix_b Expression w) eqn:Hp; [|destruct Hin].
  assert (HV : ∃ V, In V variants ∧ w = Expression ++ qualified V).
  { unfold renamed_references in Hw.
    apply in_app_or in Hw as [Hw|Hw]; [|apply in_app_or in Hw as [Hw|Hw]].
    - exfalso. apply in_map_iff in Hw as (p & <- & [<-|[<-|[]]]);
        vm_compute in Hp; discriminate.
    - exfalso. destruct Hw as [<-|[]]. vm_compute in Hp. discriminate.
    - apply in_map_iff in Hw as (V & <- & HV). eauto. }
  destruct HV as (V & HV & ->).
  destruct (guard_reference g Hin) as (Hgw & Hgg & Hgr).
  assert (Hv' : word_here (qualified V ++ v) = false) by reflexivity.
  destruct (reference_renamed_unguarded (g ++ Expression) x (qualified V ++ v)
              Hgw ltac:(rewrite Hgg; reflexivity) Hv') as (x' & E).
  exists (x' ++ g).
  pose proof variant_renamed as Hr. rewrite forallb_forall in Hr.
  rewrite (list_eqb_eq _ _ (Hr V HV)).
  rewrite Hgr, (fix_qualified V v HV Hv) in E.
  repeat rewrite <- app_assoc in E. repeat rewrite <- app_assoc.
  rewrite E. reflexivity.
Qed.

Lemma reference_renamed_in_place_witness :
  In (py "&" ++ Expression) renamed_references
  ∧ word_here (py ", b: Vec<Expression>) {}") = false
  ∧ ∃ u', fix_expression_references
            (py "fn f(a: " ++ (py "&" ++ Expression) ++ py ", b: Vec<Expression>) {}")
          = u' ++ rename_only (py "&" ++ Expression)
            ++ fix_expression_references (py ", b: Vec<Expression>) {}").
Proof.
  assert (H1 : In (py "&" ++ Expression) renamed_references)
    by (right; right; left; reflexivity).
  split; [exact H1|]. split; [reflexivity|].
  exact (reference_renamed_in_place (py "&" ++ Expression) (py "fn f(a: ")
           (py ", b: Vec<Expression>) {}") H1 eq_refl).
Defined.
